(** * Window manager and AI request proxy of the browser desktop shell

    A shallow embedding of the two source files:

    - the [App] component (window registry, focus, geometry, pairing,
      launch and close controllers), as functions from one rendered state
      snapshot to the next; [toggleMinimize], whose state updater calls
      setters itself, in the two orders in which React may run that
      updater;
    - [utils/aiService.tsx] ([rotateKey], [getClient], [performRequest]),
      as calls that are suspended at their [await] and share the one key
      index, so that calls in flight together interleave.

    Numbers: [zIndex] and the counters are integers ([Z], [nat]); the
    geometry fields are JavaScript numbers used for logical pixels and are
    modelled in exact rational arithmetic ([Q]); rounding of doubles is
    not modelled (sums and halves of pixel counts are exact in both). *)

From Stdlib Require Import List String Ascii Bool Arith ZArith QArith Qminmax Lia.
From Stdlib Require Import DecimalString DecimalNat.
Import ListNotations.

Open Scope string_scope.
Open Scope list_scope.
Open Scope Z_scope.

(** ** Array helpers of the host language *)

Section ArrayHelpers.
Context {A : Type}.

(** [arr.includes(i)] on an array of strings is [includes] below; the
    generic helpers work on positions, because [p === existingPair]
    compares array references and every entry of the pair list is an
    array object of its own: identity is position. *)
Fixpoint findIndex (f : A -> bool) (l : list A) : option nat :=
  match l with
  | [] => None
  | a :: r => if f a then Some O
              else match findIndex f r with
                   | Some n => Some (S n)
                   | None => None
                   end
  end.

Fixpoint removeAt (n : nat) (l : list A) : list A :=
  match l, n with
  | [], _ => []
  | _ :: r, O => r
  | a :: r, S m => a :: removeAt m r
  end.

Fixpoint updateAt (n : nat) (g : A -> A) (l : list A) : list A :=
  match l, n with
  | [], _ => []
  | a :: r, O => g a :: r
  | a :: r, S m => a :: updateAt m g r
  end.

(** [arr.reduce(f)] without an initial value; [None] stands for the
    empty array, which the callers test for before reducing. *)
Definition reduce1 (f : A -> A -> A) (l : list A) : option A :=
  match l with
  | [] => None
  | a :: r => Some (fold_left f r a)
  end.
End ArrayHelpers.

Definition includes (p : list string) (i : string) : bool :=
  existsb (String.eqb i) p.

(** [a === b] where [a : string | null] and [b : string]. *)
Definition eqNullable (a : option string) (b : string) : bool :=
  match a with
  | Some s => String.eqb s b
  | None => false
  end.

(** [a ?? ''] *)
Definition orEmpty (a : option string) : string :=
  match a with
  | Some s => s
  | None => ""
  end.

(** Truthiness of a [string | null | undefined] value. *)
Definition truthy (a : option string) : bool :=
  match a with
  | Some s => negb (String.eqb s "")
  | None => false
  end.

Module WM.

(** ** Data model (types.ts as the component uses it) *)

Record Bounds := mkBounds {
  b_x : Q; b_y : Q; b_width : Q; b_height : Q
}.

Record WindowInstance := mkWindow {
  id : string;
  appId : string;
  title : string;
  x : Q;
  y : Q;
  width : Q;
  height : Q;
  zIndex : Z;
  isMinimized : bool;
  isMaximized : bool;
  isFullScreen : bool;
  component : string;
  icon : string;
  preMaximizedState : option Bounds;
  filePath : option string
}.

Record Size := mkSize { s_width : Q; s_height : Q }.

Record AppDefinition := mkApp {
  app_id : string;
  app_name : string;
  app_component : string;
  app_icon : string;
  defaultSize : option Size;
  allowMultiInstance : bool
}.

Definition WindowPair := list string.

(** The [useState] cells of the component that the controllers use.
    ([isOsChromeVisible] and [shelfItems] belong to presentation and to
    the shelf; no controller reads or writes them.) *)
Record State := mkState {
  windows : list WindowInstance;
  activeWindowId : option string;
  nextZIndex : Z;
  launchpadOpen : bool;
  nextWindowId : nat;
  fullScreenWindowId : option string;
  windowPairs : list WindowPair;
  pairingWindowId : option string
}.

Definition initialState : State :=
  {| windows := []; activeWindowId := None; nextZIndex := 10;
     launchpadOpen := false; nextWindowId := O;
     fullScreenWindowId := None; windowPairs := [];
     pairingWindowId := None |}.

(** *** Object spreads [{ ...win, field: v }] *)

Definition withZIndex (z : Z) (w : WindowInstance) : WindowInstance :=
  mkWindow (id w) (appId w) (title w) (x w) (y w) (width w) (height w) z
           (isMinimized w) (isMaximized w) (isFullScreen w)
           (component w) (icon w) (preMaximizedState w) (filePath w).

Definition withMinimized (m fs : bool) (w : WindowInstance) : WindowInstance :=
  mkWindow (id w) (appId w) (title w) (x w) (y w) (width w) (height w)
           (zIndex w) m (isMaximized w) fs
           (component w) (icon w) (preMaximizedState w) (filePath w).

Definition withFilePath (fp : option string) (w : WindowInstance) : WindowInstance :=
  mkWindow (id w) (appId w) (title w) (x w) (y w) (width w) (height w)
           (zIndex w) (isMinimized w) (isMaximized w) (isFullScreen w)
           (component w) (icon w) (preMaximizedState w) fp.

Definition withGeometry (nx ny nw nh : Q) (w : WindowInstance) : WindowInstance :=
  mkWindow (id w) (appId w) (title w) nx ny nw nh
           (zIndex w) (isMinimized w) (isMaximized w) (isFullScreen w)
           (component w) (icon w) (preMaximizedState w) (filePath w).

Definition withMaximized (m : bool) (w : WindowInstance) : WindowInstance :=
  mkWindow (id w) (appId w) (title w) (x w) (y w) (width w) (height w)
           (zIndex w) (isMinimized w) m (isFullScreen w)
           (component w) (icon w) (preMaximizedState w) (filePath w).

Definition withFullScreen (f : bool) (w : WindowInstance) : WindowInstance :=
  mkWindow (id w) (appId w) (title w) (x w) (y w) (width w) (height w)
           (zIndex w) (isMinimized w) (isMaximized w) f
           (component w) (icon w) (preMaximizedState w) (filePath w).

Definition withSnapshot (b : option Bounds) (w : WindowInstance) : WindowInstance :=
  mkWindow (id w) (appId w) (title w) (x w) (y w) (width w) (height w)
           (zIndex w) (isMinimized w) (isMaximized w) (isFullScreen w)
           (component w) (icon w) b (filePath w).

(** [{ x: win.x, y: win.y, width: win.width, height: win.height }] *)
Definition boundsOf (w : WindowInstance) : Bounds :=
  mkBounds (x w) (y w) (width w) (height w).

(** [{ ...win, ...win.preMaximizedState }]: spreading [undefined] adds
    nothing. *)
Definition spreadSnapshot (w : WindowInstance) : WindowInstance :=
  match preMaximizedState w with
  | Some b => withGeometry (b_x b) (b_y b) (b_width b) (b_height b) w
  | None => w
  end.

(** *** State setters *)

Definition setWindows (ws : list WindowInstance) (s : State) : State :=
  mkState ws (activeWindowId s) (nextZIndex s) (launchpadOpen s)
          (nextWindowId s) (fullScreenWindowId s) (windowPairs s)
          (pairingWindowId s).

Definition setActiveWindowId (a : option string) (s : State) : State :=
  mkState (windows s) a (nextZIndex s) (launchpadOpen s)
          (nextWindowId s) (fullScreenWindowId s) (windowPairs s)
          (pairingWindowId s).

Definition setNextZIndex (z : Z) (s : State) : State :=
  mkState (windows s) (activeWindowId s) z (launchpadOpen s)
          (nextWindowId s) (fullScreenWindowId s) (windowPairs s)
          (pairingWindowId s).

Definition setLaunchpadOpen (b : bool) (s : State) : State :=
  mkState (windows s) (activeWindowId s) (nextZIndex s) b
          (nextWindowId s) (fullScreenWindowId s) (windowPairs s)
          (pairingWindowId s).

Definition setNextWindowId (n : nat) (s : State) : State :=
  mkState (windows s) (activeWindowId s) (nextZIndex s) (launchpadOpen s)
          n (fullScreenWindowId s) (windowPairs s) (pairingWindowId s).

Definition setFullScreenWindowId (f : option string) (s : State) : State :=
  mkState (windows s) (activeWindowId s) (nextZIndex s) (launchpadOpen s)
          (nextWindowId s) f (windowPairs s) (pairingWindowId s).

Definition setWindowPairs (ps : list WindowPair) (s : State) : State :=
  mkState (windows s) (activeWindowId s) (nextZIndex s) (launchpadOpen s)
          (nextWindowId s) (fullScreenWindowId s) ps (pairingWindowId s).

Definition setPairingWindowId (p : option string) (s : State) : State :=
  mkState (windows s) (activeWindowId s) (nextZIndex s) (launchpadOpen s)
          (nextWindowId s) (fullScreenWindowId s) (windowPairs s) p.

(** *** Lookups shared by the controllers *)

(** [windows.find(w => w.id === i)] *)
Definition findWindow (i : string) (ws : list WindowInstance) : option WindowInstance :=
  find (fun w => String.eqb (id w) i) ws.

(** [windowPairs.find(p => p.includes(i))] *)
Definition findPair (i : string) (ps : list WindowPair) : option WindowPair :=
  find (fun p => includes p i) ps.

(** [pair || [i]] *)
Definition groupOf (i : string) (ps : list WindowPair) : list string :=
  match findPair i ps with
  | Some p => p
  | None => [i]
  end.

(** The window promoted after the active one goes away:
    [remaining.reduce((prev, current) =>
        (prev.zIndex > current.zIndex) ? prev : current)],
    its id when [remaining.length > 0], [null] otherwise. *)
Definition pickTop (prev current : WindowInstance) : WindowInstance :=
  if zIndex prev >? zIndex current then prev else current.

Definition topWindowId (remaining : list WindowInstance) : option string :=
  match reduce1 pickTop remaining with
  | Some w => Some (id w)
  | None => None
  end.

(** [windows.filter(w => !ids.includes(w.id) && !w.isMinimized)] *)
Definition remainingWindows (ids : list string) (ws : list WindowInstance)
  : list WindowInstance :=
  filter (fun w => negb (includes ids (id w)) && negb (isMinimized w)) ws.

(** ** The controllers

    Every callback closes over the state cells of the render that created
    it, and its dependency array lists every cell it reads, so an event
    handler reads the current snapshot.  Reads go to the snapshot [snap];
    the setters of one event are applied, cell by cell, in the order they
    are queued, to the state under construction [cur].  A top-level
    controller starts with [cur = snap].

    An updater function is pure everywhere but in [toggleMinimize], whose
    window updater calls setters itself.  When that updater runs is up to
    React: either at once, when [setWindows] is called (the eager
    evaluation React does when nothing is pending on the component), or at
    the next render.  The two orders differ, so [toggleMinimize] and its
    caller [openApp] take the order as the argument [eager]. *)

(** *** 4.2 Focus *)

(** [id === activeWindowId && !launchpadOpen] *)
Definition focusSkips (snap : State) (i : string) : bool :=
  eqNullable (activeWindowId snap) i && negb (launchpadOpen snap).

(** The window updater of [focusWindow]. *)
Definition focusWindows (snap : State) (i : string)
  (prevWindows : list WindowInstance) : list WindowInstance :=
  map (fun win => if String.eqb (id win) i
                  then withZIndex (nextZIndex snap) win else win)
      prevWindows.

(** The other setters of [focusWindow]. *)
Definition focusScalars (i : string) (cur : State) : State :=
  setNextZIndex (nextZIndex cur + 1)
    (setActiveWindowId (Some i)
       (setLaunchpadOpen false (setPairingWindowId None cur))).

Definition focusWindowIn (snap : State) (i : string) (cur : State) : State :=
  if focusSkips snap i then cur
  else
    let cur1 := setActiveWindowId (Some i)
                  (setLaunchpadOpen false (setPairingWindowId None cur)) in
    let cur2 := setWindows (focusWindows snap i (windows cur1)) cur1 in
    setNextZIndex (nextZIndex cur2 + 1) cur2.

Definition focusWindow (i : string) (s : State) : State :=
  focusWindowIn s i s.

(** *** 4.2 Minimize *)

Definition flipMinimized (winId : string) (win : WindowInstance) : WindowInstance :=
  if String.eqb (id win) winId
  then withMinimized (negb (isMinimized win)) false win
  else win.

(** One turn of [idsToToggle.forEach] inside the window updater.  The
    accumulator holds the local [wins], the state the setters called from
    inside the updater write to, and the ids whose [focusWindow] call got
    past its guard.  Where these writes land among the writes of the
    handler, and what becomes of the window updaters that the
    [focusWindow] calls queue, is decided in [toggleMinimizeIn]. *)
Definition minimizeStep (snap : State)
  (acc : list WindowInstance * State * list string) (winId : string)
  : list WindowInstance * State * list string :=
  let '(wins, cur, focused) := acc in
  match findWindow winId wins with
  | None => acc
  | Some windowToToggle =>
      let cur1 := if isFullScreen windowToToggle
                  then setFullScreenWindowId None cur else cur in
      let '(cur2, focused2) :=
        if isMinimized windowToToggle
        then if focusSkips snap winId then (cur1, focused)
             else (focusScalars winId cur1, focused ++ [winId])
        else (cur1, focused) in
      (map (flipMinimized winId) wins, cur2, focused2)
  end.

(** The lines of [toggleMinimize] after its [setWindows] call: when the
    call minimizes and the group holds the active window, the top window
    among the remaining ones becomes active. *)
Definition promoteRemaining (snap : State) (i : string) (cur : State) : State :=
  let idsToToggle := groupOf i (windowPairs snap) in
  let isMinimizing :=
    match findWindow i (windows snap) with
    | Some w => negb (isMinimized w)
    | None => false
    end in
  if isMinimizing && includes idsToToggle (orEmpty (activeWindowId snap))
  then setActiveWindowId
         (topWindowId (remainingWindows idsToToggle (windows snap))) cur
  else cur.

(** [toggleMinimize].

    - [eager = true]: the updater runs inside the [setWindows] call.  The
      setters it calls are queued there, before the handler's
      [setActiveWindowId]; the window updaters queued by its [focusWindow]
      calls are queued ahead of the update being computed, whose eagerly
      computed state then replaces theirs: no [zIndex] changes.
    - [eager = false]: the updater runs at the next render, after every
      write of the handler.  The setters it calls are applied on top of
      the handler's, and the window updaters of its [focusWindow] calls
      behind its own result. *)
Definition toggleMinimizeIn (eager : bool) (snap : State) (i : string)
  (cur : State) : State :=
  let idsToToggle := groupOf i (windowPairs snap) in
  if eager then
    let '(wins, cur1, _) :=
      fold_left (minimizeStep snap) idsToToggle (windows cur, cur, []) in
    promoteRemaining snap i (setWindows wins cur1)
  else
    let '(wins, cur1, focused) :=
      fold_left (minimizeStep snap) idsToToggle
                (windows cur, promoteRemaining snap i cur, []) in
    setWindows (fold_left (fun ws j => focusWindows snap j ws) focused wins)
               cur1.

Definition toggleMinimize (eager : bool) (i : string) (s : State) : State :=
  toggleMinimizeIn eager s i s.

(** *** 4.1 Launch *)

(** [`win-${nextWindowId}`] *)
Definition windowIdOf (n : nat) : string :=
  ("win-" ++ NilEmpty.string_of_uint (Nat.to_uint n))%string.

Definition newWindowFor (innerWidth innerHeight : Q) (app : AppDefinition)
  (fp : option string) (s : State) : WindowInstance :=
  let openWindowsCount :=
    List.length (filter (fun win => negb (isMinimized win)) (windows s)) in
  let staggerOffset := inject_Z (25 * (Z.of_nat openWindowsCount mod 10)) in
  let defaultWidth :=
    match defaultSize app with Some d => s_width d | None => 720%Q end in
  let defaultHeight :=
    match defaultSize app with Some d => s_height d | None => 540%Q end in
  let menuBarHeight := 28%Q in
  {| id := windowIdOf (nextWindowId s);
     appId := app_id app;
     title := app_name app;
     x := (innerWidth / 2 - defaultWidth / 2 + staggerOffset)%Q;
     y := Qmax (menuBarHeight + 10)%Q
               ((innerHeight - defaultHeight) / 2 - 40 + staggerOffset)%Q;
     width := defaultWidth;
     height := defaultHeight;
     zIndex := nextZIndex s;
     isMinimized := false;
     isMaximized := false;
     isFullScreen := false;
     component := app_component app;
     icon := app_icon app;
     preMaximizedState := None;
     filePath := fp |}.

(** [windows.find(win => win.appId === app.id && !app.allowMultiInstance)] *)
Definition existingWindowOf (app : AppDefinition) (ws : list WindowInstance)
  : option WindowInstance :=
  find (fun win => String.eqb (appId win) (app_id app)
                   && negb (allowMultiInstance app)) ws.

(** [innerWidth] and [innerHeight] are the viewport size read from the
    browser when the window is created; [eager] is the order in which the
    updater of [toggleMinimize] runs, if it is called.  The updater that
    writes [filePath] is applied last here; at render time React runs it
    ahead of the window updaters queued by the [focusWindow] calls, which
    write another field of the window (see
    [focusWindows_filePath_commute]). *)
Definition openApp (eager : bool) (innerWidth innerHeight : Q)
  (app : AppDefinition) (fp : option string) (s : State) : State :=
  let cur := setLaunchpadOpen false s in
  match existingWindowOf app (windows s) with
  | Some existingWindow =>
      let cur1 :=
        if isMinimized existingWindow
        then toggleMinimizeIn eager s (id existingWindow) cur
        else focusWindowIn s (id existingWindow) cur in
      if truthy fp
      then setWindows
             (map (fun win => if String.eqb (id win) (id existingWindow)
                              then withFilePath fp win else win)
                  (windows cur1)) cur1
      else cur1
  | None =>
      let newWindow := newWindowFor innerWidth innerHeight app fp s in
      let cur1 := setWindows (windows cur ++ [newWindow]) cur in
      let cur2 := setActiveWindowId (Some (id newWindow)) cur1 in
      let cur3 := setNextZIndex (nextZIndex cur2 + 1) cur2 in
      setNextWindowId (S (nextWindowId cur3)) cur3
  end.

(** *** 4.5 Close *)

Definition closeWindow (i : string) (s : State) : State :=
  let idsToClose := groupOf i (windowPairs s) in
  let cur1 :=
    if existsb (fun winId => eqNullable (fullScreenWindowId s) winId) idsToClose
    then setFullScreenWindowId None s else s in
  let cur2 :=
    setWindows (filter (fun win => negb (includes idsToClose (id win)))
                       (windows cur1)) cur1 in
  let cur3 :=
    setWindowPairs (filter (fun p => negb (includes p i)) (windowPairs cur2))
                   cur2 in
  if includes idsToClose (orEmpty (activeWindowId s))
  then setActiveWindowId
         (topWindowId (remainingWindows idsToClose (windows s))) cur3
  else cur3.

(** *** 4.3 Geometry *)

Definition fullScreenMap (i : string) (win : WindowInstance) : WindowInstance :=
  if negb (String.eqb (id win) i) then win
  else if isFullScreen win
       then spreadSnapshot (withFullScreen false win)
       else withSnapshot
              (if isMaximized win then preMaximizedState win
               else Some (boundsOf win))
              (withFullScreen true win).

(** The [setFullScreenWindowId] calls made while the updater maps over
    the windows: one per window whose id is [i], the last one stands. *)
Definition fullScreenIdAfter (i : string) (prev : list WindowInstance)
  (fs : option string) : option string :=
  fold_left (fun f win => if String.eqb (id win) i
                          then (if isFullScreen win then None else Some i)
                          else f)
            prev fs.

Definition toggleFullScreen (i : string) (s : State) : State :=
  let cur1 :=
    setFullScreenWindowId
      (fullScreenIdAfter i (windows s) (fullScreenWindowId s))
      (setWindows (map (fullScreenMap i) (windows s)) s) in
  focusWindowIn s i cur1.

Definition maximizeMap (i : string) (win : WindowInstance) : WindowInstance :=
  if negb (String.eqb (id win) i) then win
  else if isMaximized win
       then match preMaximizedState win with
            | Some b => withGeometry (b_x b) (b_y b) (b_width b) (b_height b)
                                     (withMaximized false win)
            | None => withMaximized false win
            end
       else withSnapshot (Some (boundsOf win)) (withMaximized true win).

Definition toggleMaximize (i : string) (s : State) : State :=
  focusWindowIn s i (setWindows (map (maximizeMap i) (windows s)) s).

Definition updateWindowPosition (i : string) (newX newY : Q) (s : State) : State :=
  match findWindow i (windows s) with
  | None => s
  | Some mover =>
      let deltaX := (newX - x mover)%Q in
      let deltaY := (newY - y mover)%Q in
      let idsToMove := groupOf i (windowPairs s) in
      setWindows
        (map (fun win =>
                if includes idsToMove (id win)
                then withGeometry (x win + deltaX)%Q (y win + deltaY)%Q
                                  (width win) (height win) win
                else win)
             (windows s)) s
  end.

Definition updateWindowSize (i : string) (newWidth newHeight : Q) (s : State) : State :=
  setWindows
    (map (fun win => if String.eqb (id win) i
                     then withGeometry (x win) (y win) newWidth newHeight win
                     else win)
         (windows s)) s.

(** *** 4.4 Pairing *)

Definition startPairing (i : string) (s : State) : State :=
  match findIndex (fun p => includes p i) (windowPairs s) with
  | Some existingPair =>
      setWindowPairs (removeAt existingPair (windowPairs s)) s
  | None => setPairingWindowId (Some i) s
  end.

Definition completePairing (targetId : string) (s : State) : State :=
  let cur :=
    match pairingWindowId s with
    | Some source =>
        if negb (String.eqb source "") && negb (String.eqb source targetId)
        then match findIndex (fun p => includes p source) (windowPairs s) with
             | Some existingPair =>
                 setWindowPairs
                   (updateAt existingPair (fun p => p ++ [targetId])
                             (windowPairs s)) s
             | None =>
                 setWindowPairs (windowPairs s ++ [[source; targetId]]) s
             end
        else s
    | None => s
    end in
  setPairingWindowId None cur.

(** *** Handlers wired in the markup *)

(** [onLaunchpadClick]: [setLaunchpadOpen(prev => !prev)] *)
Definition toggleLaunchpad (s : State) : State :=
  setLaunchpadOpen (negb (launchpadOpen s)) s.

(** [Launchpad onClose] *)
Definition closeLaunchpad (s : State) : State :=
  setLaunchpadOpen false s.

(** [main onClick]: [pairingWindowId && setPairingWindowId(null)] *)
Definition clickDesktop (s : State) : State :=
  if truthy (pairingWindowId s) then setPairingWindowId None s else s.

(** ** Events and reachable states

    An event that may call [toggleMinimize] carries the order in which
    React runs its updater; every choice is allowed, so what holds of
    every reachable state holds however React schedules the updaters. *)

Inductive Op :=
| OpenApp (eager : bool) (innerWidth innerHeight : Q) (app : AppDefinition)
          (fp : option string)
| CloseWindow (i : string)
| FocusWindow (i : string)
| ToggleMinimize (eager : bool) (i : string)
| ToggleMaximize (i : string)
| ToggleFullScreen (i : string)
| UpdateWindowPosition (i : string) (newX newY : Q)
| UpdateWindowSize (i : string) (newWidth newHeight : Q)
| StartPairing (i : string)
| CompletePairing (i : string)
| ToggleLaunchpad
| CloseLaunchpad
| ClickDesktop.

Definition step (s : State) (o : Op) : State :=
  match o with
  | OpenApp eager iw ih app fp => openApp eager iw ih app fp s
  | CloseWindow i => closeWindow i s
  | FocusWindow i => focusWindow i s
  | ToggleMinimize eager i => toggleMinimize eager i s
  | ToggleMaximize i => toggleMaximize i s
  | ToggleFullScreen i => toggleFullScreen i s
  | UpdateWindowPosition i nx ny => updateWindowPosition i nx ny s
  | UpdateWindowSize i nw nh => updateWindowSize i nw nh s
  | StartPairing i => startPairing i s
  | CompletePairing i => completePairing i s
  | ToggleLaunchpad => toggleLaunchpad s
  | CloseLaunchpad => closeLaunchpad s
  | ClickDesktop => clickDesktop s
  end.

(** The state after a sequence of events, one render between two events. *)
Definition run (ops : list Op) (s : State) : State := fold_left step ops s.

Definition reachable (s : State) : Prop :=
  exists ops, s = run ops initialState.

(** ** Sample catalog entries and sessions used in the examples

    The application catalog ([config/apps]) is supplied from outside; the
    controllers only read the fields of the entry they are given. *)

Definition notes : AppDefinition :=
  mkApp "notes" "Notes" "NotesApp" "notes.png" None false.

Definition terminal : AppDefinition :=
  mkApp "terminal" "Terminal" "TerminalApp" "terminal.png"
        (Some (mkSize 400 300)) true.

(** [win-0] paired with [win-2], then [win-1] paired with [win-0]. *)
Definition overlappingPairs : list Op :=
  [StartPairing "win-0"; CompletePairing "win-2";
   StartPairing "win-1"; CompletePairing "win-0"].

(** [win-1] is paired with [win-0] and maximized; then [win-0] is
    dragged, which drags [win-1] along. *)
Definition dragMaximizedPartner : list Op :=
  [StartPairing "win-0"; CompletePairing "win-1"; ToggleMaximize "win-1";
   UpdateWindowPosition "win-0" 10 50].

(** What the examples show of a window. *)
Definition placement (w : WindowInstance) : string * bool * bool * (Q * Q * Q * Q) :=
  (id w, isMaximized w, isFullScreen w,
   (Qred (x w), Qred (y w), Qred (width w), Qred (height w))).

(** [win-0] (Notes) and [win-1] are paired and minimized together, in
    either order [eager]; the launcher is opened and Notes is launched
    from it, which restores the pair.  [openApp] has queued
    [setLaunchpadOpen(false)] by the time it calls [toggleMinimize], so
    the updater runs at the next render and both windows get the same
    [zIndex].  Then [win-2] is focused. *)
Definition restorePairThenFocus (eager : bool) : list Op :=
  [StartPairing "win-0"; CompletePairing "win-1";
   ToggleMinimize eager "win-0"; ToggleLaunchpad;
   OpenApp false 1024 768 notes None; FocusWindow "win-2"].

(** The promotion rule in the specification's words: greatest [zIndex],
    and among equals the first one met in list order.  It is compared
    with [topWindowId], the rule of the source. *)
Definition pickTopFirst (prev current : WindowInstance) : WindowInstance :=
  if zIndex current >? zIndex prev then current else prev.

Definition firstTopWindowId (remaining : list WindowInstance) : option string :=
  match reduce1 pickTopFirst remaining with
  | Some w => Some (id w)
  | None => None
  end.

(** Notes in [win-0] is paired with the terminal in [win-1] and the pair
    is minimized, in either order [eager]. *)
Definition minimizedPair (eager : bool) : list Op :=
  [OpenApp true 1024 768 notes None; OpenApp true 1024 768 terminal None;
   StartPairing "win-0"; CompletePairing "win-1";
   ToggleMinimize eager "win-0"].

(** [win-1] is minimized on its own, in either order [eager], and then
    paired with [win-0], which is focused: a pair with one member
    minimized and the other one active. *)
Definition pairWithMinimizedPartner (eager : bool) : list Op :=
  [ToggleMinimize eager "win-1"; StartPairing "win-0";
   CompletePairing "win-1"; FocusWindow "win-0"].

(** Notes in [win-0], two terminals in [win-1] and [win-2] (an [openApp]
    that creates a window does not call [toggleMinimize]). *)
Definition threeWindows : list Op :=
  [OpenApp true 1024 768 notes None; OpenApp true 1024 768 terminal None;
   OpenApp true 1024 768 terminal None].

(** ** Predicates used to state the properties *)

(** What [focusWindow] and [toggleMinimize] may do to one window: give it
    [zn] as [zIndex] (only if [advanced] holds), set [isMinimized], clear
    [isFullScreen]. *)
Definition refocused (zn : Z) (advanced : Prop) (w w' : WindowInstance) : Prop :=
  exists z m f,
    w' = withZIndex z (withMinimized m f w)
    /\ (z = zIndex w \/ (z = zn /\ advanced))
    /\ (f = isFullScreen w \/ f = false).

(** What a run of [focusWindow] or [toggleMinimize] on snapshot [snap]
    turns the state under construction [cur] into. *)
Definition frame (snap cur r : State) : Prop :=
  Forall2 (refocused (nextZIndex snap) (nextZIndex cur < nextZIndex r))
          (windows cur) (windows r)
  /\ nextZIndex cur <= nextZIndex r
  /\ windowPairs r = windowPairs cur
  /\ nextWindowId r = nextWindowId cur
  /\ (pairingWindowId r = pairingWindowId cur \/ pairingWindowId r = None).

(** The [focusWindow] call that the updater of [toggleMinimize] makes for
    the group member [j] gets past its guard: [j] is minimized in [wins],
    and is not the active window of a closed launcher. *)
Definition restores (snap : State) (wins : list WindowInstance) (j : string)
  : bool :=
  match findWindow j wins with
  | Some w => isMinimized w && negb (focusSkips snap j)
  | None => false
  end.

(** The id that the last of the calls [focusWindow(j)], [j] in [focused],
    leaves active; [fallback] when there is no call. *)
Definition lastFocused (focused : list string) (fallback : option string)
  : option string :=
  last (map Some focused) fallback.

(** Every [zIndex] in use is below the counter. *)
Definition zBounded (s : State) : Prop :=
  Forall (fun w => zIndex w < nextZIndex s) (windows s).

(** A maximized or fullscreen window has a snapshot. *)
Definition hasSnapshotWhenLarge (w : WindowInstance) : Prop :=
  isMaximized w = true \/ isFullScreen w = true ->
  preMaximizedState w <> None.

(** No id of [p] occurs in [q]. *)
Definition pairApart (p q : WindowPair) : bool :=
  forallb (fun i => negb (includes q i)) p.

(** No id occurs in two entries of the pair list. *)
Fixpoint pairsDisjoint (ps : list WindowPair) : bool :=
  match ps with
  | [] => true
  | p :: rest => forallb (pairApart p) rest && pairsDisjoint rest
  end.

(** The pair list is disjoint and the pending source is in no pair. *)
Definition pairingSound (s : State) : Prop :=
  pairsDisjoint (windowPairs s) = true
  /\ forall source, pairingWindowId s = Some source ->
                    findPair source (windowPairs s) = None.

(** The event does not complete a pending pairing on a target that is
    already in a pair.  A [completePairing] without a pending source, or
    whose source is empty or is the target itself, only clears the
    pending source and is not restricted. *)
Definition targetUnpaired (s : State) (o : Op) : Prop :=
  match o with
  | CompletePairing targetId =>
      forall source,
        pairingWindowId s = Some source ->
        source <> "" -> source <> targetId ->
        findPair targetId (windowPairs s) = None
  | _ => True
  end.

Fixpoint targetsUnpaired (ops : list Op) (s : State) : Prop :=
  match ops with
  | [] => True
  | o :: rest => targetUnpaired s o /\ targetsUnpaired rest (step s o)
  end.

(** [w'] is the window [w] after an event. *)
Definition sameIdentity (w w' : WindowInstance) : Prop :=
  id w' = id w /\ appId w' = appId w.

(** The windows of application [a]. *)
Definition instancesOf (a : string) (ws : list WindowInstance)
  : list WindowInstance :=
  filter (fun w => String.eqb (appId w) a) ws.

(** The event does not open application [a] from a catalog entry that
    allows several instances. *)
Definition singleInstance (a : string) (o : Op) : Prop :=
  match o with
  | OpenApp _ _ _ app _ => app_id app = a -> allowMultiInstance app = false
  | _ => True
  end.

(** Window ids are distinct and were all issued by the id counter. *)
Definition idsIssued (s : State) : Prop :=
  NoDup (map id (windows s))
  /\ forall w, In w (windows s) ->
               exists n, (n < nextWindowId s)%nat /\ id w = windowIdOf n.

(** [setWindows(prev => prev.map(win =>
      win.id === existingWindow.id ? { ...win, filePath } : win))],
    run only for a truthy [filePath]. *)
Definition overwriteFilePath (i : string) (fp : option string) (cur : State)
  : State :=
  if truthy fp
  then setWindows (map (fun win => if String.eqb (id win) i
                                   then withFilePath fp win else win)
                       (windows cur)) cur
  else cur.

(** ** The rest of the component *)

(** [windows.find(w => w.id === fullScreenWindowId)]: the window the
    fullscreen layout renders; the normal layout is rendered when it is
    undefined. *)
Definition fullScreenInstance (s : State) : option WindowInstance :=
  find (fun w => eqNullable (fullScreenWindowId s) (id w)) (windows s).

(** [a || b] on [string | null] values. *)
Definition orElse (a b : option string) : option string :=
  if truthy a then a else b.

(** The [activeApp] memo; [APPS] is the catalog of [config/apps]. *)
Definition activeApp (APPS : list AppDefinition) (s : State)
  : option AppDefinition :=
  let activeId := orElse (fullScreenWindowId s) (activeWindowId s) in
  if truthy activeId then
    match findWindow (orEmpty activeId) (windows s) with
    | Some activeWin =>
        find (fun app => String.eqb (app_id app) (appId activeWin)) APPS
    | None => None
    end
  else None.

(** An [OSAction]: its kind and the two payload fields the dispatcher
    reads. *)
Record OSAction := mkAction {
  action : string;
  payload_appId : option string;
  payload_filePath : option string
}.

(** [handleExecuteAction]; [None] stands for a null action, and the
    payload object is there as the type requires.  The warning logged
    for an unknown kind is not part of the state.  [eager] is passed on
    to [openApp]. *)
Definition handleExecuteAction (APPS : list AppDefinition) (eager : bool)
  (innerWidth innerHeight : Q) (a : option OSAction) (s : State) : State :=
  match a with
  | None => s
  | Some act =>
      if String.eqb (action act) "" then s
      else if String.eqb (action act) "open_app" then
        if truthy (payload_appId act) then
          match find (fun app => String.eqb (app_id app)
                                            (orEmpty (payload_appId act)))
                     APPS with
          | Some appToOpen =>
              openApp eager innerWidth innerHeight appToOpen
                      (payload_filePath act) s
          | None => s
          end
        else s
      else s
  end.

(** *** The shelf

    [Item] stands for the fields of a [ShelfItem] other than its id;
    [uuid] is what [uuidv4()] returns for the call. *)
Section Shelf.
Variable Item : Type.

Record ShelfItem := mkShelfItem { shelf_id : string; shelf_fields : Item }.

Definition addToShelf (uuid : string) (item : Item) (prev : list ShelfItem)
  : list ShelfItem :=
  prev ++ [mkShelfItem uuid item].

Definition removeFromShelf (i : string) (prev : list ShelfItem)
  : list ShelfItem :=
  filter (fun item => negb (String.eqb (shelf_id item) i)) prev.
End Shelf.

Arguments mkShelfItem {Item}.
Arguments shelf_id {Item}.
Arguments shelf_fields {Item}.
Arguments addToShelf {Item}.
Arguments removeFromShelf {Item}.

(** ** Further predicates *)

(** What [toggleMinimize] does to the flags of a window of its group. *)
Definition flipAll (ids : list string) (w : WindowInstance) : WindowInstance :=
  if includes ids (id w)
  then withMinimized (negb (isMinimized w)) false w
  else w.

(** What the queued focus updaters do together. *)
Definition raiseAll (zn : Z) (focused : list string) (w : WindowInstance)
  : WindowInstance :=
  if includes focused (id w) then withZIndex zn w else w.

(** Every pair is two distinct ids and the pending source is in none. *)
Definition pairsShaped (s : State) : Prop :=
  (forall p, In p (windowPairs s) -> exists a b, p = [a; b] /\ a <> b)
  /\ forall source, pairingWindowId s = Some source ->
                    findPair source (windowPairs s) = None.

(** The fullscreen id names a registered window whose flag is set. *)
Definition fullScreenSound (s : State) : Prop :=
  forall i, fullScreenWindowId s = Some i ->
            exists w, In w (windows s) /\ id w = i /\ isFullScreen w = true.

(** [w'] is [w] with its id and fullscreen flag as they were. *)
Definition keepsFlag (w w' : WindowInstance) : Prop :=
  id w' = id w /\ isFullScreen w' = isFullScreen w.

(** [w'] is [w] after an event on a state whose z counter is [zn]: same
    id, and the [zIndex] it had or the counter. *)
Definition raisedTo (zn : Z) (w w' : WindowInstance) : Prop :=
  id w' = id w /\ (zIndex w' = zIndex w \/ zIndex w' = zn).

(** The event opens applications from the catalog only. *)
Definition fromCatalog (APPS : list AppDefinition) (o : Op) : Prop :=
  match o with
  | OpenApp _ _ _ app _ => In app APPS
  | _ => True
  end.

End WM.

(** ** utils/aiService.tsx *)

Module AI.

Section Service.
(** [T] is what the request resolves to, [E] what it rejects with. *)
Variables T E : Type.

(** The credentials, fixed when the module is loaded. *)
Variable API_KEYS : list string.

(** A client is the key it was built with ([API_KEYS[currentKeyIndex]],
    [undefined] past the end). *)
Definition Client := option string.

(** What [performRequest] throws. *)
Inductive Failure :=
| Offline               (* "You are offline. AI features require ..." *)
| NoKeysConfigured      (* "No API keys configured." *)
| CouldNotInitialize    (* "Could not initialize AI client." *)
| ExhaustedAttempts     (* "All API keys failed and exhausted attempts." *)
| RequestError (e : E). (* the error the request rejected with *)

(** [performRequest] is an async function: a call runs until it reaches
    [await request(client)], is suspended there with its local variables
    [initialKeyIndex] and [attempts], and goes on when the promise
    settles.  Other calls run in between; all of them read and write the
    one module variable [currentKeyIndex]. *)
Inductive Status :=
| Awaiting (initialKeyIndex attempts : nat)
| Resolved (v : T)
| Thrown (f : Failure).

(** A call: where it stands, and the key indices its requests were sent
    with so far, in order ([sent] is a record of what the call did, not a
    variable of the program). *)
Record Call := mkCall {
  status : Status;
  sent : list nat
}.

Definition getClient (currentKeyIndex : nat) : option Client :=
  if (List.length API_KEYS =? 0)%nat then None
  else Some (nth_error API_KEYS currentKeyIndex).

Definition rotateKey (currentKeyIndex : nat) : nat :=
  ((currentKeyIndex + 1) mod List.length API_KEYS)%nat.

(** The [while (attempts < API_KEYS.length)] loop, from its test to the
    next [await]: the call is suspended on the request it sends with the
    current key, or has thrown.  The result is the call and
    [currentKeyIndex].  [fuel] bounds the number of turns and [None]
    means the bound was hit. *)
Fixpoint attemptLoop (fuel initialKeyIndex attempts currentKeyIndex : nat)
  (sent : list nat) : option (Call * nat) :=
  match fuel with
  | O => None
  | S fuel' =>
      if (attempts <? List.length API_KEYS)%nat then
        match getClient currentKeyIndex with
        | Some client =>
            Some (mkCall (Awaiting initialKeyIndex attempts)
                         (sent ++ [currentKeyIndex]),
                  currentKeyIndex)
        | None =>
            (* "Could not initialize AI client." is thrown and caught *)
            let attempts' := S attempts in
            if (attempts' <? List.length API_KEYS)%nat
            then attemptLoop fuel' initialKeyIndex attempts'
                             (rotateKey currentKeyIndex) sent
            else Some (mkCall (Thrown CouldNotInitialize) sent,
                       initialKeyIndex)
        end
      else Some (mkCall (Thrown ExhaustedAttempts) sent, currentKeyIndex)
  end.

(** The promise a suspended call awaits has settled: [return] on a
    value; on a rejection the [catch] block, which rotates the key that
    is current NOW and goes round the loop, or puts [initialKeyIndex]
    back and throws. *)
Definition resume (initialKeyIndex attempts currentKeyIndex : nat)
  (sent : list nat) (result : E + T) : option (Call * nat) :=
  match result with
  | inr v => Some (mkCall (Resolved v) sent, currentKeyIndex)
  | inl e =>
      let attempts' := S attempts in
      if (attempts' <? List.length API_KEYS)%nat
      then attemptLoop (S (List.length API_KEYS)) initialKeyIndex attempts'
                       (rotateKey currentKeyIndex) sent
      else Some (mkCall (Thrown (RequestError e)) sent, initialKeyIndex)
  end.

(** [performRequest] from its call to its first [await]; [onLine] is
    [navigator.onLine] at that time. *)
Definition performRequest (onLine : bool) (currentKeyIndex : nat)
  : option (Call * nat) :=
  if negb onLine then Some (mkCall (Thrown Offline) [], currentKeyIndex)
  else if (List.length API_KEYS =? 0)%nat
       then Some (mkCall (Thrown NoKeysConfigured) [], currentKeyIndex)
       else attemptLoop (S (List.length API_KEYS)) currentKeyIndex O
                        currentKeyIndex [].

(** The module at run time: the shared index and the calls made so far,
    in the order they were made. *)
Record World := mkWorld {
  currentKeyIndex : nat;
  calls : list Call
}.

(** The module as loaded: [let currentKeyIndex = 0]. *)
Definition loaded : World := mkWorld 0 [].

(** What happens to the module: [performRequest] is called, or the
    request that the suspended call number [call] awaits settles
    ([inr] resolved, [inl] rejected).  Between two events nothing else
    runs (one thread; a call gives way at its [await] only).  A
    [request] that throws before it returns a promise is a rejection
    settled with no event in between. *)
Inductive Event :=
| Begin (onLine : bool)
| Settle (call : nat) (result : E + T).

(** One event; [None] when the event cannot happen (the call is not
    suspended) or the loop bound was hit. *)
Definition react (w : World) (ev : Event) : option World :=
  match ev with
  | Begin onLine =>
      match performRequest onLine (currentKeyIndex w) with
      | Some (c, i) => Some (mkWorld i (calls w ++ [c]))
      | None => None
      end
  | Settle k result =>
      match nth_error (calls w) k with
      | Some (mkCall (Awaiting initialKeyIndex attempts) sent) =>
          match resume initialKeyIndex attempts (currentKeyIndex w) sent
                       result with
          | Some (c, i) => Some (mkWorld i (updateAt k (fun _ => c) (calls w)))
          | None => None
          end
      | _ => None
      end
  end.

Fixpoint reacts (evs : list Event) (w : World) : option World :=
  match evs with
  | [] => Some w
  | ev :: rest =>
      match react w ev with
      | Some w' => reacts rest w'
      | None => None
      end
  end.

(** A call that runs while no other call does.  [request k c] is how the
    request sent on client [c] settles after [k] earlier failed attempts
    of the same call; the client of the pending request is the key at
    the last index of [sent]. *)
Variable request : nat -> Client -> E + T.

Fixpoint settleAlone (fuel k : nat) (w : World) : option World :=
  match fuel with
  | O => None
  | S fuel' =>
      match nth_error (calls w) k with
      | Some (mkCall (Awaiting _ attempts) sent) =>
          match react w (Settle k (request attempts
                                     (nth_error API_KEYS (last sent O)))) with
          | Some w' => settleAlone fuel' k w'
          | None => None
          end
      | _ => Some w
      end
  end.

Definition performRequestAlone (onLine : bool) (w : World) : option World :=
  match react w (Begin onLine) with
  | Some w' => settleAlone (S (List.length API_KEYS)) (List.length (calls w)) w'
  | None => None
  end.

(** The key index after [j] rotations, and the client the [j]-th
    attempt of a call started at index [i] is sent with when no other
    call runs. *)
Definition rotations (j i : nat) : nat := Nat.iter j rotateKey i.

Definition clientAt (i j : nat) : Client :=
  nth_error API_KEYS (rotations j i).

(** [createChat]: the chat session is tied to the client of the current
    key; [None] is [null]. *)
Definition createChat (currentKeyIndex : nat) : option Client :=
  getClient currentKeyIndex.

(** ** Predicates used to state the properties *)

(** What holds of a call whatever the other calls do: it is suspended on
    its [attempts + 1]-th request with fewer than [n] failed attempts, or
    resolved after at most [n] requests, or has thrown at once (offline,
    no keys) with nothing sent, or has thrown the request error after
    exactly [n] requests; every request went out on an index of the key
    list. *)
Definition callSound (c : Call) : Prop :=
  match status c with
  | Awaiting initialKeyIndex attempts =>
      (attempts < List.length API_KEYS)%nat
      /\ List.length (sent c) = S attempts
      /\ (initialKeyIndex < List.length API_KEYS)%nat
  | Resolved _ =>
      (1 <= List.length (sent c) <= List.length API_KEYS)%nat
  | Thrown Offline => sent c = []
  | Thrown NoKeysConfigured => sent c = [] /\ List.length API_KEYS = O
  | Thrown (RequestError _) =>
      List.length (sent c) = List.length API_KEYS
  | Thrown _ => False
  end
  /\ Forall (fun j => (j < List.length API_KEYS)%nat) (sent c).

Definition worldSound (w : World) : Prop :=
  ((0 < List.length API_KEYS)%nat ->
   (currentKeyIndex w < List.length API_KEYS)%nat)
  /\ Forall callSound (calls w).

(** The call has settled. *)
Definition settled (c : Call) : bool :=
  match status c with
  | Awaiting _ _ => false
  | _ => true
  end.
End Service.

Arguments Offline {E}.
Arguments NoKeysConfigured {E}.
Arguments CouldNotInitialize {E}.
Arguments ExhaustedAttempts {E}.
Arguments RequestError {E} e.
Arguments Awaiting {T E}.
Arguments Resolved {T E}.
Arguments Thrown {T E}.
Arguments mkCall {T E}.
Arguments status {T E}.
Arguments sent {T E}.
Arguments mkWorld {T E}.
Arguments currentKeyIndex {T E}.
Arguments calls {T E}.
Arguments Begin {T E}.
Arguments Settle {T E}.
Arguments attemptLoop {T E}.
Arguments resume {T E}.
Arguments performRequest {T E}.
Arguments react {T E}.
Arguments reacts {T E}.
Arguments settleAlone {T E}.
Arguments performRequestAlone {T E}.
Arguments callSound {T E}.
Arguments worldSound {T E}.
Arguments settled {T E}.

End AI.

(** * Properties of the AI request proxy *)

(** ** Updating one position of a list *)

Lemma nth_error_updateAt_same {A} k (g : A -> A) l a :
  nth_error l k = Some a -> nth_error (updateAt k g l) k = Some (g a).
Proof.
  revert k. induction l as [|b l IH]; intros k; [now destruct k|].
  destruct k as [|k]; simpl; [now intros [= ->]|apply IH].
Qed.

Lemma nth_error_updateAt_const {A} k (c : A) l a :
  nth_error l k = Some a ->
  nth_error (updateAt k (fun _ => c) l) k = Some c.
Proof. apply (nth_error_updateAt_same k (fun _ => c)). Qed.

Lemma nth_error_updateAt_other {A} k j (g : A -> A) l :
  j <> k -> nth_error (updateAt k g l) j = nth_error l j.
Proof.
  revert k j. induction l as [|b l IH]; intros k j Hne; [now destruct k|].
  destruct k as [|k], j as [|j]; simpl; try reflexivity; [congruence|].
  apply IH. congruence.
Qed.

Lemma updateAt_updateAt {A} k (c d : A) l :
  updateAt k (fun _ => d) (updateAt k (fun _ => c) l)
  = updateAt k (fun _ => d) l.
Proof.
  revert k. induction l as [|b l IH]; intros k; [now destruct k|].
  destruct k as [|k]; simpl; [reflexivity|now rewrite IH].
Qed.

Lemma updateAt_app_last {A} (c d : A) l :
  updateAt (List.length l) (fun _ => d) (l ++ [c]) = l ++ [d].
Proof. induction l as [|b l IH]; simpl; [reflexivity|now rewrite IH]. Qed.

Lemma Forall_updateAt {A} (P : A -> Prop) k (g : A -> A) l :
  Forall P l -> (forall a, nth_error l k = Some a -> P (g a)) ->
  Forall P (updateAt k g l).
Proof.
  intros F. revert k. induction F as [|b l Hb F IH]; intros k Hg;
    [destruct k; constructor|].
  destruct k as [|k]; simpl; constructor; auto.
Qed.

Lemma nth_error_app_last {A} (l : list A) c :
  nth_error (l ++ [c]) (List.length l) = Some c.
Proof. induction l as [|b l IH]; [reflexivity|exact IH]. Qed.

Section AIProofs.
Variables T E : Type.
Variable API_KEYS : list string.

Let n := List.length API_KEYS.

Let rotations := AI.rotations API_KEYS.
Let clientAt := AI.clientAt API_KEYS.
Let World := @AI.World T E.
Let Call := @AI.Call T E.

(** ** The key rotation *)

Lemma rotations_shift j i :
  rotations j (AI.rotateKey API_KEYS i) = rotations (S j) i.
Proof. unfold rotations, AI.rotations. now rewrite Nat.iter_succ_r. Qed.

Lemma rotations_mod j i :
  (i < n)%nat -> rotations j i = ((i + j) mod n)%nat.
Proof.
  intros Hi. induction j as [|j IH].
  - simpl. rewrite Nat.add_0_r. symmetry. now apply Nat.mod_small.
  - unfold rotations, AI.rotations in *. simpl. rewrite IH.
    unfold AI.rotateKey. fold n.
    rewrite Nat.Div0.add_mod_idemp_l. f_equal. lia.
Qed.

Lemma map_rotations_shift i k :
  map (fun j => rotations j (AI.rotateKey API_KEYS i)) (seq 0 k)
  = map (fun j => rotations j i) (seq 1 k).
Proof.
  rewrite <- seq_shift, map_map. apply map_ext. intros j.
  apply rotations_shift.
Qed.

Lemma rotateKey_valid i : (0 < n)%nat -> (AI.rotateKey API_KEYS i < n)%nat.
Proof. intros Hn. unfold AI.rotateKey. apply Nat.mod_upper_bound. fold n. lia. Qed.

Lemma mod_wrap a : (n <= a < 2 * n)%nat -> (a mod n = a - n)%nat.
Proof.
  intros Ha. symmetry. apply Nat.mod_unique with (q := 1%nat); lia.
Qed.

Lemma rotation_injective i j j' :
  (i < n)%nat -> (j < n)%nat -> (j' < n)%nat ->
  ((i + j) mod n = (i + j') mod n)%nat -> j = j'.
Proof.
  intros Hi Hj Hj' H.
  destruct (Nat.lt_ge_cases (i + j) n) as [L|L];
    destruct (Nat.lt_ge_cases (i + j') n) as [L'|L'];
    repeat match goal with
           | H : context [(?a mod n)%nat], L : (?a < n)%nat |- _ =>
               rewrite (Nat.mod_small a n L) in H
           | H : context [(?a mod n)%nat], L : (n <= ?a)%nat |- _ =>
               rewrite (mod_wrap a) in H by lia
           end; lia.
Qed.

Lemma rotation_prefix_NoDup i k :
  (i < n)%nat -> (k <= n)%nat ->
  NoDup (map (fun j => ((i + j) mod n)%nat) (seq 0 k)).
Proof.
  intros Hi Hk. apply NoDup_map_NoDup_ForallPairs; [|apply seq_NoDup].
  intros j j' Hj Hj' Heq. apply in_seq in Hj, Hj'.
  apply (rotation_injective i); lia || assumption.
Qed.

(** ** One step of a call, in closed form (the loop bound is never hit) *)

Lemma attemptLoop_ready fuel init a cur sent :
  (a < n)%nat ->
  AI.attemptLoop (T := T) (E := E) API_KEYS (S fuel) init a cur sent
  = Some (AI.mkCall (AI.Awaiting init a) (sent ++ [cur]), cur).
Proof.
  intros Ha. simpl.
  replace (a <? List.length API_KEYS)%nat with true
    by (symmetry; apply Nat.ltb_lt; exact Ha).
  unfold AI.getClient.
  replace (List.length API_KEYS =? 0)%nat with false
    by (symmetry; apply Nat.eqb_neq; fold n; lia).
  reflexivity.
Qed.

Lemma performRequest_cases onLine cur :
  AI.performRequest (T := T) (E := E) API_KEYS onLine cur
  = Some (if negb onLine then AI.mkCall (AI.Thrown AI.Offline) []
          else if (n =? 0)%nat
               then AI.mkCall (AI.Thrown AI.NoKeysConfigured) []
               else AI.mkCall (AI.Awaiting cur 0) [cur],
          cur).
Proof.
  unfold AI.performRequest. fold n. destruct (negb onLine); [reflexivity|].
  destruct (n =? 0)%nat eqn:Hn; [reflexivity|].
  apply Nat.eqb_neq in Hn. rewrite attemptLoop_ready by lia. reflexivity.
Qed.

Lemma resume_cases init a cur sent (result : E + T) :
  AI.resume API_KEYS init a cur sent result
  = Some (match result with
          | inr v => (AI.mkCall (AI.Resolved v) sent, cur)
          | inl e =>
              if (S a <? n)%nat
              then (AI.mkCall (AI.Awaiting init (S a))
                              (sent ++ [AI.rotateKey API_KEYS cur]),
                    AI.rotateKey API_KEYS cur)
              else (AI.mkCall (AI.Thrown (AI.RequestError e)) sent, init)
          end).
Proof.
  unfold AI.resume. fold n. destruct result as [e|v]; [|reflexivity].
  destruct (S a <? n)%nat eqn:Ha; [|reflexivity].
  apply Nat.ltb_lt in Ha. now rewrite attemptLoop_ready.
Qed.

Lemma react_Begin (w : World) onLine :
  AI.react API_KEYS w (AI.Begin onLine)
  = Some (AI.mkWorld (AI.currentKeyIndex w)
            (AI.calls w
             ++ [if negb onLine then AI.mkCall (AI.Thrown AI.Offline) []
                 else if (n =? 0)%nat
                      then AI.mkCall (AI.Thrown AI.NoKeysConfigured) []
                      else AI.mkCall (AI.Awaiting (AI.currentKeyIndex w) 0)
                                     [AI.currentKeyIndex w]])).
Proof. unfold AI.react. now rewrite performRequest_cases. Qed.

Lemma react_Settle (w : World) k result init a sent :
  nth_error (AI.calls w) k = Some (AI.mkCall (AI.Awaiting init a) sent) ->
  AI.react API_KEYS w (AI.Settle k result)
  = Some (match result with
          | inr v =>
              AI.mkWorld (AI.currentKeyIndex w)
                (updateAt k (fun _ => AI.mkCall (AI.Resolved v) sent)
                          (AI.calls w))
          | inl e =>
              if (S a <? n)%nat
              then AI.mkWorld (AI.rotateKey API_KEYS (AI.currentKeyIndex w))
                     (updateAt k
                        (fun _ => AI.mkCall (AI.Awaiting init (S a))
                                    (sent ++ [AI.rotateKey API_KEYS
                                                (AI.currentKeyIndex w)]))
                        (AI.calls w))
              else AI.mkWorld init
                     (updateAt k
                        (fun _ => AI.mkCall (AI.Thrown (AI.RequestError e)) sent)
                        (AI.calls w))
          end).
Proof.
  intros Hk. unfold AI.react. rewrite Hk, resume_cases.
  destruct result as [e|v]; [|reflexivity].
  now destruct (S a <? n)%nat.
Qed.

Lemma react_Settle_enabled (w w' : World) k result :
  AI.react API_KEYS w (AI.Settle k result) = Some w' ->
  exists init a sent,
    nth_error (AI.calls w) k = Some (AI.mkCall (AI.Awaiting init a) sent).
Proof.
  unfold AI.react.
  destruct (nth_error (AI.calls w) k) as [[[init a|v|f] sent]|];
    try discriminate.
  intros _. now exists init, a, sent.
Qed.

(** ** What holds of every call, whatever the interleaving *)

Lemma react_sound (w w' : World) ev :
  AI.worldSound API_KEYS w -> AI.react API_KEYS w ev = Some w' ->
  AI.worldSound API_KEYS w'.
Proof.
  intros [Hi Hc] Hr. destruct ev as [onLine|k result].
  - rewrite react_Begin in Hr. inversion Hr; subst w'; clear Hr.
    split; [exact Hi|]. simpl. apply Forall_app. split; [exact Hc|].
    constructor; [|constructor].
    destruct (negb onLine); [now split|].
    destruct (n =? 0)%nat eqn:Hn.
    + apply Nat.eqb_eq in Hn. now split.
    + apply Nat.eqb_neq in Hn. fold n in Hi.
      split; simpl; [fold n; lia|].
      constructor; [fold n; lia|constructor].
  - destruct (react_Settle_enabled _ _ _ _ Hr) as (init & a & sent & Hk).
    rewrite (react_Settle w k result init a sent Hk) in Hr.
    assert (Hck : AI.callSound (T := T) (E := E) API_KEYS
                    (AI.mkCall (AI.Awaiting init a) sent)).
    { rewrite Forall_forall in Hc. apply Hc. eapply nth_error_In. exact Hk. }
    destruct Hck as [(Ha & Hlen & Hinit) Hsent]. simpl in Hlen, Hsent.
    fold n in Ha, Hinit, Hi.
    destruct result as [e|v]; [destruct (S a <? n)%nat eqn:Hlt|];
      inversion Hr; subst w'; clear Hr; (split; [simpl|simpl]).
    + intros _. apply rotateKey_valid. lia.
    + apply Forall_updateAt; [exact Hc|]. intros _ _.
      apply Nat.ltb_lt in Hlt. split; simpl.
      * fold n. rewrite length_app. simpl. lia.
      * apply Forall_app. split; [exact Hsent|].
        constructor; [apply rotateKey_valid; lia|constructor].
    + intros _. exact Hinit.
    + apply Forall_updateAt; [exact Hc|]. intros _ _.
      apply Nat.ltb_ge in Hlt. split; simpl; [fold n; lia|exact Hsent].
    + exact Hi.
    + apply Forall_updateAt; [exact Hc|]. intros _ _.
      split; simpl; [fold n; lia|exact Hsent].
Qed.

Lemma reacts_sound evs :
  forall w w' : World,
    AI.worldSound API_KEYS w -> AI.reacts API_KEYS evs w = Some w' ->
    AI.worldSound API_KEYS w'.
Proof.
  induction evs as [|ev evs IH]; intros w w' Hs Hr; simpl in Hr.
  - now inversion Hr; subst.
  - destruct (AI.react API_KEYS w ev) as [w1|] eqn:H1; [|discriminate].
    exact (IH w1 w' (react_sound w w1 ev Hs H1) Hr).
Qed.

Lemma loaded_sound : AI.worldSound API_KEYS (AI.loaded T E).
Proof. split; [simpl; lia|constructor]. Qed.

(** ** A call keeps its [initialKeyIndex]; a settled call stays as it is *)

Lemma react_keeps_settled (w w' : World) ev k (c : Call) :
  nth_error (AI.calls w) k = Some c -> AI.settled c = true ->
  AI.react API_KEYS w ev = Some w' ->
  nth_error (AI.calls w') k = Some c.
Proof.
  intros Hk Hs Hr. destruct ev as [onLine|j result].
  - rewrite react_Begin in Hr. inversion Hr; subst w'. simpl.
    rewrite nth_error_app1; [exact Hk|].
    apply nth_error_Some. congruence.
  - destruct (react_Settle_enabled _ _ _ _ Hr) as (init & a & sent & Hj).
    assert (Hne : k <> j)
      by (intros ->; rewrite Hj in Hk; inversion Hk; subst c; discriminate).
    rewrite (react_Settle w j result init a sent Hj) in Hr.
    destruct result as [e|v]; [destruct (S a <? n)%nat|];
      inversion Hr; subst w'; simpl;
      now rewrite nth_error_updateAt_other.
Qed.

Lemma react_keeps_call (w w' : World) ev k init a sent :
  nth_error (AI.calls w) k = Some (AI.mkCall (AI.Awaiting init a) sent) ->
  AI.react API_KEYS w ev = Some w' ->
  exists c' : Call,
    nth_error (AI.calls w') k = Some c'
    /\ (AI.settled c' = true
        \/ exists a' sent', c' = AI.mkCall (AI.Awaiting init a') sent').
Proof.
  intros Hk Hr. destruct ev as [onLine|j result].
  - rewrite react_Begin in Hr. inversion Hr; subst w'. simpl.
    eexists. split.
    + rewrite nth_error_app1; [exact Hk|]. apply nth_error_Some. congruence.
    + right. now exists a, sent.
  - destruct (react_Settle_enabled _ _ _ _ Hr) as (init' & a' & sent' & Hj).
    rewrite (react_Settle w j result init' a' sent' Hj) in Hr.
    destruct (Nat.eq_dec k j) as [->|Hne].
    + rewrite Hj in Hk. inversion Hk; subst init' a' sent'.
      destruct result as [e|v]; [destruct (S a <? n)%nat|];
        inversion Hr; subst w'; simpl;
        rewrite (nth_error_updateAt_const _ _ _ _ Hj);
        eexists; (split; [reflexivity|]).
      * right. now eexists _, _.
      * now left.
      * now left.
    + exists (AI.mkCall (AI.Awaiting init a) sent). split.
      * destruct result as [e|v]; [destruct (S a' <? n)%nat|];
          inversion Hr; subst w'; simpl;
          now rewrite nth_error_updateAt_other.
      * right. now exists a, sent.
Qed.

Lemma reacts_keeps_settled evs :
  forall (w w' : World) k (c : Call),
    nth_error (AI.calls w) k = Some c -> AI.settled c = true ->
    AI.reacts API_KEYS evs w = Some w' ->
    nth_error (AI.calls w') k = Some c.
Proof.
  induction evs as [|ev evs IH]; intros w w' k c Hk Hs Hr; simpl in Hr.
  - now inversion Hr; subst.
  - destruct (AI.react API_KEYS w ev) as [w1|] eqn:H1; [|discriminate].
    apply (IH w1 w' k c); [|exact Hs|exact Hr].
    exact (react_keeps_settled w w1 ev k c Hk Hs H1).
Qed.

Lemma reacts_keeps_call evs :
  forall (w w' : World) k init a sent,
    nth_error (AI.calls w) k = Some (AI.mkCall (AI.Awaiting init a) sent) ->
    AI.reacts API_KEYS evs w = Some w' ->
    exists c' : Call,
      nth_error (AI.calls w') k = Some c'
      /\ (AI.settled c' = true
          \/ exists a' sent', c' = AI.mkCall (AI.Awaiting init a') sent').
Proof.
  induction evs as [|ev evs IH]; intros w w' k init a sent Hk Hr; simpl in Hr.
  - inversion Hr; subst. eexists. split; [exact Hk|]. right. now eexists _, _.
  - destruct (AI.react API_KEYS w ev) as [w1|] eqn:H1; [|discriminate].
    destruct (react_keeps_call w w1 ev k init a sent Hk H1)
      as (c1 & Hk1 & [Hs|(a1 & sent1 & ->)]).
    + exists c1. split; [|now left].
      exact (reacts_keeps_settled evs w1 w' k c1 Hk1 Hs Hr).
    + exact (IH w1 w' k init a1 sent1 Hk1 Hr).
Qed.

(** When a call throws, [currentKeyIndex] is what it was when the call
    was made, whatever other calls did in between. *)
Lemma thrown_restores_index (w w1 w2 : World) onLine evs result f sent :
  AI.reacts API_KEYS (AI.Begin onLine :: evs) w = Some w1 ->
  AI.react API_KEYS w1 (AI.Settle (List.length (AI.calls w)) result) = Some w2 ->
  nth_error (AI.calls w2) (List.length (AI.calls w))
  = Some (AI.mkCall (AI.Thrown f) sent) ->
  AI.currentKeyIndex w2 = AI.currentKeyIndex w
  /\ exists e, result = inl e /\ f = AI.RequestError e.
Proof.
  intros Hr H2 Hf. cbn [AI.reacts] in Hr. rewrite react_Begin in Hr.
  set (k := List.length (AI.calls w)) in *.
  destruct (react_Settle_enabled _ _ _ _ H2) as (init & a & sent1 & Hk1).
  assert (Hinit : init = AI.currentKeyIndex w).
  { remember (if negb onLine then AI.mkCall (AI.Thrown AI.Offline) []
              else if (n =? 0)%nat
                   then AI.mkCall (AI.Thrown AI.NoKeysConfigured) []
                   else AI.mkCall (AI.Awaiting (AI.currentKeyIndex w) 0)
                                  [AI.currentKeyIndex w]) as c0 eqn:Ec0.
    set (w0 := AI.mkWorld (AI.currentKeyIndex w) (AI.calls w ++ [c0])) in Hr.
    assert (H0 : nth_error (AI.calls w0) k = Some c0)
      by apply nth_error_app_last.
    destruct (AI.settled c0) eqn:Hs.
    - rewrite (reacts_keeps_settled evs w0 w1 k c0 H0 Hs Hr) in Hk1.
      injection Hk1 as Hc. rewrite Hc in Hs. discriminate.
    - assert (Ec : c0 = AI.mkCall (AI.Awaiting (AI.currentKeyIndex w) 0)
                                  [AI.currentKeyIndex w]).
      { rewrite Ec0 in Hs |- *. destruct (negb onLine); [discriminate|].
        now destruct (n =? 0)%nat. }
      rewrite Ec in H0.
      destruct (reacts_keeps_call evs w0 w1 k _ _ _ H0 Hr)
        as (c' & Hk & [Hs'|(a' & sent' & ->)]);
        rewrite Hk in Hk1; inversion Hk1; subst; [discriminate|reflexivity]. }
  rewrite (react_Settle w1 k result init a sent1 Hk1) in H2.
  destruct result as [e|v]; [destruct (S a <? n)%nat|];
    inversion H2; subst w2; simpl in Hf;
    rewrite (nth_error_updateAt_const _ _ _ _ Hk1) in Hf;
    inversion Hf; subst.
  split; [reflexivity|]. now exists e.
Qed.

(** ** A call that runs while no other call does *)

Section Alone.
Variable request : nat -> AI.Client -> E + T.

Lemma settleAlone_settled fuel k (w : World) (c : Call) :
  nth_error (AI.calls w) k = Some c -> AI.settled c = true ->
  AI.settleAlone API_KEYS request (S fuel) k w = Some w.
Proof.
  intros Hk Hs. cbn [AI.settleAlone]. rewrite Hk.
  destruct c as [[init a|v|f] sent]; [discriminate|reflexivity|reflexivity].
Qed.

(** What the rest of a call does, taken up after [a] failed attempts
    with [S m] credentials still to try. *)
Lemma settleAlone_settles m :
  forall a (w : World) k init sent0 fuel,
    (n - a = S m)%nat -> (S (S m) <= fuel)%nat ->
    nth_error (AI.calls w) k
    = Some (AI.mkCall (AI.Awaiting init a) (sent0 ++ [AI.currentKeyIndex w])) ->
    exists (w' : World) j st,
      AI.settleAlone API_KEYS request fuel k w = Some w'
      /\ (1 <= j <= S m)%nat
      /\ AI.calls w'
         = updateAt k
             (fun _ => AI.mkCall st
                         (sent0 ++ map (fun t => rotations t (AI.currentKeyIndex w))
                                       (seq 0 j)))
             (AI.calls w)
      /\ (forall t, (t < j - 1)%nat ->
            exists e, request (a + t)%nat (clientAt (AI.currentKeyIndex w) t)
                      = inl e)
      /\ ((exists v, st = AI.Resolved v
                     /\ request (a + (j - 1))%nat
                                (clientAt (AI.currentKeyIndex w) (j - 1)) = inr v
                     /\ AI.currentKeyIndex w'
                        = rotations (j - 1) (AI.currentKeyIndex w))
          \/ (exists e, st = AI.Thrown (AI.RequestError e)
                        /\ j = S m
                        /\ request (a + (j - 1))%nat
                                   (clientAt (AI.currentKeyIndex w) (j - 1)) = inl e
                        /\ AI.currentKeyIndex w' = init)).
Proof.
  induction m as [|m IH]; intros a w k init sent0 fuel Hrem Hfuel Hk;
    (destruct fuel as [|fuel]; [lia|]);
    cbn [AI.settleAlone]; rewrite Hk; rewrite last_last;
    rewrite (react_Settle w k _ init a _ Hk);
    destruct (request a (nth_error API_KEYS (AI.currentKeyIndex w)))
      as [e|v] eqn:Hreq.
  - (* last credential, rejected *)
    replace (S a <? n)%nat with false by (symmetry; apply Nat.ltb_ge; lia).
    destruct fuel as [|fuel]; [lia|].
    erewrite settleAlone_settled;
      [|simpl; exact (nth_error_updateAt_const _ _ _ _ Hk)|reflexivity].
    eexists _, 1%nat, _. split; [reflexivity|]. split; [lia|].
    split; [reflexivity|]. split; [intros t Ht; lia|].
    right. exists e. simpl. rewrite Nat.add_0_r. now repeat split.
  - (* last credential, resolved *)
    destruct fuel as [|fuel]; [lia|].
    erewrite settleAlone_settled;
      [|simpl; exact (nth_error_updateAt_const _ _ _ _ Hk)|reflexivity].
    eexists _, 1%nat, _. split; [reflexivity|]. split; [lia|].
    split; [reflexivity|]. split; [intros t Ht; lia|].
    left. exists v. simpl. rewrite Nat.add_0_r. now repeat split.
  - (* rejected, credentials left: rotate and go on *)
    replace (S a <? n)%nat with true by (symmetry; apply Nat.ltb_lt; lia).
    set (i := AI.currentKeyIndex w) in *.
    set (w1 := AI.mkWorld (AI.rotateKey API_KEYS i)
                 (updateAt k
                    (fun _ => AI.mkCall (AI.Awaiting init (S a))
                                ((sent0 ++ [i]) ++ [AI.rotateKey API_KEYS i]))
                    (AI.calls w))).
    destruct (IH (S a) w1 k init (sent0 ++ [i]) fuel)
      as (w' & j & st & Hrun & Hj & Hcalls & Hfail & Hend); [lia|lia| |].
    { simpl. exact (nth_error_updateAt_const _ _ _ _ Hk). }
    simpl AI.currentKeyIndex in Hcalls, Hfail, Hend.
    simpl AI.calls in Hcalls. rewrite updateAt_updateAt in Hcalls.
    assert (Hcl : forall t, clientAt (AI.rotateKey API_KEYS i) t
                            = clientAt i (S t))
      by (intros t; unfold clientAt, AI.clientAt; fold rotations;
          now rewrite rotations_shift).
    exists w', (S j), st. split; [exact Hrun|]. split; [lia|].
    split; [|split].
    + rewrite Hcalls. f_equal. rewrite <- app_assoc, map_rotations_shift.
      reflexivity.
    + intros t Ht. destruct t as [|t].
      * exists e. now rewrite Nat.add_0_r.
      * destruct (Hfail t) as [e' He']; [lia|]. exists e'.
        rewrite Hcl in He'. now replace (a + S t)%nat with (S a + t)%nat by lia.
    + replace (S j - 1)%nat with (S (j - 1)) by lia.
      replace (a + S (j - 1))%nat with (S a + (j - 1))%nat by lia.
      rewrite <- Hcl, <- rotations_shift.
      destruct Hend as [(v & Hst & Hr & Hi)|(e' & Hst & Hjm & Hr & Hi)].
      * left. exists v. now repeat split.
      * right. exists e'. repeat split; try assumption. lia.
  - (* resolved *)
    destruct fuel as [|fuel]; [lia|].
    erewrite settleAlone_settled;
      [|simpl; exact (nth_error_updateAt_const _ _ _ _ Hk)|reflexivity].
    eexists _, 1%nat, _. split; [reflexivity|]. split; [lia|].
    split; [reflexivity|]. split; [intros t Ht; lia|].
    left. exists v. simpl. rewrite Nat.add_0_r. now repeat split.
Qed.

(** A call that throws at once. *)
Lemma performRequestAlone_at_once (w : World) onLine :
  negb onLine = true \/ n = 0%nat ->
  AI.performRequestAlone API_KEYS request onLine w
  = Some (AI.mkWorld (AI.currentKeyIndex w)
            (AI.calls w
             ++ [AI.mkCall (AI.Thrown (if negb onLine then AI.Offline
                                       else AI.NoKeysConfigured)) []])).
Proof.
  intros H. unfold AI.performRequestAlone. rewrite react_Begin.
  destruct (negb onLine) eqn:Hon.
  - apply (settleAlone_settled _ _ _ (AI.mkCall (AI.Thrown AI.Offline) []));
      [apply nth_error_app_last|reflexivity].
  - destruct H as [H|H]; [discriminate|]. rewrite H. simpl Nat.eqb. cbv iota.
    apply (settleAlone_settled _ _ _
             (AI.mkCall (AI.Thrown AI.NoKeysConfigured) []));
      [apply nth_error_app_last|reflexivity].
Qed.

(** One online call from a valid index, in the terms of the key list. *)
Lemma performRequestAlone_online (w : World) :
  let i := AI.currentKeyIndex w in
  (i < n)%nat ->
  exists (w' : World) k st,
    AI.performRequestAlone API_KEYS request true w = Some w'
    /\ (1 <= k <= n)%nat
    /\ AI.calls w'
       = AI.calls w
         ++ [AI.mkCall st (map (fun j => ((i + j) mod n)%nat) (seq 0 k))]
    /\ (forall j, (j < k - 1)%nat ->
          exists e,
            request j (nth_error API_KEYS ((i + j) mod n)%nat) = inl e)
    /\ ((exists v, st = AI.Resolved v
                   /\ request (k - 1)%nat
                        (nth_error API_KEYS ((i + (k - 1)) mod n)%nat) = inr v
                   /\ AI.currentKeyIndex w' = ((i + (k - 1)) mod n)%nat)
        \/ (exists e, st = AI.Thrown (AI.RequestError e)
                      /\ k = n
                      /\ request (k - 1)%nat
                           (nth_error API_KEYS ((i + (k - 1)) mod n)%nat) = inl e
                      /\ AI.currentKeyIndex w' = i)).
Proof.
  cbv zeta. intros Hi. unfold AI.performRequestAlone. rewrite react_Begin.
  simpl negb. cbv iota.
  replace (n =? 0)%nat with false by (symmetry; apply Nat.eqb_neq; lia).
  set (i := AI.currentKeyIndex w) in *.
  set (w0 := AI.mkWorld i (AI.calls w ++ [AI.mkCall (AI.Awaiting i 0) [i]])).
  destruct (settleAlone_settles (n - 1) 0 w0 (List.length (AI.calls w)) i []
              (S n))
    as (w' & k & st & Hrun & Hk & Hcalls & Hfail & Hend); [lia|lia| |].
  { simpl. apply nth_error_app_last. }
  simpl AI.currentKeyIndex in Hcalls, Hfail, Hend.
  simpl AI.calls in Hcalls. rewrite updateAt_app_last in Hcalls.
  assert (Hrot : forall j, rotations j i = ((i + j) mod n)%nat)
    by (intros j; now apply rotations_mod).
  assert (Hcl : forall j, clientAt i j
                          = nth_error API_KEYS ((i + j) mod n)%nat)
    by (intros j; unfold clientAt, AI.clientAt; fold rotations;
        now rewrite Hrot).
  simpl app in Hcalls. rewrite (map_ext _ _ Hrot) in Hcalls.
  fold n. exists w', k, st. split; [exact Hrun|]. split; [lia|].
  split; [exact Hcalls|]. split.
  - intros j Hj. destruct (Hfail j Hj) as [e He]. exists e.
    now rewrite Hcl in He.
  - simpl plus in Hend. rewrite Hcl, Hrot in Hend.
    destruct Hend as [(v & Hst & Hr & Hidx)|(e & Hst & Hkm & Hr & Hidx)].
    + left. exists v. now repeat split.
    + right. exists e. repeat split; try assumption. lia.
Qed.
End Alone.

(** One call that runs alone, from any index, in the terms of the
    rotation. *)
Lemma performRequestAlone_runs (request : nat -> AI.Client -> E + T)
  (w : World) :
  (0 < n)%nat ->
  let i := AI.currentKeyIndex w in
  exists (w' : World) k st,
    AI.performRequestAlone API_KEYS request true w = Some w'
    /\ (1 <= k <= n)%nat
    /\ AI.calls w'
       = AI.calls w ++ [AI.mkCall st (map (fun j => rotations j i) (seq 0 k))]
    /\ ((exists v, st = AI.Resolved v
                   /\ AI.currentKeyIndex w' = rotations (k - 1) i)
        \/ (exists e, st = AI.Thrown (AI.RequestError e)
                      /\ AI.currentKeyIndex w' = i)).
Proof.
  cbv zeta. intros Hn. unfold AI.performRequestAlone. rewrite react_Begin.
  simpl negb. cbv iota.
  replace (n =? 0)%nat with false by (symmetry; apply Nat.eqb_neq; lia).
  set (i := AI.currentKeyIndex w) in *.
  set (w0 := AI.mkWorld i (AI.calls w ++ [AI.mkCall (AI.Awaiting i 0) [i]])).
  destruct (settleAlone_settles request (n - 1) 0 w0
              (List.length (AI.calls w)) i [] (S n))
    as (w' & k & st & Hrun & Hk & Hcalls & _ & Hend); [lia|lia| |].
  { simpl. apply nth_error_app_last. }
  simpl AI.currentKeyIndex in Hcalls, Hend.
  simpl AI.calls in Hcalls. rewrite updateAt_app_last in Hcalls.
  fold n. exists w', k, st. split; [exact Hrun|]. split; [lia|].
  split; [exact Hcalls|].
  destruct Hend as [(v & Hst & _ & Hidx)|(e & Hst & _ & _ & Hidx)].
  - left. exists v. now split.
  - right. exists e. now split.
Qed.


(** C10 (as the code has it). Whatever calls overlap: a call that throws
    when one of its requests is rejected finds [currentKeyIndex] put back
    to what it was when the call was made, and a call never changes the
    index before its first request settles (so a call that throws at
    once, offline or without keys, leaves it alone).  A call that runs
    while no other call does settles; if it throws, the index is what it
    was before the call; if it resolves, the index is the one of the
    request that resolved; so the index differs afterwards only if the
    call resolved after at least one rotation. *)
Theorem performRequest_restores_index (request : nat -> AI.Client -> E + T) :
  (forall (w w1 w2 : World) onLine evs result f sent,
      AI.reacts API_KEYS (AI.Begin onLine :: evs) w = Some w1 ->
      AI.react API_KEYS w1 (AI.Settle (List.length (AI.calls w)) result)
      = Some w2 ->
      nth_error (AI.calls w2) (List.length (AI.calls w))
      = Some (AI.mkCall (AI.Thrown f) sent) ->
      AI.currentKeyIndex w2 = AI.currentKeyIndex w)
  /\ (forall (w : World) onLine,
        exists w' : World,
          AI.react API_KEYS w (AI.Begin onLine) = Some w'
          /\ AI.currentKeyIndex w' = AI.currentKeyIndex w)
  /\ (forall (w : World) onLine,
        exists (w' : World) st sent,
          AI.performRequestAlone API_KEYS request onLine w = Some w'
          /\ AI.calls w' = AI.calls w ++ [AI.mkCall st sent]
          /\ AI.settled (AI.mkCall st sent) = true
          /\ (forall f, st = AI.Thrown f ->
                AI.currentKeyIndex w' = AI.currentKeyIndex w)
          /\ (forall v, st = AI.Resolved v ->
                AI.currentKeyIndex w'
                = AI.rotations API_KEYS (List.length sent - 1)
                               (AI.currentKeyIndex w))
          /\ (AI.currentKeyIndex w' <> AI.currentKeyIndex w ->
                (exists v, st = AI.Resolved v)
                /\ (2 <= List.length sent)%nat)).
Proof.
  split; [|split].
  - intros w w1 w2 onLine evs result f sent Hr H2 Hf.
    apply (thrown_restores_index w w1 w2 onLine evs result f sent Hr H2 Hf).
  - intros w onLine. eexists. split; [apply react_Begin|reflexivity].
  - intros w onLine.
    destruct (negb onLine) eqn:Hon; [|destruct (Nat.eq_dec n 0) as [Hn|Hn]].
    + eexists _, _, _.
      split; [apply performRequestAlone_at_once; now left|].
      rewrite Hon. simpl. split; [reflexivity|]. split; [reflexivity|].
      repeat split; try discriminate; congruence.
    + eexists _, _, _.
      split; [apply performRequestAlone_at_once; now right|].
      rewrite Hon. simpl. split; [reflexivity|]. split; [reflexivity|].
      repeat split; try discriminate; congruence.
    + apply negb_false_iff in Hon. subst onLine.
      destruct (performRequestAlone_runs request w)
        as (w' & k & st & Hrun & Hk & Hcalls & Hend); [lia|].
      eexists w', st, _. split; [exact Hrun|]. split; [exact Hcalls|].
      rewrite length_map, length_seq. fold rotations.
      destruct Hend as [(v & -> & Hidx)|(e & -> & Hidx)].
      * split; [reflexivity|]. split; [discriminate|].
        split; [intros v' _; exact Hidx|].
        intros Hne. split; [now exists v|].
        destruct (Nat.eq_dec k 1) as [->|]; [|lia].
        now elim Hne.
      * split; [reflexivity|]. split; [intros _ _; exact Hidx|].
        split; [discriminate|]. intros Hne. now elim Hne.
Qed.

(** Without credentials an online call throws its own error at once and
    sends nothing. *)
Lemma performRequest_no_keys (w : World) :
  List.length API_KEYS = 0%nat ->
  AI.react API_KEYS w (AI.Begin true)
  = Some (AI.mkWorld (AI.currentKeyIndex w)
            (AI.calls w ++ [AI.mkCall (AI.Thrown AI.NoKeysConfigured) []])).
Proof. intros H. rewrite react_Begin. fold n in H. now rewrite H. Qed.
End AIProofs.

(** * Properties of the window manager *)

Import WM.

(** ** Records and arrays *)

Lemma setWindows_same s : setWindows (windows s) s = s.
Proof. now destruct s. Qed.

Lemma withZIndex_same w : withZIndex (zIndex w) w = w.
Proof. now destruct w. Qed.

Lemma includes_single i j : includes [i] j = String.eqb j i.
Proof. unfold includes. simpl. apply orb_false_r. Qed.

Lemma includes_true p i : includes p i = true <-> In i p.
Proof.
  unfold includes. rewrite existsb_exists. split.
  - intros (j & Hj & E). apply String.eqb_eq in E. now subst.
  - intros H. exists i. split; [exact H|apply String.eqb_refl].
Qed.

Lemma includes_false p i : includes p i = false <-> ~ In i p.
Proof.
  rewrite <- includes_true. destruct (includes p i); split; congruence.
Qed.

Lemma map_fixes {A} (f : A -> A) l :
  (forall a, In a l -> f a = a) -> map f l = l.
Proof.
  intros H. rewrite <- (map_id l) at 2. now apply map_ext_in.
Qed.

Lemma filter_keeps {A} (f : A -> bool) l :
  (forall a, In a l -> f a = true) -> filter f l = l.
Proof.
  induction l as [|a l IH]; intros H; simpl; [reflexivity|].
  rewrite (H a (or_introl eq_refl)). f_equal. apply IH.
  intros b Hb. apply H. now right.
Qed.

Lemma filter_drops {A} (f : A -> bool) l :
  (forall a, In a l -> f a = false) -> filter f l = [].
Proof.
  induction l as [|a l IH]; intros H; simpl; [reflexivity|].
  rewrite (H a (or_introl eq_refl)). apply IH. intros b Hb. apply H. now right.
Qed.

Lemma findWindow_absent i ws :
  findWindow i ws = None -> forall w, In w ws -> String.eqb (id w) i = false.
Proof. intros H w Hw. exact (find_none _ _ H w Hw). Qed.

Lemma findPair_absent i ps :
  findPair i ps = None -> forall p, In p ps -> includes p i = false.
Proof. intros H p Hp. exact (find_none _ _ H p Hp). Qed.

Lemma findIndex_findPair_none i ps :
  findPair i ps = None -> findIndex (fun p => includes p i) ps = None.
Proof.
  unfold findPair. induction ps as [|p ps IH]; simpl; [reflexivity|].
  destruct (includes p i); [discriminate|]. intros H. now rewrite IH.
Qed.

Lemma nth_error_map_some {A B} (f : A -> B) l k a :
  nth_error l k = Some a -> nth_error (map f l) k = Some (f a).
Proof. intros H. now rewrite nth_error_map, H. Qed.

(** ** Ids that are not in the registry *)

Lemma fullScreenIdAfter_absent i ws fs :
  findWindow i ws = None -> fullScreenIdAfter i ws fs = fs.
Proof.
  unfold fullScreenIdAfter, findWindow. revert fs.
  induction ws as [|w ws IH]; intros fs; simpl; [reflexivity|].
  destruct (String.eqb (id w) i); [discriminate|]. apply IH.
Qed.

Lemma focusWindows_absent snap i ws :
  findWindow i ws = None -> focusWindows snap i ws = ws.
Proof.
  intros H. apply map_fixes. intros w Hw.
  now rewrite (findWindow_absent _ _ H w Hw).
Qed.

Lemma fullScreenMap_absent i ws :
  findWindow i ws = None -> map (fullScreenMap i) ws = ws.
Proof.
  intros H. apply map_fixes. intros w Hw. unfold fullScreenMap.
  now rewrite (findWindow_absent _ _ H w Hw).
Qed.

Lemma maximizeMap_absent i ws :
  findWindow i ws = None -> map (maximizeMap i) ws = ws.
Proof.
  intros H. apply map_fixes. intros w Hw. unfold maximizeMap.
  now rewrite (findWindow_absent _ _ H w Hw).
Qed.

Lemma focusWindow_absent s i :
  findWindow i (windows s) = None ->
  windows (focusWindow i s) = windows s
  /\ fullScreenWindowId (focusWindow i s) = fullScreenWindowId s
  /\ windowPairs (focusWindow i s) = windowPairs s
  /\ (focusSkips s i = true -> focusWindow i s = s)
  /\ (focusSkips s i = false ->
      activeWindowId (focusWindow i s) = Some i
      /\ nextZIndex (focusWindow i s) = nextZIndex s + 1
      /\ pairingWindowId (focusWindow i s) = None).
Proof.
  intros H. unfold focusWindow, focusWindowIn.
  destruct (focusSkips s i); simpl.
  - repeat split; congruence.
  - rewrite (focusWindows_absent _ _ _ H). repeat split; congruence.
Qed.

(** C2 (as the code has it). For an id that is not in the registry:
    [updateWindowPosition] and [updateWindowSize] leave the whole state
    as it is; so does [toggleMinimize] (whenever its updater runs) when
    the id is in no pair, and [closeWindow] when the id is in no pair and is neither the fullscreen
    id nor the active id (the empty string counts as the active id while
    no window is active).  [toggleMaximize] and [toggleFullScreen] do what
    [focusWindow] does: the window list, the fullscreen id and the pair
    set stay, but unless the id is already active with the launcher
    closed, the absent id becomes the active id, the z counter advances
    and a pending pairing is cancelled.  [startPairing] and
    [completePairing] leave windows, active id, fullscreen id and z
    counter alone (they work on the pair set and the pending source
    without looking at the registry). *)
Theorem absent_id_effects (s : State) (i : string)
  (Habs : findWindow i (windows s) = None) :
  (forall nx ny, updateWindowPosition i nx ny s = s)
  /\ (forall nw nh, updateWindowSize i nw nh s = s)
  /\ (findPair i (windowPairs s) = None ->
      forall eager, toggleMinimize eager i s = s)
  /\ (findPair i (windowPairs s) = None ->
      eqNullable (fullScreenWindowId s) i = false ->
      String.eqb (orEmpty (activeWindowId s)) i = false ->
      closeWindow i s = s)
  /\ toggleMaximize i s = focusWindow i s
  /\ toggleFullScreen i s = focusWindow i s
  /\ (windows (focusWindow i s) = windows s
      /\ fullScreenWindowId (focusWindow i s) = fullScreenWindowId s
      /\ windowPairs (focusWindow i s) = windowPairs s
      /\ (focusSkips s i = true -> focusWindow i s = s)
      /\ (focusSkips s i = false ->
          activeWindowId (focusWindow i s) = Some i
          /\ nextZIndex (focusWindow i s) = nextZIndex s + 1
          /\ pairingWindowId (focusWindow i s) = None))
  /\ (forall op, In op [startPairing i; completePairing i] ->
        windows (op s) = windows s
        /\ activeWindowId (op s) = activeWindowId s
        /\ fullScreenWindowId (op s) = fullScreenWindowId s
        /\ nextZIndex (op s) = nextZIndex s).
Proof.
  repeat match goal with |- _ /\ _ => split end.
  - intros nx ny. unfold updateWindowPosition. now rewrite Habs.
  - intros nw nh. unfold updateWindowSize.
    rewrite map_fixes; [apply setWindows_same|].
    intros w Hw. now rewrite (findWindow_absent _ _ Habs w Hw).
  - intros Hp eager.
    unfold toggleMinimize, toggleMinimizeIn, promoteRemaining, groupOf.
    rewrite Hp, Habs.
    destruct eager; simpl; rewrite Habs; simpl; apply setWindows_same.
  - intros Hp Hfs Hact. unfold closeWindow, groupOf. rewrite Hp.
    rewrite includes_single, Hact. simpl. rewrite Hfs. simpl.
    rewrite !filter_keeps.
    + now destruct s.
    + intros w Hw. now rewrite (findWindow_absent _ _ Habs w Hw).
    + intros p Hin. simpl in Hin.
      now rewrite (findPair_absent _ _ Hp p Hin).
  - unfold toggleMaximize, focusWindow.
    now rewrite (maximizeMap_absent _ _ Habs), setWindows_same.
  - unfold toggleFullScreen, focusWindow.
    rewrite (fullScreenMap_absent _ _ Habs), (fullScreenIdAfter_absent _ _ _ Habs).
    now destruct s.
  - apply (focusWindow_absent s i Habs).
  - apply (focusWindow_absent s i Habs).
  - apply (focusWindow_absent s i Habs).
  - apply (focusWindow_absent s i Habs).
  - apply (focusWindow_absent s i Habs).
  - intros op [<-|[<-|[]]].
    + unfold startPairing.
      destruct (findIndex _ _); simpl; repeat split.
    + unfold completePairing. destruct (pairingWindowId s) as [src|]; simpl;
        [|repeat split].
      destruct (negb (String.eqb src "") && negb (String.eqb src i));
        [|simpl; repeat split].
      destruct (findIndex _ _); simpl; repeat split.
Qed.

Lemma absent_id_effects_witness :
  findWindow "win-7" (windows (run threeWindows initialState)) = None
  /\ toggleMinimize false "win-7" (run threeWindows initialState)
     = run threeWindows initialState
  /\ activeWindowId (focusWindow "win-7" (run threeWindows initialState))
     = Some "win-7".
Proof.
  assert (Habs : findWindow "win-7" (windows (run threeWindows initialState))
                 = None) by (vm_compute; reflexivity).
  destruct (absent_id_effects (run threeWindows initialState) "win-7" Habs)
    as (_ & _ & Hmin & _ & _ & _ & (_ & _ & _ & _ & Hfocus) & _).
  split; [exact Habs|]. split.
  - apply Hmin. vm_compute; reflexivity.
  - apply Hfocus. vm_compute; reflexivity.
Defined.

(** C2 fails as stated: on a registry without [win-7], [focusWindow]
    makes [win-7] the active window, and [completePairing] records a pair
    with it. *)
Lemma absent_id_not_noop :
  reachable initialState
  /\ findWindow "win-7" (windows initialState) = None
  /\ activeWindowId (focusWindow "win-7" initialState) = Some "win-7"
  /\ focusWindow "win-7" initialState <> initialState
  /\ (let s := run (threeWindows ++ [StartPairing "win-0"]) initialState in
      reachable s
      /\ findWindow "win-7" (windows s) = None
      /\ windowPairs s = []
      /\ windowPairs (completePairing "win-7" s) = [["win-0"; "win-7"]]).
Proof.
  split; [now exists []|]. split; [reflexivity|]. split; [reflexivity|].
  split; [discriminate|]. cbv zeta.
  split; [now eexists|]. now vm_compute.
Qed.

(** ** Moving a pairing group *)

Lemma findPair_only_pair a p ps :
  In p ps -> In a p ->
  (forall q, In q ps -> In a q -> q = p) ->
  findPair a ps = Some p.
Proof.
  intros Hp Ha Honly. unfold findPair.
  destruct (find (fun q => includes q a) ps) as [q|] eqn:F.
  - apply find_some in F as [Hq Hin]. apply includes_true in Hin.
    f_equal. now apply Honly.
  - apply (find_none _ _ F) in Hp. apply includes_false in Hp. contradiction.
Qed.

(** C5 (as the code has it). Let [a] be the id of a window and [mover]
    the window [updateWindowPosition] finds for it.  The group that moves
    is the first pair of the pair list that contains [a] (the pair of
    [a], when [a] is in a single pair), or [a] alone when no pair
    contains it.  Every window whose id is in the group gets
    [x + (newX - mover.x)] and [y + (newY - mover.y)] and is otherwise
    untouched, every other window is untouched, and no other part of the
    state changes. *)
Theorem updateWindowPosition_moves_group
  (s : State) (a : string) (newX newY : Q) (mover : WindowInstance)
  (Hmover : findWindow a (windows s) = Some mover) :
  let s' := updateWindowPosition a newX newY s in
  let dx := (newX - x mover)%Q in
  let dy := (newY - y mover)%Q in
  let moved w := withGeometry (x w + dx)%Q (y w + dy)%Q (width w) (height w) w in
  setWindows (windows s) s' = s
  /\ List.length (windows s') = List.length (windows s)
  /\ (forall p, findPair a (windowPairs s) = Some p ->
      forall k w, nth_error (windows s) k = Some w ->
        (In (id w) p -> nth_error (windows s') k = Some (moved w))
        /\ (~ In (id w) p -> nth_error (windows s') k = Some w))
  /\ (findPair a (windowPairs s) = None ->
      forall k w, nth_error (windows s) k = Some w ->
        (id w = a -> nth_error (windows s') k = Some (moved w))
        /\ (id w <> a -> nth_error (windows s') k = Some w))
  /\ (forall p, In p (windowPairs s) -> In a p ->
        (forall q, In q (windowPairs s) -> In a q -> q = p) ->
        findPair a (windowPairs s) = Some p).
Proof.
  cbv zeta. unfold updateWindowPosition. rewrite Hmover. simpl.
  split; [now destruct s|]. split; [apply length_map|].
  split; [|split].
  - intros p Hp k w Hk. unfold groupOf. rewrite Hp.
    split; intros Hin.
    + erewrite nth_error_map_some by exact Hk.
      apply includes_true in Hin. now rewrite Hin.
    + erewrite nth_error_map_some by exact Hk.
      apply includes_false in Hin. now rewrite Hin.
  - intros Hp k w Hk. unfold groupOf. rewrite Hp.
    split; intros Hin; erewrite nth_error_map_some by exact Hk;
      rewrite includes_single.
    + apply String.eqb_eq in Hin. now rewrite Hin.
    + apply String.eqb_neq in Hin. now rewrite Hin.
  - intros p Hp Ha Honly. now apply findPair_only_pair.
Qed.

Lemma updateWindowPosition_moves_group_witness :
  let s := run (threeWindows ++ [StartPairing "win-0"; CompletePairing "win-2"])
               initialState in
  findWindow "win-0" (windows s)
  = Some (newWindowFor 1024 768 notes None initialState)
  /\ findPair "win-0" (windowPairs s) = Some ["win-0"; "win-2"]
  /\ map (fun w => (id w, Qred (x w), Qred (y w)))
         (windows (updateWindowPosition "win-0" 10 50 s))
     = [("win-0", 10%Q, 50%Q); ("win-1", 337%Q, 219%Q);
        ("win-2", 220%Q, 220%Q)].
Proof.
  cbv zeta.
  assert (Hm : findWindow "win-0"
                 (windows (run (threeWindows
                                ++ [StartPairing "win-0"; CompletePairing "win-2"])
                               initialState))
               = Some (newWindowFor 1024 768 notes None initialState))
    by (vm_compute; reflexivity).
  split; [exact Hm|].
  destruct (updateWindowPosition_moves_group _ "win-0" 10 50 _ Hm)
    as (_ & _ & _ & _ & Honly).
  assert (Hp : findPair "win-0"
                 (windowPairs (run (threeWindows
                                ++ [StartPairing "win-0"; CompletePairing "win-2"])
                               initialState))
               = Some ["win-0"; "win-2"]).
  { apply Honly.
    - vm_compute. now left.
    - now left.
    - vm_compute. intros q [<-|[]] _. reflexivity. }
  split; [exact Hp|].
  now vm_compute.
Defined.

(** C5 fails as stated: [win-0] is in the pairs [win-0, win-2] and
    [win-1, win-0]; moving [win-0] moves [win-2] with it, but [win-1],
    the other member of the second pair, stays where it is. *)
Lemma updateWindowPosition_skips_second_pair :
  let s := run (threeWindows ++ overlappingPairs) initialState in
  let s' := updateWindowPosition "win-0" 10 50 s in
  reachable s
  /\ In ["win-1"; "win-0"] (windowPairs s)
  /\ map (fun w => (id w, Qred (x w), Qred (y w))) (windows s)
     = [("win-0", 152%Q, 74%Q); ("win-1", 337%Q, 219%Q);
        ("win-2", 362%Q, 244%Q)]
  /\ map (fun w => (id w, Qred (x w), Qred (y w))) (windows s')
     = [("win-0", 10%Q, 50%Q); ("win-1", 337%Q, 219%Q);
        ("win-2", 220%Q, 220%Q)].
Proof.
  cbv zeta. split; [now eexists|]. split; [right; now left|].
  split; now vm_compute.
Qed.

(** ** Fullscreen and maximize round trips *)

(** [focusWindow] changes nothing of a window but its [zIndex]. *)
Lemma focusWindowIn_windows snap i cur :
  exists zf,
    windows (focusWindowIn snap i cur)
    = map (fun w => withZIndex (zf w) w) (windows cur).
Proof.
  unfold focusWindowIn. destruct (focusSkips snap i).
  - exists zIndex. symmetry. apply map_fixes. intros w _.
    apply withZIndex_same.
  - exists (fun w => if String.eqb (id w) i then nextZIndex snap else zIndex w).
    simpl. unfold focusWindows. apply map_ext. intros w.
    destruct (String.eqb (id w) i); [reflexivity|].
    symmetry. apply withZIndex_same.
Qed.

Lemma toggleFullScreen_window s i k w :
  nth_error (windows s) k = Some w ->
  exists z,
    nth_error (windows (toggleFullScreen i s)) k
    = Some (withZIndex z (fullScreenMap i w)).
Proof.
  intros Hk. unfold toggleFullScreen.
  destruct (focusWindowIn_windows s i
              (setFullScreenWindowId
                 (fullScreenIdAfter i (windows s) (fullScreenWindowId s))
                 (setWindows (map (fullScreenMap i) (windows s)) s)))
    as [zf Hzf].
  rewrite Hzf. simpl. exists (zf (fullScreenMap i w)).
  now rewrite map_map, nth_error_map, Hk.
Qed.

Lemma toggleMaximize_window s i k w :
  nth_error (windows s) k = Some w ->
  exists z,
    nth_error (windows (toggleMaximize i s)) k
    = Some (withZIndex z (maximizeMap i w)).
Proof.
  intros Hk. unfold toggleMaximize.
  destruct (focusWindowIn_windows s i
              (setWindows (map (maximizeMap i) (windows s)) s))
    as [zf Hzf].
  rewrite Hzf. simpl. exists (zf (maximizeMap i w)).
  now rewrite map_map, nth_error_map, Hk.
Qed.

(** C7 (as the code has it). Take a window that is not fullscreen and
    toggle fullscreen twice.  Entering sets the flag and keeps the old
    snapshot if the window is maximized, or takes a fresh one of the
    current bounds if it is not; leaving clears the flag and puts the
    window on the bounds of that snapshot.  So a window that was not
    maximized is back on its exact pre-fullscreen bounds; a maximized one
    is on the bounds of its maximize snapshot, which are its
    pre-fullscreen bounds when the snapshot still equals them (or is
    missing). *)
Theorem toggleFullScreen_twice
  (s : State) (i : string) (k : nat) (w : WindowInstance)
  (Hk : nth_error (windows s) k = Some w)
  (Hid : id w = i)
  (Hnf : isFullScreen w = false) :
  exists w1 w2,
    nth_error (windows (toggleFullScreen i s)) k = Some w1
    /\ isFullScreen w1 = true
    /\ boundsOf w1 = boundsOf w
    /\ preMaximizedState w1
       = (if isMaximized w then preMaximizedState w else Some (boundsOf w))
    /\ nth_error (windows (toggleFullScreen i (toggleFullScreen i s))) k
       = Some w2
    /\ isFullScreen w2 = false
    /\ isMaximized w2 = isMaximized w
    /\ preMaximizedState w2 = preMaximizedState w1
    /\ boundsOf w2
       = match preMaximizedState w1 with
         | Some b => b
         | None => boundsOf w
         end
    /\ (isMaximized w = false -> boundsOf w2 = boundsOf w)
    /\ (isMaximized w = true ->
        preMaximizedState w = Some (boundsOf w) \/ preMaximizedState w = None ->
        boundsOf w2 = boundsOf w).
Proof.
  destruct (toggleFullScreen_window s i k w Hk) as [z1 H1].
  destruct (toggleFullScreen_window (toggleFullScreen i s) i k _ H1)
    as [z2 H2].
  exists (withZIndex z1 (fullScreenMap i w)).
  exists (withZIndex z2 (fullScreenMap i (withZIndex z1 (fullScreenMap i w)))).
  split; [exact H1|].
  assert (E : String.eqb (id w) i = true) by now apply String.eqb_eq.
  unfold fullScreenMap at 1 2 3 4 6. rewrite E, Hnf. simpl.
  split; [reflexivity|]. split; [reflexivity|]. split; [reflexivity|].
  split; [exact H2|].
  unfold fullScreenMap. rewrite E, Hnf. simpl. rewrite E. simpl.
  unfold spreadSnapshot. simpl.
  destruct (isMaximized w) eqn:Hmax.
  - destruct (preMaximizedState w) as [b|] eqn:Hsnap; simpl;
      rewrite ?Hmax, ?Hsnap.
    + split; [reflexivity|]. split; [reflexivity|]. split; [reflexivity|].
      split; [now destruct b|]. split; [discriminate|].
      intros _ [Hb|Hb]; [|discriminate]. now inversion Hb.
    + split; [reflexivity|]. split; [reflexivity|]. split; [reflexivity|].
      split; [reflexivity|]. split; [discriminate|]. reflexivity.
  - simpl. rewrite ?Hmax. split; [reflexivity|]. split; [reflexivity|].
    split; [reflexivity|]. split; [reflexivity|]. split; [reflexivity|].
    discriminate.
Qed.

Lemma toggleFullScreen_twice_witness :
  let s := run threeWindows initialState in
  let w := newWindowFor 1024 768 terminal None
             (run [OpenApp true 1024 768 notes None] initialState) in
  nth_error (windows s) 1 = Some w
  /\ id w = "win-1"
  /\ isFullScreen w = false
  /\ exists w2,
       nth_error (windows (toggleFullScreen "win-1"
                             (toggleFullScreen "win-1" s))) 1 = Some w2
       /\ boundsOf w2 = boundsOf w.
Proof.
  cbv zeta.
  assert (Hk : nth_error (windows (run threeWindows initialState)) 1
               = Some (newWindowFor 1024 768 terminal None
                         (run [OpenApp true 1024 768 notes None] initialState)))
    by (vm_compute; reflexivity).
  assert (Hid : id (newWindowFor 1024 768 terminal None
                      (run [OpenApp true 1024 768 notes None] initialState))
                = "win-1") by (vm_compute; reflexivity).
  split; [exact Hk|]. split; [exact Hid|]. split; [reflexivity|].
  destruct (toggleFullScreen_twice (run threeWindows initialState) "win-1" 1
              _ Hk Hid eq_refl)
    as (w1 & w2 & _ & _ & _ & _ & H2 & _ & _ & _ & _ & Hb & _).
  exists w2. split; [exact H2|]. apply Hb. reflexivity.
Defined.

(** C7 fails as stated for a maximized window: [win-1] is maximized at
    (337, 219), its partner [win-0] is dragged and [win-1] follows to
    (195, 195); entering and leaving fullscreen then puts [win-1] back on
    the maximize snapshot (337, 219), not on its pre-fullscreen bounds. *)
Lemma toggleFullScreen_twice_restores_snapshot :
  let s := run (threeWindows ++ dragMaximizedPartner) initialState in
  let s2 := toggleFullScreen "win-1" (toggleFullScreen "win-1" s) in
  reachable s
  /\ option_map placement (findWindow "win-1" (windows s))
     = Some ("win-1", true, false, (195, 195, 400, 300)%Q)
  /\ option_map placement (findWindow "win-1" (windows s2))
     = Some ("win-1", true, false, (337, 219, 400, 300)%Q)
  /\ option_map boundsOf (findWindow "win-1" (windows s2))
     <> option_map boundsOf (findWindow "win-1" (windows s)).
Proof.
  cbv zeta. split; [now eexists|].
  split; [now vm_compute|]. split; [now vm_compute|].
  vm_compute. discriminate.
Qed.

(** ** Promotion of the next window *)

Lemma filter_filter {A} (f g : A -> bool) l :
  filter f (filter g l) = filter (fun a => g a && f a) l.
Proof.
  induction l as [|a l IH]; simpl; [reflexivity|].
  destruct (g a); simpl; [destruct (f a)|]; now rewrite IH.
Qed.

(** The reduce keeps the greatest [zIndex]; an equal one met later
    replaces the one held. *)
Lemma fold_pickTop_last_max rest :
  forall pre w mid,
    (forall u, In u pre -> zIndex u <= zIndex w) ->
    (forall u, In u mid -> zIndex u < zIndex w) ->
    exists l1 t l2,
      pre ++ w :: mid ++ rest = l1 ++ t :: l2
      /\ fold_left pickTop rest w = t
      /\ (forall u, In u l1 -> zIndex u <= zIndex t)
      /\ (forall u, In u l2 -> zIndex u < zIndex t).
Proof.
  induction rest as [|c rest IH]; intros pre w mid Hpre Hmid.
  - exists pre, w, mid. rewrite app_nil_r. now repeat split.
  - simpl fold_left. unfold pickTop at 2.
    destruct (zIndex w >? zIndex c) eqn:Hgt.
    + apply Z.gtb_lt in Hgt.
      destruct (IH pre w (mid ++ [c])) as (l1 & t & l2 & E & F & H1 & H2).
      * exact Hpre.
      * intros u Hu. apply in_app_or in Hu as [Hu|[<-|[]]]; auto.
      * exists l1, t, l2. rewrite <- E, <- app_assoc. now repeat split.
    + assert (Hle : zIndex w <= zIndex c)
        by (destruct (Z.gtb_spec (zIndex w) (zIndex c)); [discriminate|lia]).
      destruct (IH (pre ++ w :: mid) c []) as (l1 & t & l2 & E & F & H1 & H2).
      * intros u Hu. apply in_app_or in Hu as [Hu|[<-|Hu]].
        -- specialize (Hpre u Hu). lia.
        -- exact Hle.
        -- specialize (Hmid u Hu). lia.
      * intros u [].
      * exists l1, t, l2. rewrite <- E, <- app_assoc. now repeat split.
Qed.

Lemma topWindowId_last_max remaining :
  (remaining = [] -> topWindowId remaining = None)
  /\ (remaining <> [] ->
      exists l1 t l2,
        remaining = l1 ++ t :: l2
        /\ topWindowId remaining = Some (id t)
        /\ (forall u, In u l1 -> zIndex u <= zIndex t)
        /\ (forall u, In u l2 -> zIndex u < zIndex t)).
Proof.
  split; [now intros ->|]. intros Hne.
  destruct remaining as [|a rest]; [congruence|].
  destruct (fold_pickTop_last_max rest [] a [])
    as (l1 & t & l2 & E & F & H1 & H2); [now intros|now intros|].
  exists l1, t, l2. unfold topWindowId. simpl in *. rewrite F.
  now repeat split.
Qed.

(** ** What focus and minimize leave alone *)

Lemma refocused_refl zn adv w : refocused zn adv w w.
Proof.
  exists (zIndex w), (isMinimized w), (isFullScreen w).
  split; [now destruct w|]. split; now left.
Qed.

Lemma refocused_flip zn adv j w w' :
  refocused zn adv w w' -> refocused zn adv w (flipMinimized j w').
Proof.
  intros (z & m & f & -> & Hz & Hf). unfold flipMinimized.
  destruct (String.eqb _ _).
  - exists z, (negb m), false. split; [reflexivity|]. split; [exact Hz|].
    now right.
  - now exists z, m, f.
Qed.

Lemma refocused_focus zn (adv : Prop) j w w' :
  adv -> refocused zn adv w w' ->
  refocused zn adv w (if String.eqb (id w') j then withZIndex zn w' else w').
Proof.
  intros Hadv (z & m & f & -> & Hz & Hf).
  destruct (String.eqb _ _).
  - exists zn, m, f. split; [reflexivity|]. split; [now right|exact Hf].
  - now exists z, m, f.
Qed.

Lemma refocused_weaken zn (adv adv' : Prop) w w' :
  (adv -> adv') -> refocused zn adv w w' -> refocused zn adv' w w'.
Proof.
  intros H (z & m & f & E & [Hz|[Hz Ha]] & Hf); exists z, m, f;
    (split; [exact E|]); (split; [|exact Hf]); [now left|right; auto].
Qed.

Lemma Forall2_refl_on {A} (R : A -> A -> Prop) l :
  (forall a, R a a) -> Forall2 R l l.
Proof. intros H. induction l; constructor; auto. Qed.

Lemma Forall2_map_right {A} (R : A -> A -> Prop) (g : A -> A) l l' :
  (forall a b, R a b -> R a (g b)) ->
  Forall2 R l l' -> Forall2 R l (map g l').
Proof. intros H F. induction F; simpl; constructor; auto. Qed.

Lemma Forall2_weaken {A} (R R' : A -> A -> Prop) l l' :
  (forall a b, R a b -> R' a b) -> Forall2 R l l' -> Forall2 R' l l'.
Proof. intros H F. induction F; constructor; auto. Qed.

Lemma focusWindowIn_frame snap i cur : frame snap cur (focusWindowIn snap i cur).
Proof.
  unfold frame, focusWindowIn. destruct (focusSkips snap i); simpl.
  - split; [apply Forall2_refl_on; intros; apply refocused_refl|].
    repeat split; try lia. now left.
  - split.
    + unfold focusWindows. apply Forall2_map_right.
      * intros a b. apply refocused_focus. lia.
      * apply Forall2_refl_on; intros; apply refocused_refl.
    + repeat split; try lia. now right.
Qed.

(** The [forEach] of [toggleMinimize]: flags only in the local window
    list, one tick of the counter for every queued focus. *)
Lemma minimizeStep_fold snap ids :
  forall wins0 wins cur focused wins' cur' focused',
    Forall2 (refocused (nextZIndex snap) False) wins0 wins ->
    fold_left (minimizeStep snap) ids (wins, cur, focused)
    = (wins', cur', focused') ->
    Forall2 (refocused (nextZIndex snap) False) wins0 wins'
    /\ (exists extra,
          focused' = focused ++ extra
          /\ nextZIndex cur' = nextZIndex cur + Z.of_nat (List.length extra))
    /\ windows cur' = windows cur
    /\ windowPairs cur' = windowPairs cur
    /\ nextWindowId cur' = nextWindowId cur
    /\ (pairingWindowId cur' = pairingWindowId cur
        \/ pairingWindowId cur' = None).
Proof.
  induction ids as [|j ids IH]; intros wins0 wins cur focused wins' cur' focused' F E.
  - simpl in E. inversion E; subst. split; [exact F|].
    split; [exists []; rewrite app_nil_r; simpl; split; [reflexivity|lia]|].
    repeat split. now left.
  - cbn [fold_left] in E. unfold minimizeStep at 2 in E.
    destruct (findWindow j wins) as [w|].
    2:{ exact (IH _ _ _ _ _ _ _ F E). }
    set (cur1 := if isFullScreen w then setFullScreenWindowId None cur else cur) in E.
    assert (H1 : nextZIndex cur1 = nextZIndex cur /\ windows cur1 = windows cur
                 /\ windowPairs cur1 = windowPairs cur
                 /\ nextWindowId cur1 = nextWindowId cur
                 /\ pairingWindowId cur1 = pairingWindowId cur)
      by (unfold cur1; destruct (isFullScreen w); now repeat split).
    destruct H1 as (Hz1 & Hw1 & Hp1 & Hn1 & Hq1).
    assert (Fflip : Forall2 (refocused (nextZIndex snap) False) wins0
                            (map (flipMinimized j) wins))
      by (apply Forall2_map_right; [intros a b; apply refocused_flip|exact F]).
    destruct (isMinimized w); [destruct (focusSkips snap j)|].
    + destruct (IH _ _ _ _ _ _ _ Fflip E) as (G & (extra & -> & Hz) & Hw & Hp & Hn & Hq).
      split; [exact G|]. split; [exists extra; split; [reflexivity|lia]|].
      repeat split; try congruence;
        try (destruct Hq; [left|right]; congruence).
    + destruct (IH _ _ _ _ _ _ _ Fflip E) as (G & (extra & -> & Hz) & Hw & Hp & Hn & Hq).
      split; [exact G|]. split.
      * exists (j :: extra). rewrite <- app_assoc. split; [reflexivity|].
        simpl nextZIndex in Hz. simpl List.length. lia.
      * simpl in Hw, Hp, Hn, Hq. repeat split; try congruence;
          try (right; now destruct Hq).
    + destruct (IH _ _ _ _ _ _ _ Fflip E) as (G & (extra & -> & Hz) & Hw & Hp & Hn & Hq).
      split; [exact G|]. split; [exists extra; split; [reflexivity|lia]|].
      repeat split; try congruence;
        try (destruct Hq; [left|right]; congruence).
Qed.

Lemma focusWindows_fold snap (adv : Prop) focused :
  forall wins0 wins,
    (focused <> [] -> adv) ->
    Forall2 (refocused (nextZIndex snap) adv) wins0 wins ->
    Forall2 (refocused (nextZIndex snap) adv) wins0
            (fold_left (fun ws j => focusWindows snap j ws) focused wins).
Proof.
  induction focused as [|j focused IH]; intros wins0 wins Hadv F;
    simpl; [exact F|].
  assert (Ha : adv) by (apply Hadv; discriminate).
  apply IH; [intros _; exact Ha|].
  unfold focusWindows. apply Forall2_map_right; [|exact F].
  intros a b. now apply refocused_focus.
Qed.

Lemma promoteRemaining_fields snap i cur :
  windows (promoteRemaining snap i cur) = windows cur
  /\ nextZIndex (promoteRemaining snap i cur) = nextZIndex cur
  /\ windowPairs (promoteRemaining snap i cur) = windowPairs cur
  /\ nextWindowId (promoteRemaining snap i cur) = nextWindowId cur
  /\ pairingWindowId (promoteRemaining snap i cur) = pairingWindowId cur
  /\ fullScreenWindowId (promoteRemaining snap i cur) = fullScreenWindowId cur
  /\ launchpadOpen (promoteRemaining snap i cur) = launchpadOpen cur.
Proof.
  unfold promoteRemaining. cbv zeta. destruct (_ && _); now repeat split.
Qed.

Lemma toggleMinimizeIn_frame eager snap i cur :
  frame snap cur (toggleMinimizeIn eager snap i cur).
Proof.
  unfold toggleMinimizeIn. cbv zeta. destruct eager.
  - destruct (fold_left (minimizeStep snap) (groupOf i (windowPairs snap))
                        (windows cur, cur, []))
      as [[wins cur1] focused] eqn:E.
    destruct (minimizeStep_fold snap _ (windows cur) _ _ _ _ _ _
                (Forall2_refl_on _ _ (refocused_refl _ _)) E)
      as (G & (extra & Hf & Hz) & Hw & Hp & Hn & Hq).
    destruct (promoteRemaining_fields snap i (setWindows wins cur1))
      as (Qw & Qz & Qp & Qn & Qq & _).
    unfold frame. rewrite Qw, Qz, Qp, Qn, Qq. simpl. split.
    + eapply Forall2_weaken; [|exact G].
      intros a b. apply refocused_weaken. tauto.
    + repeat split; try assumption. lia.
  - destruct (promoteRemaining_fields snap i cur)
      as (Pw & Pz & Pp & Pn & Pq & _).
    destruct (fold_left (minimizeStep snap) (groupOf i (windowPairs snap))
                        (windows cur, promoteRemaining snap i cur, []))
      as [[wins cur1] focused] eqn:E.
    destruct (minimizeStep_fold snap _ (windows cur) _ _ _ _ _ _
                (Forall2_refl_on _ _ (refocused_refl _ _)) E)
      as (G & (extra & Hf & Hz) & Hw & Hp & Hn & Hq).
    simpl in Hf. subst extra. rewrite Pz in Hz. rewrite Pp in Hp.
    rewrite Pn in Hn. rewrite Pq in Hq.
    unfold frame. simpl. split.
    + apply focusWindows_fold.
      * intros Hne. destruct focused; [congruence|].
        simpl List.length in Hz. lia.
      * eapply Forall2_weaken; [|exact G].
        intros a b. apply refocused_weaken. tauto.
    + repeat split; try assumption. lia.
Qed.

(** ** The z counter bounds every [zIndex] *)

Lemma Forall2_transfer {A} (R : A -> A -> Prop) (P Q : A -> Prop) l l' :
  (forall a b, R a b -> P a -> Q b) ->
  Forall2 R l l' -> Forall P l -> Forall Q l'.
Proof.
  intros H F. induction F; intros HP; constructor; inversion HP; subst; eauto.
Qed.

Lemma Forall_map_keeps {A} (P : A -> Prop) (g : A -> A) l :
  (forall a, P a -> P (g a)) -> Forall P l -> Forall P (map g l).
Proof. intros H F. induction F; simpl; constructor; auto. Qed.

Lemma Forall_filter_keeps {A} (P : A -> Prop) (f : A -> bool) l :
  Forall P l -> Forall P (filter f l).
Proof.
  intros F. induction F as [|a l Ha F IH]; simpl; [constructor|].
  destruct (f a); [constructor|]; assumption.
Qed.

Lemma frame_zBounded snap cur r :
  frame snap cur r -> nextZIndex snap = nextZIndex cur ->
  zBounded cur -> zBounded r.
Proof.
  intros (F & Hle & _) Hz B. unfold zBounded in *.
  refine (Forall2_transfer _ _ _ _ _ _ F B).
  intros a b (z & m & f & -> & [->|[-> Hadv]] & _) Ha; simpl; lia.
Qed.

Lemma zBounded_same s s' :
  windows s' = windows s -> nextZIndex s' = nextZIndex s ->
  zBounded s -> zBounded s'.
Proof. unfold zBounded. now intros -> ->. Qed.

Lemma zBounded_map g s s' :
  (forall w, zIndex (g w) = zIndex w) ->
  windows s' = map g (windows s) -> nextZIndex s' = nextZIndex s ->
  zBounded s -> zBounded s'.
Proof.
  unfold zBounded. intros Hg -> -> B.
  apply Forall_map_keeps; [|exact B]. intros w. now rewrite Hg.
Qed.

Lemma fullScreenMap_zIndex i w : zIndex (fullScreenMap i w) = zIndex w.
Proof.
  unfold fullScreenMap, spreadSnapshot.
  destruct (negb _); [reflexivity|].
  destruct (isFullScreen w); [|reflexivity]. simpl.
  now destruct (preMaximizedState w).
Qed.

Lemma maximizeMap_zIndex i w : zIndex (maximizeMap i w) = zIndex w.
Proof.
  unfold maximizeMap. destruct (negb _); [reflexivity|].
  destruct (isMaximized w); [|reflexivity].
  now destruct (preMaximizedState w).
Qed.

Lemma step_zBounded s o : zBounded s -> zBounded (step s o).
Proof.
  intros B. destruct o as [sch iw ih app fp|i|i|sch i|i|i|i nx ny|i nw nh|i|i| | |]; simpl.
  - (* openApp *)
    unfold openApp. destruct (existingWindowOf app (windows s)) as [e|].
    + assert (B1 : zBounded (if isMinimized e
                             then toggleMinimizeIn sch s (id e) (setLaunchpadOpen false s)
                             else focusWindowIn s (id e) (setLaunchpadOpen false s))).
      { destruct (isMinimized e);
          (eapply frame_zBounded;
           [apply toggleMinimizeIn_frame || apply focusWindowIn_frame
           |reflexivity|exact B]). }
      destruct (truthy fp); [|exact B1].
      eapply zBounded_map; [| reflexivity | reflexivity | exact B1].
      intros w. simpl. now destruct (String.eqb _ _).
    + unfold zBounded in *. simpl. apply Forall_app. split.
      * eapply Forall_impl; [|exact B]. simpl. intros; lia.
      * constructor; [simpl; lia|constructor].
  - (* closeWindow *)
    unfold closeWindow.
    assert (B1 : zBounded
                   (setWindowPairs
                      (filter (fun p => negb (includes p i)) (windowPairs s))
                      (setWindows
                         (filter (fun win => negb (includes (groupOf i (windowPairs s)) (id win)))
                                 (windows s)) s))).
    { unfold zBounded in *. simpl. now apply Forall_filter_keeps. }
    destruct (existsb _ _); destruct (includes _ _); exact B1.
  - eapply frame_zBounded; [apply focusWindowIn_frame|reflexivity|exact B].
  - eapply frame_zBounded; [apply toggleMinimizeIn_frame|reflexivity|exact B].
  - unfold toggleMaximize.
    eapply frame_zBounded; [apply focusWindowIn_frame|reflexivity|].
    eapply zBounded_map; [apply (maximizeMap_zIndex i)|reflexivity|reflexivity|exact B].
  - unfold toggleFullScreen.
    eapply frame_zBounded; [apply focusWindowIn_frame|reflexivity|].
    eapply zBounded_map; [apply (fullScreenMap_zIndex i)|reflexivity|reflexivity|exact B].
  - unfold updateWindowPosition.
    destruct (findWindow i (windows s)) as [mover|]; [|exact B].
    eapply zBounded_map; [|reflexivity|reflexivity|exact B].
    intros w. simpl. now destruct (includes _ _).
  - unfold updateWindowSize.
    eapply zBounded_map; [|reflexivity|reflexivity|exact B].
    intros w. simpl. now destruct (String.eqb _ _).
  - unfold startPairing. now destruct (findIndex _ _).
  - unfold completePairing. destruct (pairingWindowId s); [|exact B].
    destruct (_ && _); [|exact B]. now destruct (findIndex _ _).
  - exact B.
  - exact B.
  - unfold clickDesktop. now destruct (truthy _).
Qed.

Lemma reachable_ind (P : State -> Prop) :
  P initialState ->
  (forall s o, reachable s -> P s -> P (step s o)) ->
  forall s, reachable s -> P s.
Proof.
  intros H0 Hstep s [ops ->]. unfold run.
  induction ops as [|o ops IH] using rev_ind; [exact H0|].
  rewrite fold_left_app. simpl. apply Hstep; [now exists ops|exact IH].
Qed.

Lemma reachable_zBounded s : reachable s -> zBounded s.
Proof.
  apply reachable_ind; [constructor|]. intros; now apply step_zBounded.
Qed.

(** C3 (as the code has it). In a reachable state, when [i] is not
    already the active window or the launcher is open, [focusWindow i]
    makes every window with id [i] (there is one when [i] is in the
    registry) hold a [zIndex] strictly greater than that of every window
    with another id, minimized or not.  When [i] is already active and
    the launcher is closed, [focusWindow i] changes nothing at all. *)
Theorem focusWindow_strict_top
  (s : State) (i : string)
  (Hreach : reachable s)
  (Hpresent : findWindow i (windows s) <> None) :
  (focusSkips s i = false ->
     findWindow i (windows (focusWindow i s)) <> None
     /\ forall w w',
          In w (windows (focusWindow i s)) -> id w = i ->
          In w' (windows (focusWindow i s)) -> id w' <> i ->
          zIndex w' < zIndex w)
  /\ (focusSkips s i = true -> focusWindow i s = s).
Proof.
  pose proof (reachable_zBounded s Hreach) as B.
  unfold focusWindow, focusWindowIn. split; intros Hskip; rewrite Hskip;
    [|reflexivity].
  simpl. unfold focusWindows. split.
  - destruct (findWindow i (windows s)) as [w0|] eqn:F; [|congruence].
    apply find_some in F as [Hin E].
    intros Hnone.
    pose proof (find_none _ _ Hnone _
                  (in_map (fun win => if String.eqb (id win) i
                                      then withZIndex (nextZIndex s) win
                                      else win) _ _ Hin)) as E'.
    simpl in E'. rewrite E in E'. simpl in E'. congruence.
  - intros w w' Hw Hi Hw' Hi'.
    apply in_map_iff in Hw as (w0 & <- & H0).
    apply in_map_iff in Hw' as (w0' & <- & H0').
    unfold zBounded in B. rewrite Forall_forall in B.
    destruct (String.eqb (id w0) i) eqn:E0.
    2:{ apply String.eqb_neq in E0. contradiction. }
    destruct (String.eqb (id w0') i) eqn:E0'.
    { apply String.eqb_eq in E0'. simpl in Hi'. contradiction. }
    simpl. now apply B.
Qed.

Lemma focusWindow_strict_top_witness :
  let s := run threeWindows initialState in
  reachable s
  /\ findWindow "win-0" (windows s) <> None
  /\ focusSkips s "win-0" = false
  /\ forall w w',
       In w (windows (focusWindow "win-0" s)) -> id w = "win-0" ->
       In w' (windows (focusWindow "win-0" s)) -> id w' <> "win-0" ->
       zIndex w' < zIndex w.
Proof.
  cbv zeta.
  assert (Hr : reachable (run threeWindows initialState)) by now eexists.
  assert (Hp : findWindow "win-0" (windows (run threeWindows initialState))
               <> None) by (vm_compute; discriminate).
  assert (Hs : focusSkips (run threeWindows initialState) "win-0" = false)
    by (vm_compute; reflexivity).
  split; [exact Hr|]. split; [exact Hp|]. split; [exact Hs|].
  apply (focusWindow_strict_top _ "win-0" Hr Hp). exact Hs.
Defined.

(** C3 fails as stated when the id is already active: after [win-1] is
    minimized the active window is [win-0] with [zIndex] 10, below the 11
    of [win-1]; [focusWindow "win-0"] returns at its guard. *)
Lemma focusWindow_active_not_top :
  let s := run [OpenApp true 1024 768 notes None; OpenApp true 1024 768 terminal None;
                ToggleMinimize true "win-1"] initialState in
  reachable s
  /\ activeWindowId s = Some "win-0"
  /\ focusWindow "win-0" s = s
  /\ map (fun w => (id w, zIndex w, isMinimized w))
         (windows (focusWindow "win-0" s))
     = [("win-0", 10, false); ("win-1", 11, true)].
Proof.
  cbv zeta. split; [now eexists|]. now vm_compute.
Qed.

(** ** Properties of single windows that every event keeps *)

Section LocalInvariant.
Variable P : WindowInstance -> Prop.
Hypothesis P_refocused :
  forall zn adv w w', refocused zn adv w w' -> P w -> P w'.
Hypothesis P_fullScreen : forall i w, P w -> P (fullScreenMap i w).
Hypothesis P_maximize : forall i w, P w -> P (maximizeMap i w).
Hypothesis P_filePath : forall fp w, P w -> P (withFilePath fp w).
Hypothesis P_geometry :
  forall nx ny nw nh w, P w -> P (withGeometry nx ny nw nh w).
Hypothesis P_new :
  forall iw ih app fp s, P (newWindowFor iw ih app fp s).

Lemma frame_local snap cur r :
  frame snap cur r -> Forall P (windows cur) -> Forall P (windows r).
Proof.
  intros (F & _). refine (Forall2_transfer _ _ _ _ _ _ F).
  intros a b. apply P_refocused.
Qed.

Lemma step_local s o : Forall P (windows s) -> Forall P (windows (step s o)).
Proof.
  intros B.
  destruct o as [sch iw ih app fp|i|i|sch i|i|i|i nx ny|i nw nh|i|i| | |]; simpl.
  - unfold openApp. destruct (existingWindowOf app (windows s)) as [e|].
    + assert (B1 : Forall P (windows
                     (if isMinimized e
                      then toggleMinimizeIn sch s (id e) (setLaunchpadOpen false s)
                      else focusWindowIn s (id e) (setLaunchpadOpen false s)))).
      { destruct (isMinimized e);
          (eapply frame_local;
           [apply toggleMinimizeIn_frame || apply focusWindowIn_frame
           |exact B]). }
      destruct (truthy fp); [|exact B1]. simpl.
      apply Forall_map_keeps; [|exact B1].
      intros w Hw. destruct (String.eqb _ _); auto.
    + simpl. apply Forall_app. split; [exact B|].
      constructor; [apply P_new|constructor].
  - unfold closeWindow.
    assert (B1 : Forall P
                   (filter (fun win => negb (includes (groupOf i (windowPairs s)) (id win)))
                           (windows s)))
      by now apply Forall_filter_keeps.
    destruct (existsb _ _); destruct (includes _ _); exact B1.
  - eapply frame_local; [apply focusWindowIn_frame|exact B].
  - eapply frame_local; [apply toggleMinimizeIn_frame|exact B].
  - unfold toggleMaximize.
    eapply frame_local; [apply focusWindowIn_frame|]. simpl.
    apply Forall_map_keeps; [apply P_maximize|exact B].
  - unfold toggleFullScreen.
    eapply frame_local; [apply focusWindowIn_frame|]. simpl.
    apply Forall_map_keeps; [apply P_fullScreen|exact B].
  - unfold updateWindowPosition.
    destruct (findWindow i (windows s)) as [mover|]; [|exact B]. simpl.
    apply Forall_map_keeps; [|exact B].
    intros w Hw. destruct (includes _ _); auto.
  - unfold updateWindowSize. simpl.
    apply Forall_map_keeps; [|exact B].
    intros w Hw. destruct (String.eqb _ _); auto.
  - unfold startPairing. now destruct (findIndex _ _).
  - unfold completePairing. destruct (pairingWindowId s); [|exact B].
    destruct (_ && _); [|exact B]. now destruct (findIndex _ _).
  - exact B.
  - exact B.
  - unfold clickDesktop. now destruct (truthy _).
Qed.

Lemma reachable_local s : reachable s -> Forall P (windows s).
Proof.
  apply (reachable_ind (fun t => Forall P (windows t))); [constructor|].
  intros; now apply step_local.
Qed.
End LocalInvariant.

(** ** The maximize snapshot *)

Lemma reachable_hasSnapshotWhenLarge s :
  reachable s -> Forall hasSnapshotWhenLarge (windows s).
Proof.
  apply reachable_local; unfold hasSnapshotWhenLarge.
  - intros zn adv w w' (z & m & f & -> & _ & Hf) H. simpl.
    intros [Hm|Hfs]; apply H; [now left|right].
    destruct Hf; congruence.
  - intros i w H. unfold fullScreenMap, spreadSnapshot.
    destruct (negb _); [exact H|].
    destruct (isFullScreen w) eqn:Hfs; simpl.
    + destruct (preMaximizedState w) eqn:Hs; simpl; rewrite ?Hs;
        intros [Hm|Hf]; try discriminate.
      apply H. now left.
    + destruct (isMaximized w) eqn:Hm; [|discriminate].
      intros _. apply H. now left.
  - intros i w H. unfold maximizeMap.
    destruct (negb _); [exact H|].
    destruct (isMaximized w) eqn:Hm; [|simpl; discriminate].
    destruct (preMaximizedState w) eqn:Hs; simpl; rewrite ?Hs;
      intros [Hm'|Hf]; try discriminate.
    apply H. now right.
  - intros fp w H. exact H.
  - intros nx ny nw nh w H. exact H.
  - intros iw ih app fp s' [Hm|Hf]; discriminate.
Qed.

(** C8 (as the code has it). In a reachable state a window that is
    maximized or fullscreen has a [preMaximizedState]; the converse does
    not hold, because nothing ever clears the snapshot: when
    [toggleMaximize] restores a maximized window, and when
    [toggleFullScreen] takes a window out of fullscreen, the window keeps
    the very snapshot it had. *)
Theorem snapshot_outlives_restore
  (s : State) (i : string) (k : nat) (w : WindowInstance)
  (Hreach : reachable s)
  (Hk : nth_error (windows s) k = Some w)
  (Hid : id w = i) :
  hasSnapshotWhenLarge w
  /\ (isMaximized w = true ->
      exists w',
        nth_error (windows (toggleMaximize i s)) k = Some w'
        /\ isMaximized w' = false
        /\ preMaximizedState w' = preMaximizedState w
        /\ preMaximizedState w' <> None)
  /\ (isFullScreen w = true ->
      exists w',
        nth_error (windows (toggleFullScreen i s)) k = Some w'
        /\ isFullScreen w' = false
        /\ preMaximizedState w' = preMaximizedState w
        /\ preMaximizedState w' <> None).
Proof.
  assert (Hw : hasSnapshotWhenLarge w).
  { pose proof (reachable_hasSnapshotWhenLarge s Hreach) as F.
    rewrite Forall_forall in F. apply F. eapply nth_error_In; exact Hk. }
  assert (E : String.eqb (id w) i = true) by now apply String.eqb_eq.
  split; [exact Hw|]. split.
  - intros Hm. destruct (toggleMaximize_window s i k w Hk) as [z Hz].
    eexists. split; [exact Hz|].
    unfold maximizeMap. rewrite E, Hm. simpl.
    destruct (preMaximizedState w) eqn:Hs; simpl; rewrite ?Hs.
    + repeat split; congruence.
    + exfalso. apply Hw; [now left|exact Hs].
  - intros Hf. destruct (toggleFullScreen_window s i k w Hk) as [z Hz].
    eexists. split; [exact Hz|].
    unfold fullScreenMap, spreadSnapshot. rewrite E, Hf. simpl.
    destruct (preMaximizedState w) eqn:Hs; simpl; rewrite ?Hs.
    + repeat split; congruence.
    + exfalso. apply Hw; [now right|exact Hs].
Qed.

Lemma snapshot_outlives_restore_witness :
  let s := run (threeWindows ++ [ToggleMaximize "win-1"]) initialState in
  reachable s
  /\ exists w,
       nth_error (windows s) 1 = Some w
       /\ id w = "win-1"
       /\ isMaximized w = true
       /\ exists w',
            nth_error (windows (toggleMaximize "win-1" s)) 1 = Some w'
            /\ isMaximized w' = false
            /\ preMaximizedState w' <> None.
Proof.
  cbv zeta.
  assert (Hr : reachable (run (threeWindows ++ [ToggleMaximize "win-1"])
                              initialState)) by now eexists.
  split; [exact Hr|].
  set (w := withZIndex 13
              (maximizeMap "win-1"
                 (newWindowFor 1024 768 terminal None
                    (run [OpenApp true 1024 768 notes None] initialState)))).
  assert (Hk : nth_error
                 (windows (run (threeWindows ++ [ToggleMaximize "win-1"])
                               initialState)) 1 = Some w)
    by (vm_compute; reflexivity).
  assert (Hid : id w = "win-1") by (vm_compute; reflexivity).
  assert (Hm : isMaximized w = true) by (vm_compute; reflexivity).
  exists w. split; [exact Hk|]. split; [exact Hid|]. split; [exact Hm|].
  destruct (snapshot_outlives_restore _ "win-1" 1 w Hr Hk Hid)
    as (_ & Hmax & _).
  destruct (Hmax Hm) as (w' & H1 & H2 & _ & H3).
  exists w'. now repeat split.
Defined.

(** C8 fails as stated: after maximizing and restoring [win-0] the window
    is neither maximized nor fullscreen and still carries its snapshot;
    the same after entering and leaving fullscreen. *)
Lemma snapshot_survives_restore :
  let afterMaximize :=
    run [OpenApp true 1024 768 notes None; ToggleMaximize "win-0";
         ToggleMaximize "win-0"] initialState in
  let afterFullScreen :=
    run [OpenApp true 1024 768 notes None; ToggleFullScreen "win-0";
         ToggleFullScreen "win-0"] initialState in
  reachable afterMaximize
  /\ reachable afterFullScreen
  /\ map (fun w => (placement w, preMaximizedState w)) (windows afterMaximize)
     = [(("win-0", false, false, (152, 74, 720, 540)%Q),
         Some (mkBounds (1024 / 2 - 720 / 2 + 0) (Qmax (28 + 10) ((768 - 540) / 2 - 40 + 0)) 720 540))]
  /\ map (fun w => (placement w, preMaximizedState w)) (windows afterFullScreen)
     = map (fun w => (placement w, preMaximizedState w)) (windows afterMaximize).
Proof.
  cbv zeta. split; [now eexists|]. split; [now eexists|].
  split; now vm_compute.
Qed.

(** ** Pairs *)

Lemma pairApart_spec p q :
  pairApart p q = true <-> forall i, In i p -> ~ In i q.
Proof.
  unfold pairApart. rewrite forallb_forall. split; intros H i Hi.
  - apply includes_false. apply negb_true_iff. now apply H.
  - apply negb_true_iff. apply includes_false. now apply H.
Qed.

(** [pairsDisjoint] says what it should: an id found in the entries at
    two positions means the positions are the same. *)
Lemma pairsDisjoint_spec ps :
  pairsDisjoint ps = true <->
  (forall m n p q i,
      nth_error ps m = Some p -> nth_error ps n = Some q ->
      In i p -> In i q -> m = n).
Proof.
  induction ps as [|p0 rest IH]; simpl.
  - split; [|reflexivity]. intros _ m n p q i Hm. now destruct m.
  - rewrite andb_true_iff, forallb_forall, IH. split.
    + intros [Hhead Hrest] m n p q i Hm Hn Hp Hq.
      destruct m as [|m], n as [|n]; simpl in Hm, Hn.
      * reflexivity.
      * inversion Hm; subst. apply nth_error_In in Hn.
        apply Hhead in Hn.
        now elim (proj1 (pairApart_spec _ _) Hn i).
      * inversion Hn; subst. apply nth_error_In in Hm.
        apply Hhead in Hm.
        now elim (proj1 (pairApart_spec _ _) Hm i).
      * f_equal. exact (Hrest m n p q i Hm Hn Hp Hq).
    + intros H. split.
      * intros q Hq. apply pairApart_spec. intros i Hi Hiq.
        apply In_nth_error in Hq as [n Hn].
        discriminate (H O (S n) p0 q i eq_refl Hn Hi Hiq).
      * intros m n p q i Hm Hn Hp Hq.
        assert (E : S m = S n) by exact (H (S m) (S n) p q i Hm Hn Hp Hq).
        now inversion E.
Qed.

Lemma removeAt_In {A} n (l : list A) a : In a (removeAt n l) -> In a l.
Proof.
  revert n. induction l as [|b l IH]; intros n; simpl; [now destruct n|].
  destruct n as [|n]; simpl; [now right|].
  intros [->|H]; [now left|right; eauto].
Qed.

Lemma filter_In_source {A} (f : A -> bool) l a : In a (filter f l) -> In a l.
Proof. intros H. now apply filter_In in H. Qed.

Lemma pairsDisjoint_removeAt n ps :
  pairsDisjoint ps = true -> pairsDisjoint (removeAt n ps) = true.
Proof.
  revert n. induction ps as [|p rest IH]; intros n; simpl;
    [now destruct n|].
  rewrite andb_true_iff. intros [Hh Hr]. destruct n as [|n]; [exact Hr|].
  simpl. rewrite andb_true_iff. split; [|now apply IH].
  rewrite forallb_forall in *. intros q Hq. apply Hh.
  now apply removeAt_In in Hq.
Qed.

Lemma pairsDisjoint_filter f ps :
  pairsDisjoint ps = true -> pairsDisjoint (filter f ps) = true.
Proof.
  induction ps as [|p rest IH]; simpl; [reflexivity|].
  rewrite andb_true_iff. intros [Hh Hr]. destruct (f p); [|now apply IH].
  simpl. rewrite andb_true_iff. split; [|now apply IH].
  rewrite forallb_forall in *. intros q Hq. apply Hh.
  now apply filter_In_source in Hq.
Qed.

Lemma pairsDisjoint_add ps q :
  pairsDisjoint ps = true ->
  (forall p, In p ps -> pairApart p q = true) ->
  pairsDisjoint (ps ++ [q]) = true.
Proof.
  induction ps as [|p rest IH]; simpl; [reflexivity|].
  rewrite !andb_true_iff. intros [Hh Hr] Hq. split.
  - rewrite forallb_app, Hh. simpl. rewrite (Hq p); [reflexivity|now left].
  - apply IH; [exact Hr|]. intros p' Hp'. apply Hq. now right.
Qed.

Lemma pairsDisjoint_add_inv ps q :
  pairsDisjoint (ps ++ [q]) = true ->
  forall p, In p ps -> pairApart p q = true.
Proof.
  induction ps as [|p0 rest IH]; simpl; [intros _ p []|].
  rewrite andb_true_iff, forallb_app. intros [Hh Hr] p [<-|Hp].
  - apply andb_true_iff in Hh as [_ Hq]. simpl in Hq.
    now rewrite andb_true_r in Hq.
  - now apply IH.
Qed.

Lemma findPair_none_sub i ps ps' :
  (forall p, In p ps' -> In p ps) ->
  findPair i ps = None -> findPair i ps' = None.
Proof.
  intros Hsub H. unfold findPair.
  destruct (find (fun p => includes p i) ps') as [p|] eqn:F; [|reflexivity].
  apply find_some in F as [Hin Hinc].
  now rewrite (findPair_absent _ _ H p (Hsub p Hin)) in Hinc.
Qed.

Lemma findIndex_none_findPair i ps :
  findIndex (fun p => includes p i) ps = None -> findPair i ps = None.
Proof.
  unfold findPair. induction ps as [|p ps IH]; simpl; [reflexivity|].
  destruct (includes p i); [discriminate|].
  destruct (findIndex _ ps); [discriminate|]. intros _. now apply IH.
Qed.

Lemma pairingSound_frame snap cur r :
  frame snap cur r -> pairingSound cur -> pairingSound r.
Proof.
  intros (_ & _ & Hp & _ & Hq) [D S]. unfold pairingSound. rewrite Hp.
  split; [exact D|]. intros src Hsrc. apply S.
  destruct Hq as [Hq|Hq]; congruence.
Qed.

Lemma pairingSound_same s s' :
  windowPairs s' = windowPairs s ->
  (pairingWindowId s' = pairingWindowId s \/ pairingWindowId s' = None) ->
  pairingSound s -> pairingSound s'.
Proof.
  intros Hp Hq [D S]. unfold pairingSound. rewrite Hp.
  split; [exact D|]. intros src Hsrc. apply S.
  destruct Hq as [Hq|Hq]; congruence.
Qed.

Lemma step_pairingSound s o :
  pairingSound s -> targetUnpaired s o -> pairingSound (step s o).
Proof.
  intros I G.
  destruct o as [sch iw ih app fp|i|i|sch i|i|i|i nx ny|i nw nh|i|i| | |]; simpl.
  - unfold openApp. destruct (existingWindowOf app (windows s)) as [e|].
    + assert (I1 : pairingSound
                     (if isMinimized e
                      then toggleMinimizeIn sch s (id e) (setLaunchpadOpen false s)
                      else focusWindowIn s (id e) (setLaunchpadOpen false s))).
      { destruct (isMinimized e);
          (eapply pairingSound_frame;
           [apply toggleMinimizeIn_frame || apply focusWindowIn_frame
           |exact I]). }
      destruct (truthy fp); [|exact I1].
      eapply pairingSound_same; [reflexivity|now left|exact I1].
    + eapply pairingSound_same; [reflexivity|now left|exact I].
  - unfold closeWindow. destruct I as [D S].
    assert (I1 : pairingSound
                   (setWindowPairs
                      (filter (fun p => negb (includes p i)) (windowPairs s)) s)).
    { split; simpl; [now apply pairsDisjoint_filter|].
      intros src Hsrc. eapply findPair_none_sub; [|exact (S src Hsrc)].
      intros p. apply filter_In_source. }
    destruct (existsb _ _); destruct (includes _ _);
      (eapply pairingSound_same; [reflexivity|now left|exact I1]).
  - eapply pairingSound_frame; [apply focusWindowIn_frame|exact I].
  - eapply pairingSound_frame; [apply toggleMinimizeIn_frame|exact I].
  - unfold toggleMaximize.
    eapply pairingSound_frame; [apply focusWindowIn_frame|].
    eapply pairingSound_same; [reflexivity|now left|exact I].
  - unfold toggleFullScreen.
    eapply pairingSound_frame; [apply focusWindowIn_frame|].
    eapply pairingSound_same; [reflexivity|now left|exact I].
  - unfold updateWindowPosition.
    destruct (findWindow i (windows s)) as [mover|]; [|exact I].
    eapply pairingSound_same; [reflexivity|now left|exact I].
  - eapply pairingSound_same; [reflexivity|now left|exact I].
  - (* startPairing *)
    unfold startPairing. destruct I as [D S].
    destruct (findIndex _ _) as [n|] eqn:F; split; simpl.
    + now apply pairsDisjoint_removeAt.
    + intros src Hsrc. eapply findPair_none_sub; [|exact (S src Hsrc)].
      intros p. apply removeAt_In.
    + exact D.
    + intros src Hsrc. inversion Hsrc; subst.
      now apply findIndex_none_findPair.
  - (* completePairing *)
    unfold completePairing. destruct I as [D S]. simpl in G.
    destruct (pairingWindowId s) as [src|] eqn:Hsrc; [|now split].
    destruct (negb (String.eqb src "") && negb (String.eqb src i)) eqn:C;
      [|now split].
    rewrite (findIndex_findPair_none _ _ (S src eq_refl)).
    split; simpl; [|discriminate].
    apply pairsDisjoint_add; [exact D|].
    intros p Hp. apply pairApart_spec. intros j Hj [<-|[<-|[]]].
    + apply (proj1 (includes_false p src)); [|exact Hj].
      exact (findPair_absent _ _ (S src eq_refl) p Hp).
    + apply (proj1 (includes_false p i)); [|exact Hj].
      apply andb_true_iff in C as [C1 C2].
      apply negb_true_iff in C1, C2. apply String.eqb_neq in C1, C2.
      exact (findPair_absent _ _ (G src eq_refl C1 C2) p Hp).
  - eapply pairingSound_same; [reflexivity|now left|exact I].
  - eapply pairingSound_same; [reflexivity|now left|exact I].
  - unfold clickDesktop. destruct (truthy _); [|exact I].
    apply (pairingSound_same s); [reflexivity|now right|exact I].
Qed.

Lemma run_pairingSound ops :
  forall s, pairingSound s -> targetsUnpaired ops s -> pairingSound (run ops s).
Proof.
  induction ops as [|o ops IH]; intros s I G; [exact I|].
  destruct G as [G1 G2]. simpl. apply IH; [|exact G2].
  now apply step_pairingSound.
Qed.

(** Pairs stay disjoint exactly as long as no pairing is completed on a
    paired target.  In every state reached by events none of which
    completes a pending pairing (non-empty source, other than the target)
    on a target that is already in a pair, no id is a member of two
    entries of the pair list, and the pending source is a member of none.
    From such a state, the next event keeps the pair list disjoint if and
    only if it is not such a completion: [completePairing] itself neither
    checks nor dissolves the target's pair. *)
Theorem pairs_disjoint_while_targets_unpaired
  (ops : list Op) (Hguard : targetsUnpaired ops initialState) :
  let s := run ops initialState in
  (forall m n p q i,
      nth_error (windowPairs s) m = Some p ->
      nth_error (windowPairs s) n = Some q ->
      In i p -> In i q -> m = n)
  /\ (forall source p,
        pairingWindowId s = Some source -> In p (windowPairs s) ->
        ~ In source p)
  /\ (forall o,
        targetUnpaired s o
        <-> (forall m n p q i,
               nth_error (windowPairs (step s o)) m = Some p ->
               nth_error (windowPairs (step s o)) n = Some q ->
               In i p -> In i q -> m = n)).
Proof.
  cbv zeta.
  assert (I : pairingSound (run ops initialState))
    by (apply run_pairingSound;
        [split; [reflexivity|discriminate]|exact Hguard]).
  pose proof I as [D S].
  split; [|split].
  - now apply pairsDisjoint_spec.
  - intros src p Hsrc Hp. apply includes_false.
    exact (findPair_absent _ _ (S src Hsrc) p Hp).
  - intros o. rewrite <- pairsDisjoint_spec. split.
    + intros G. now apply (step_pairingSound _ o I G).
    + intros D'. destruct o; try exact Logic.I.
      intros src Hsrc Hne Hnt. simpl in D'. unfold completePairing in D'.
      rewrite Hsrc in D'.
      apply String.eqb_neq in Hne, Hnt. rewrite Hne, Hnt in D'.
      simpl in D'.
      rewrite (findIndex_findPair_none _ _ (S src Hsrc)) in D'.
      simpl in D'.
      unfold findPair.
      destruct (find (fun p => includes p i) (windowPairs (run ops initialState)))
        as [p|] eqn:F; [|reflexivity].
      apply find_some in F as [Hp Hinc]. apply includes_true in Hinc.
      pose proof (pairsDisjoint_add_inv _ _ D' p Hp) as Hap.
      elim (proj1 (pairApart_spec _ _) Hap i Hinc). right. now left.
Qed.

Lemma pairs_disjoint_while_targets_unpaired_witness :
  let ops := threeWindows
             ++ [StartPairing "win-0"; CompletePairing "win-2";
                 CompletePairing "win-0"; StartPairing "win-1"] in
  targetsUnpaired ops initialState
  /\ windowPairs (run ops initialState) = [["win-0"; "win-2"]]
  /\ pairingWindowId (run ops initialState) = Some "win-1"
  /\ (forall m n p q i,
        nth_error (windowPairs (run ops initialState)) m = Some p ->
        nth_error (windowPairs (run ops initialState)) n = Some q ->
        In i p -> In i q -> m = n)
  /\ targetUnpaired (run ops initialState) (CompletePairing "win-1")
  /\ ~ targetUnpaired (run ops initialState) (CompletePairing "win-0").
Proof.
  cbv zeta.
  assert (G : targetsUnpaired
                (threeWindows
                 ++ [StartPairing "win-0"; CompletePairing "win-2";
                     CompletePairing "win-0"; StartPairing "win-1"])
                initialState).
  { vm_compute. repeat split; intros; discriminate. }
  destruct (pairs_disjoint_while_targets_unpaired _ G) as (Hd & _ & Hiff).
  split; [exact G|]. split; [vm_compute; reflexivity|].
  split; [vm_compute; reflexivity|]. split; [exact Hd|]. split.
  - intros src Hsrc _ Hne. vm_compute in Hsrc. congruence.
  - intros Hg.
    pose proof (proj1 (Hiff (CompletePairing "win-0")) Hg) as Hd'.
    discriminate (Hd' 0%nat 1%nat ["win-0"; "win-2"] ["win-1"; "win-0"] "win-0"
                    ltac:(vm_compute; reflexivity)
                    ltac:(vm_compute; reflexivity)
                    ltac:(now left) ltac:(right; now left)).
Defined.

(** C1 (the code does not keep the invariant). With [win-0] already
    paired with [win-2], starting a pairing on [win-1] and completing it
    on [win-0] adds the pair [win-1, win-0]: [completePairing] looks up
    the pair of the source only.  [win-0] is then a member of the entries
    at positions 0 and 1 of the pair list. *)
Lemma completePairing_overlaps :
  let s := run (threeWindows ++ overlappingPairs) initialState in
  reachable s
  /\ windowPairs s = [["win-0"; "win-2"]; ["win-1"; "win-0"]]
  /\ pairsDisjoint (windowPairs s) = false
  /\ ~ (forall m n p q i,
          nth_error (windowPairs s) m = Some p ->
          nth_error (windowPairs s) n = Some q ->
          In i p -> In i q -> m = n).
Proof.
  cbv zeta. split; [now eexists|].
  split; [vm_compute; reflexivity|]. split; [vm_compute; reflexivity|].
  intros H.
  discriminate (H 0%nat 1%nat ["win-0"; "win-2"] ["win-1"; "win-0"] "win-0"
                  ltac:(vm_compute; reflexivity) ltac:(vm_compute; reflexivity)
                  ltac:(now left) ltac:(right; now left)).
Qed.

(** ** The registry after one event *)

Lemma Forall2_compose {A} (R S T : A -> A -> Prop) l1 l2 l3 :
  (forall a b c, R a b -> S b c -> T a c) ->
  Forall2 R l1 l2 -> Forall2 S l2 l3 -> Forall2 T l1 l3.
Proof.
  intros H F. revert l3. induction F; intros l3 G; inversion G; subst;
    constructor; eauto.
Qed.

Lemma sameIdentity_map (g : WindowInstance -> WindowInstance) ws :
  (forall w, sameIdentity w (g w)) -> Forall2 sameIdentity ws (map g ws).
Proof. intros H. induction ws; simpl; constructor; auto. Qed.

Lemma refocused_sameIdentity zn adv w w' :
  refocused zn adv w w' -> sameIdentity w w'.
Proof. intros (z & m & f & -> & _). now split. Qed.

Lemma frame_sameIdentity snap cur r ws :
  frame snap cur r ->
  Forall2 sameIdentity ws (windows cur) ->
  Forall2 sameIdentity ws (windows r).
Proof.
  intros (F & _) G.
  refine (Forall2_compose _ _ _ _ _ _ _ G F).
  intros a b c [E1 E2] H. apply refocused_sameIdentity in H as [E3 E4].
  split; congruence.
Qed.

Lemma filter_all {A} (l : list A) : filter (fun _ => true) l = l.
Proof. now apply filter_keeps. Qed.

Lemma fullScreenMap_sameIdentity i w : sameIdentity w (fullScreenMap i w).
Proof.
  unfold fullScreenMap, spreadSnapshot. destruct (negb _); [now split|].
  destruct (isFullScreen w); simpl; [|now split].
  now destruct (preMaximizedState w).
Qed.

Lemma maximizeMap_sameIdentity i w : sameIdentity w (maximizeMap i w).
Proof.
  unfold maximizeMap. destruct (negb _); [now split|].
  destruct (isMaximized w); [|now split].
  now destruct (preMaximizedState w).
Qed.

(** An event either keeps, in order, some of the windows (each with its
    id and application) and issues no id, or it is an [openApp] that
    found no instance to reuse and appends the new window. *)
Lemma step_shape s o :
  (exists f,
      Forall2 sameIdentity (filter f (windows s)) (windows (step s o))
      /\ nextWindowId (step s o) = nextWindowId s)
  \/ (exists sch iw ih app fp,
         o = OpenApp sch iw ih app fp
         /\ existingWindowOf app (windows s) = None
         /\ windows (step s o) = windows s ++ [newWindowFor iw ih app fp s]
         /\ nextWindowId (step s o) = S (nextWindowId s)).
Proof.
  assert (Hrefl : Forall2 sameIdentity (windows s) (windows s))
    by (apply Forall2_refl_on; now split).
  assert (Hkeep : forall r,
             Forall2 sameIdentity (windows s) (windows r) ->
             nextWindowId r = nextWindowId s ->
             exists f,
               Forall2 sameIdentity (filter f (windows s)) (windows r)
               /\ nextWindowId r = nextWindowId s)
    by (intros r F E; exists (fun _ => true); now rewrite filter_all).
  destruct o as [sch iw ih app fp|i|i|sch i|i|i|i nx ny|i nw nh|i|i| | |]; cbn [step].
  - unfold openApp.
    destruct (existingWindowOf app (windows s)) as [e|] eqn:Hex.
    + left.
      assert (F1 : Forall2 sameIdentity (windows s)
                     (windows
                        (if isMinimized e
                         then toggleMinimizeIn sch s (id e) (setLaunchpadOpen false s)
                         else focusWindowIn s (id e) (setLaunchpadOpen false s)))
                   /\ nextWindowId
                        (if isMinimized e
                         then toggleMinimizeIn sch s (id e) (setLaunchpadOpen false s)
                         else focusWindowIn s (id e) (setLaunchpadOpen false s))
                      = nextWindowId s).
      { destruct (isMinimized e).
        - pose proof (toggleMinimizeIn_frame sch s (id e) (setLaunchpadOpen false s)) as Fr.
          split; [eapply frame_sameIdentity; [exact Fr|exact Hrefl]|apply Fr].
        - pose proof (focusWindowIn_frame s (id e) (setLaunchpadOpen false s)) as Fr.
          split; [eapply frame_sameIdentity; [exact Fr|exact Hrefl]|apply Fr]. }
      destruct F1 as [F1 N1]. apply Hkeep.
      * destruct (truthy fp); [|exact F1]. simpl.
        refine (Forall2_compose _ _ _ _ _ _ _ F1 (sameIdentity_map _ _ _)).
        -- intros a b c [E1 E2] [E3 E4]. split; congruence.
        -- intros w. destruct (String.eqb _ _); now split.
      * now destruct (truthy fp).
    + right. exists sch, iw, ih, app, fp. now repeat split.
  - left. exists (fun win => negb (includes (groupOf i (windowPairs s)) (id win))).
    unfold closeWindow.
    destruct (existsb _ _); destruct (includes _ _); simpl;
      (split; [apply Forall2_refl_on; now split|reflexivity]).
  - left. apply Hkeep; [|apply (focusWindowIn_frame s i s)].
    eapply frame_sameIdentity; [apply focusWindowIn_frame|exact Hrefl].
  - left. apply Hkeep; [|apply (toggleMinimizeIn_frame sch s i s)].
    eapply frame_sameIdentity; [apply toggleMinimizeIn_frame|exact Hrefl].
  - left. unfold toggleMaximize. apply Hkeep.
    + eapply frame_sameIdentity; [apply focusWindowIn_frame|]. simpl.
      apply sameIdentity_map. apply maximizeMap_sameIdentity.
    + pose proof (focusWindowIn_frame s i
                    (setWindows (map (maximizeMap i) (windows s)) s)) as Fr.
      apply Fr.
  - left. unfold toggleFullScreen. apply Hkeep.
    + eapply frame_sameIdentity; [apply focusWindowIn_frame|]. simpl.
      apply sameIdentity_map. apply fullScreenMap_sameIdentity.
    + pose proof (focusWindowIn_frame s i
                    (setFullScreenWindowId
                       (fullScreenIdAfter i (windows s) (fullScreenWindowId s))
                       (setWindows (map (fullScreenMap i) (windows s)) s))) as Fr.
      apply Fr.
  - left. unfold updateWindowPosition.
    destruct (findWindow i (windows s)) as [mover|]; apply Hkeep;
      try reflexivity; [|exact Hrefl].
    simpl. apply sameIdentity_map. intros w.
    destruct (includes _ _); now split.
  - left. apply Hkeep; [|reflexivity]. unfold updateWindowSize. simpl.
    apply sameIdentity_map. intros w. destruct (String.eqb _ _); now split.
  - left. unfold startPairing. destruct (findIndex _ _); now apply Hkeep.
  - left. unfold completePairing. destruct (pairingWindowId s);
      [|now apply Hkeep].
    destruct (_ && _); [|now apply Hkeep].
    destruct (findIndex _ _); now apply Hkeep.
  - left. now apply Hkeep.
  - left. now apply Hkeep.
  - left. unfold clickDesktop. destruct (truthy _); now apply Hkeep.
Qed.

(** ** Window ids *)

Lemma windowIdOf_inj n m : windowIdOf n = windowIdOf m -> n = m.
Proof.
  unfold windowIdOf. simpl. intros H. inversion H as [E].
  apply Unsigned.to_uint_inj.
  pose proof (NilEmpty.usu (Nat.to_uint n)) as Hn.
  pose proof (NilEmpty.usu (Nat.to_uint m)) as Hm.
  rewrite E in Hn. congruence.
Qed.

Lemma sameIdentity_ids ws ws' :
  Forall2 sameIdentity ws ws' -> map id ws' = map id ws.
Proof.
  intros F. induction F as [|a b l l' [E _] F IH]; simpl; [reflexivity|].
  now rewrite E, IH.
Qed.

Lemma NoDup_map_filter {A B} (g : A -> B) (f : A -> bool) l :
  NoDup (map g l) -> NoDup (map g (filter f l)).
Proof.
  induction l as [|a l IH]; simpl; [trivial|]. intros H.
  inversion H as [|? ? Hnot Hrest]; subst.
  destruct (f a); simpl; [|now apply IH].
  constructor; [|now apply IH].
  intros Hin. apply Hnot. apply in_map_iff in Hin as (b & E & Hb).
  apply in_map_iff. exists b. split; [exact E|].
  now apply filter_In_source in Hb.
Qed.

Lemma step_idsIssued s o : idsIssued s -> idsIssued (step s o).
Proof.
  intros [N B].
  destruct (step_shape s o)
    as [(f & F & E)|(sch & iw & ih & app & fp & -> & Hex & Hw & Hn)].
  - split.
    + rewrite (sameIdentity_ids _ _ F). now apply NoDup_map_filter.
    + intros w' Hw'. rewrite E.
      assert (Hid : In (id w') (map id (filter f (windows s))))
        by (rewrite <- (sameIdentity_ids _ _ F); now apply in_map).
      apply in_map_iff in Hid as (w & Ew & Hw).
      apply filter_In_source in Hw. destruct (B w Hw) as (n & Hlt & Hn).
      exists n. split; [exact Hlt|congruence].
  - split.
    + rewrite Hw, map_app. apply NoDup_app; [exact N| |].
      * simpl. constructor; [intros []|constructor].
      * intros a Ha [<-|[]]. apply in_map_iff in Ha as (w & Ew & Hin).
        destruct (B w Hin) as (n & Hlt & En). simpl in Ew.
        rewrite En in Ew. apply windowIdOf_inj in Ew. lia.
    + intros w' Hw'. rewrite Hw in Hw'. rewrite Hn.
      apply in_app_or in Hw' as [Hin|[<-|[]]].
      * destruct (B w' Hin) as (n & Hlt & En). exists n. split; [lia|exact En].
      * exists (nextWindowId s). split; [lia|reflexivity].
Qed.

Lemma reachable_idsIssued s : reachable s -> idsIssued s.
Proof.
  apply reachable_ind.
  - split; [constructor|intros w []].
  - intros; now apply step_idsIssued.
Qed.

Lemma findWindow_unique ws e :
  NoDup (map id ws) -> In e ws -> findWindow (id e) ws = Some e.
Proof.
  unfold findWindow. induction ws as [|w ws IH]; simpl; [intros _ []|].
  intros N [->|Hin].
  - now rewrite String.eqb_refl.
  - inversion N as [|? ? Hnot Hrest]; subst.
    destruct (String.eqb (id w) (id e)) eqn:E; [|now apply IH].
    apply String.eqb_eq in E. elim Hnot. rewrite E. now apply in_map.
Qed.

(** ** Instances of an application *)

Lemma instancesOf_same a ws ws' :
  Forall2 sameIdentity ws ws' ->
  List.length (instancesOf a ws') = List.length (instancesOf a ws).
Proof.
  intros F. induction F as [|w w' l l' [_ E] F IH]; simpl; [reflexivity|].
  rewrite E. destruct (String.eqb (appId w) a); simpl; now rewrite IH.
Qed.

Lemma instancesOf_filter_le a f ws :
  (List.length (instancesOf a (filter f ws))
   <= List.length (instancesOf a ws))%nat.
Proof.
  induction ws as [|w ws IH]; simpl; [lia|].
  destruct (f w); simpl; destruct (String.eqb (appId w) a); simpl; lia.
Qed.

Lemma instancesOf_none app ws :
  existingWindowOf app ws = None -> allowMultiInstance app = false ->
  instancesOf (app_id app) ws = [].
Proof.
  unfold existingWindowOf, instancesOf. intros H Hflag. rewrite Hflag in H.
  induction ws as [|w ws IH]; simpl in *; [reflexivity|].
  destruct (String.eqb (appId w) (app_id app)); simpl in H;
    [discriminate|now apply IH].
Qed.

Lemma step_instances a s o :
  (List.length (instancesOf a (windows s)) <= 1)%nat ->
  singleInstance a o ->
  (List.length (instancesOf a (windows (step s o))) <= 1)%nat.
Proof.
  intros Hc Hs.
  destruct (step_shape s o)
    as [(f & F & _)|(sch & iw & ih & app & fp & -> & Hex & Hw & _)].
  - rewrite (instancesOf_same _ _ _ F).
    pose proof (instancesOf_filter_le a f (windows s)). lia.
  - rewrite Hw. unfold instancesOf. rewrite filter_app, length_app. simpl.
    destruct (String.eqb (app_id app) a) eqn:E; simpl; [|fold (instancesOf a (windows s)); lia].
    apply String.eqb_eq in E. simpl in Hs. specialize (Hs E). subst a.
    fold (instancesOf (app_id app) (windows s)).
    now rewrite (instancesOf_none _ _ Hex Hs).
Qed.

Lemma run_instances a ops :
  forall s,
    (List.length (instancesOf a (windows s)) <= 1)%nat ->
    Forall (singleInstance a) ops ->
    (List.length (instancesOf a (windows (run ops s))) <= 1)%nat.
Proof.
  induction ops as [|o ops IH]; intros s Hc Hs; [exact Hc|].
  inversion Hs; subst. simpl. apply IH; [|assumption].
  now apply step_instances.
Qed.

(** ** Reusing the instance of a single-instance application *)

Lemma eqNullable_true a b : eqNullable a b = true -> a = Some b.
Proof.
  destruct a as [c|]; simpl; [|discriminate].
  intros H. apply String.eqb_eq in H. now subst.
Qed.

Lemma focusSkips_active s i : focusSkips s i = true -> activeWindowId s = Some i.
Proof.
  unfold focusSkips. intros H. apply andb_true_iff in H as [H _].
  now apply eqNullable_true.
Qed.

Lemma flipMinimized_id j w : id (flipMinimized j w) = id w.
Proof. unfold flipMinimized. now destruct (String.eqb _ _). Qed.

Lemma findWindow_map i h ws :
  (forall w, id (h w) = id w) ->
  findWindow i (map h ws) = option_map h (findWindow i ws).
Proof.
  intros Hh. unfold findWindow. induction ws as [|w ws IH]; simpl;
    [reflexivity|].
  rewrite Hh. destruct (String.eqb (id w) i); [reflexivity|exact IH].
Qed.

Lemma openApp_reuse sch iw ih app fp s e :
  existingWindowOf app (windows s) = Some e ->
  openApp sch iw ih app fp s
  = overwriteFilePath (id e) fp
      (if isMinimized e
       then toggleMinimizeIn sch s (id e) (setLaunchpadOpen false s)
       else focusWindowIn s (id e) (setLaunchpadOpen false s)).
Proof. intros H. unfold openApp, overwriteFilePath. now rewrite H. Qed.

Lemma overwriteFilePath_active i fp cur :
  activeWindowId (overwriteFilePath i fp cur) = activeWindowId cur.
Proof. unfold overwriteFilePath. now destruct (truthy fp). Qed.

Lemma overwriteFilePath_find i fp cur w :
  findWindow i (windows cur) = Some w ->
  exists w',
    findWindow i (windows (overwriteFilePath i fp cur)) = Some w'
    /\ isMinimized w' = isMinimized w.
Proof.
  intros H. unfold overwriteFilePath. destruct (truthy fp); simpl.
  - rewrite findWindow_map, H; [|intros u; now destruct (String.eqb _ _)].
    simpl. eexists. split; [reflexivity|]. now destruct (String.eqb _ _).
  - now exists w.
Qed.

(** The [forEach] of [toggleMinimize] and the active id, for a group
    without repetition: the calls to [focusWindow] that pass the guard are
    those for the members that [restores] selects in the window list the
    updater starts from, and the last of them decides the active id. *)
Lemma last_cons_default {A} (a : A) l d : last (a :: l) d = last l a.
Proof.
  revert a d. induction l as [|b l IH]; intros a d; [reflexivity|].
  change (last (a :: b :: l) d) with (last (b :: l) d).
  now rewrite !IH.
Qed.

Lemma lastFocused_cons j l fallback :
  lastFocused (j :: l) fallback = lastFocused l (Some j).
Proof. unfold lastFocused. simpl map. apply last_cons_default. Qed.

Lemma restores_flip_other snap wins j j' :
  j' <> j ->
  restores snap (map (flipMinimized j) wins) j' = restores snap wins j'.
Proof.
  intros Hne. unfold restores.
  rewrite findWindow_map by (intros u; apply flipMinimized_id).
  destruct (findWindow j' wins) as [u|] eqn:F; [|reflexivity].
  simpl. unfold findWindow in F. apply find_some in F as [_ Hid].
  apply String.eqb_eq in Hid. unfold flipMinimized.
  destruct (String.eqb (id u) j) eqn:E; [|reflexivity].
  apply String.eqb_eq in E. congruence.
Qed.

Lemma minimizeStep_fold_focused snap ids :
  NoDup ids ->
  forall wins cur focused wins' cur' focused',
    fold_left (minimizeStep snap) ids (wins, cur, focused)
    = (wins', cur', focused') ->
    focused' = focused ++ filter (restores snap wins) ids
    /\ activeWindowId cur'
       = lastFocused (filter (restores snap wins) ids) (activeWindowId cur).
Proof.
  induction 1 as [|j rest Hj N IH]; intros wins cur focused wins' cur' focused' E.
  - simpl in E. inversion E; subst. now rewrite app_nil_r.
  - cbn [fold_left] in E. unfold minimizeStep at 2 in E.
    cbn [filter].
    assert (Hr : restores snap wins j
                 = match findWindow j wins with
                   | Some w => isMinimized w && negb (focusSkips snap j)
                   | None => false
                   end) by reflexivity.
    destruct (findWindow j wins) as [w|] eqn:F.
    2:{ rewrite Hr. exact (IH _ _ _ _ _ _ E). }
    assert (Hrest : filter (restores snap (map (flipMinimized j) wins)) rest
                    = filter (restores snap wins) rest).
    { apply filter_ext_in. intros j' Hj'. apply restores_flip_other.
      intros ->. contradiction. }
    rewrite Hr.
    destruct (isMinimized w); [destruct (focusSkips snap j)|];
      cbn [andb negb];
      destruct (IH _ _ _ _ _ _ E) as (Hf & Ha); rewrite Hrest in Hf, Ha.
    + split; [exact Hf|]. rewrite Ha. now destruct (isFullScreen w).
    + split; [rewrite Hf, <- app_assoc; reflexivity|].
      rewrite lastFocused_cons. exact Ha.
    + split; [exact Hf|]. rewrite Ha. now destruct (isFullScreen w).
Qed.

(** A [toggleMinimize] that does not minimize (the window it is called
    on is minimized) leaves active the last group member it restores, in
    either order. *)
Lemma toggleMinimizeIn_restoring_active eager snap i cur w :
  NoDup (groupOf i (windowPairs snap)) ->
  findWindow i (windows snap) = Some w -> isMinimized w = true ->
  activeWindowId (toggleMinimizeIn eager snap i cur)
  = lastFocused (filter (restores snap (windows cur))
                        (groupOf i (windowPairs snap)))
                (activeWindowId cur).
Proof.
  intros N Hw Hm.
  assert (Hpr : forall c, promoteRemaining snap i c = c)
    by (intros c; unfold promoteRemaining; cbv zeta; now rewrite Hw, Hm).
  unfold toggleMinimizeIn. cbv zeta. rewrite !Hpr. destruct eager;
    destruct (fold_left _ _ _) as [[wins cur1] focused] eqn:E;
    destruct (minimizeStep_fold_focused snap _ N _ _ _ _ _ _ E) as (_ & Ha);
    try rewrite Hpr; exact Ha.
Qed.

(** Un-minimizing a minimized window that is in no pair. *)
Lemma toggleMinimizeIn_alone eager snap i cur w :
  findPair i (windowPairs snap) = None ->
  windows cur = windows snap ->
  findWindow i (windows snap) = Some w ->
  isMinimized w = true ->
  let cur1 := if isFullScreen w then setFullScreenWindowId None cur else cur in
  toggleMinimizeIn eager snap i cur
  = if focusSkips snap i
    then setWindows (map (flipMinimized i) (windows cur)) cur1
    else setWindows (if eager then map (flipMinimized i) (windows cur)
                     else focusWindows snap i
                            (map (flipMinimized i) (windows cur)))
                    (focusScalars i cur1).
Proof.
  intros Hp Hw Hf Hm. unfold toggleMinimizeIn, promoteRemaining, groupOf.
  rewrite Hp, Hf, Hm.
  destruct eager; simpl; rewrite Hw, Hf, Hm;
    destruct (focusSkips snap i); reflexivity.
Qed.

(** Run at once, the updater of [toggleMinimize] changes no [zIndex]. *)
Lemma toggleMinimizeIn_eager_zIndex snap i cur :
  map zIndex (windows (toggleMinimizeIn true snap i cur))
  = map zIndex (windows cur).
Proof.
  unfold toggleMinimizeIn. cbv zeta.
  destruct (fold_left (minimizeStep snap) (groupOf i (windowPairs snap))
                      (windows cur, cur, []))
    as [[wins cur1] focused] eqn:E.
  destruct (minimizeStep_fold snap _ (windows cur) _ _ _ _ _ _
              (Forall2_refl_on _ _ (refocused_refl _ _)) E) as (G & _).
  destruct (promoteRemaining_fields snap i (setWindows wins cur1)) as (-> & _).
  simpl. clear E. induction G as [|a b l l' H G IH]; simpl; [reflexivity|].
  rewrite IH. f_equal. destruct H as (z & m & f & -> & [Hz|[_ []]] & _).
  simpl. exact Hz.
Qed.

(** ** The AI request proxy on three keys *)



(** C10 fails as stated when calls overlap.  Call 1 is made at index 0
    and resolves on its first request, yet the index is 1 when it
    settles: the rejection of call 0 rotated it in between.  And the
    reset of a call that fails discards what other calls did: call 1,
    made at index 1, resolves with [k1]; call 0, made at index 0 before,
    then runs out of credentials and puts the index back to 0. *)
Lemma performRequest_overlap_moves_index :
  let keys := ["k0"; "k1"; "k2"] in
  AI.reacts (E := string) keys
    [AI.Begin true; AI.Begin true;
     AI.Settle 0 (inl "quota"); AI.Settle 1 (inr "ok")]
    (AI.loaded string string)
  = Some (AI.mkWorld 1
            [AI.mkCall (AI.Awaiting 0 1) [0; 1]%nat;
             AI.mkCall (AI.Resolved "ok") [0]%nat])
  /\ AI.reacts (E := string) keys
       [AI.Begin true; AI.Settle 0 (inl "quota");
        AI.Begin true; AI.Settle 1 (inr "ok")]
       (AI.loaded string string)
     = Some (AI.mkWorld 1
               [AI.mkCall (AI.Awaiting 0 1) [0; 1]%nat;
                AI.mkCall (AI.Resolved "ok") [1]%nat])
  /\ AI.reacts (E := string) keys
       [AI.Begin true; AI.Settle 0 (inl "quota");
        AI.Begin true; AI.Settle 1 (inr "ok");
        AI.Settle 0 (inl "quota"); AI.Settle 0 (inl "quota")]
       (AI.loaded string string)
     = Some (AI.mkWorld 0
               [AI.mkCall (AI.Thrown (AI.RequestError "quota")) [0; 1; 2]%nat;
                AI.mkCall (AI.Resolved "ok") [1]%nat]).
Proof. cbv zeta. repeat split; vm_compute; reflexivity. Qed.

(** Alone, a call that resolves on its third credential leaves the index
    on that credential; a call that exhausts the list puts it back. *)
Example performRequest_index_examples :
  let keys := ["k0"; "k1"; "k2"] in
  AI.performRequestAlone keys
    (fun (k : nat) (c : AI.Client) =>
       if (k <? 2)%nat then inl "quota" else inr "ok") true (AI.mkWorld 1 [])
  = Some (AI.mkWorld 0 [AI.mkCall (AI.Resolved "ok") [1; 2; 0]%nat])
  /\ AI.performRequestAlone (T := string) keys
       (fun (k : nat) (c : AI.Client) => inl "quota") true (AI.mkWorld 1 [])
     = Some (AI.mkWorld 1
               [AI.mkCall (AI.Thrown (AI.RequestError "quota")) [1; 2; 0]%nat]).
Proof. split; reflexivity. Qed.

(** * Further properties of the window manager *)

(** ** Maximize, focus, resize *)

(** Maximizing a window that is not maximized and restoring it puts it
    back on its exact bounds; in between it carries them as its snapshot.
    Minimized and fullscreen flags are not touched. *)
Theorem toggleMaximize_twice
  (s : State) (i : string) (k : nat) (w : WindowInstance)
  (Hk : nth_error (windows s) k = Some w)
  (Hid : id w = i)
  (Hnm : isMaximized w = false) :
  exists w1 w2,
    nth_error (windows (toggleMaximize i s)) k = Some w1
    /\ isMaximized w1 = true
    /\ preMaximizedState w1 = Some (boundsOf w)
    /\ boundsOf w1 = boundsOf w
    /\ nth_error (windows (toggleMaximize i (toggleMaximize i s))) k = Some w2
    /\ isMaximized w2 = false
    /\ boundsOf w2 = boundsOf w
    /\ isMinimized w2 = isMinimized w
    /\ isFullScreen w2 = isFullScreen w.
Proof.
  destruct (toggleMaximize_window s i k w Hk) as [z1 H1].
  destruct (toggleMaximize_window (toggleMaximize i s) i k _ H1) as [z2 H2].
  exists (withZIndex z1 (maximizeMap i w)).
  exists (withZIndex z2 (maximizeMap i (withZIndex z1 (maximizeMap i w)))).
  assert (E : String.eqb (id w) i = true) by now apply String.eqb_eq.
  split; [exact H1|].
  unfold maximizeMap at 1 2 3 4. rewrite E, Hnm. simpl.
  split; [reflexivity|]. split; [reflexivity|]. split; [reflexivity|].
  split; [exact H2|].
  unfold maximizeMap. rewrite E, Hnm. simpl. rewrite E. simpl.
  repeat split.
Qed.

Lemma toggleMaximize_twice_witness :
  let s := run threeWindows initialState in
  let w := newWindowFor 1024 768 terminal None
             (run [OpenApp true 1024 768 notes None] initialState) in
  nth_error (windows s) 1 = Some w
  /\ id w = "win-1"
  /\ isMaximized w = false
  /\ exists w2,
       nth_error (windows (toggleMaximize "win-1"
                             (toggleMaximize "win-1" s))) 1 = Some w2
       /\ boundsOf w2 = boundsOf w.
Proof.
  cbv zeta.
  assert (Hk : nth_error (windows (run threeWindows initialState)) 1
               = Some (newWindowFor 1024 768 terminal None
                         (run [OpenApp true 1024 768 notes None] initialState)))
    by (vm_compute; reflexivity).
  assert (Hid : id (newWindowFor 1024 768 terminal None
                      (run [OpenApp true 1024 768 notes None] initialState))
                = "win-1") by (vm_compute; reflexivity).
  split; [exact Hk|]. split; [exact Hid|]. split; [reflexivity|].
  destruct (toggleMaximize_twice (run threeWindows initialState) "win-1" 1
              _ Hk Hid eq_refl)
    as (w1 & w2 & _ & _ & _ & _ & H2 & _ & Hb & _).
  exists w2. split; [exact H2|exact Hb].
Defined.

(** Focusing the same window a second time changes nothing: after the
    first call the window is active and the launcher is closed, so the
    second call stops at the guard (no second tick of the z counter). *)
Theorem focusWindow_idempotent (s : State) (i : string) :
  focusWindow i (focusWindow i s) = focusWindow i s.
Proof.
  unfold focusWindow at 2 3. unfold focusWindowIn.
  destruct (focusSkips s i) eqn:Hs.
  - unfold focusWindow, focusWindowIn. now rewrite Hs.
  - unfold focusWindow, focusWindowIn, focusSkips. simpl.
    now rewrite String.eqb_refl.
Qed.

(** Resizing and moving commute, whichever windows they name: a move
    reads and writes positions only (of the whole group), a resize
    writes the size of its window only. *)
Theorem move_resize_commute
  (s : State) (i j : string) (nx ny nw nh : Q) :
  updateWindowPosition i nx ny (updateWindowSize j nw nh s)
  = updateWindowSize j nw nh (updateWindowPosition i nx ny s).
Proof.
  unfold updateWindowPosition at 1. unfold updateWindowSize at 1. simpl.
  rewrite findWindow_map by (intros u; now destruct (String.eqb _ _)).
  unfold updateWindowPosition.
  destruct (findWindow i (windows s)) as [mover|]; simpl; [|reflexivity].
  unfold updateWindowSize, setWindows. simpl. f_equal.
  rewrite !map_map. apply map_ext. intros u.
  assert (Hx : x (if String.eqb (id mover) j
                  then withGeometry (x mover) (y mover) nw nh mover
                  else mover) = x mover)
    by now destruct (String.eqb (id mover) j).
  assert (Hy : y (if String.eqb (id mover) j
                  then withGeometry (x mover) (y mover) nw nh mover
                  else mover) = y mover)
    by now destruct (String.eqb (id mover) j).
  rewrite Hx, Hy.
  destruct (String.eqb (id u) j) eqn:Ej; simpl;
    destruct (includes (groupOf i (windowPairs s)) (id u)); simpl;
    rewrite ?Ej; reflexivity.
Qed.

(** ** Pairing and closing *)

Lemma findIndex_app_last {A} (f : A -> bool) l q :
  (forall a, In a l -> f a = false) -> f q = true ->
  findIndex f (l ++ [q]) = Some (List.length l).
Proof.
  induction l as [|a l IH]; intros Hl Hq; simpl.
  - now rewrite Hq.
  - rewrite (Hl a (or_introl eq_refl)).
    rewrite IH; [reflexivity| |exact Hq]. intros b Hb. apply Hl. now right.
Qed.

Lemma removeAt_app_last {A} (l : list A) q :
  removeAt (List.length l) (l ++ [q]) = l.
Proof. induction l as [|a l IH]; simpl; [reflexivity|now rewrite IH]. Qed.

(** A pairing gesture and its undo.  From a state where [a] (not the
    empty id) is in no pair, [startPairing a] then [completePairing b]
    with [b <> a] appends the pair [[a; b]] and leaves no pending source;
    [startPairing a] on the result removes exactly that pair again, and
    so does [startPairing b] when [b] was in no pair either. *)
Theorem pairing_round_trip
  (s : State) (a b : string)
  (Ha : findPair a (windowPairs s) = None)
  (Hne : a <> "")
  (Hab : a <> b) :
  let s1 := completePairing b (startPairing a s) in
  windowPairs s1 = windowPairs s ++ [[a; b]]
  /\ pairingWindowId s1 = None
  /\ setWindowPairs (windowPairs s) s1 = setPairingWindowId None s
  /\ startPairing a s1 = setPairingWindowId None s
  /\ (findPair b (windowPairs s) = None ->
      startPairing b s1 = setPairingWindowId None s).
Proof.
  cbv zeta.
  assert (E1 : completePairing b (startPairing a s)
               = setPairingWindowId None
                   (setWindowPairs (windowPairs s ++ [[a; b]]) s)).
  { unfold startPairing. rewrite (findIndex_findPair_none _ _ Ha).
    unfold completePairing. simpl.
    apply String.eqb_neq in Hne, Hab. rewrite Hne, Hab. simpl.
    now rewrite (findIndex_findPair_none _ _ Ha). }
  rewrite E1. simpl.
  split; [reflexivity|]. split; [reflexivity|]. split; [reflexivity|].
  split.
  - unfold startPairing. simpl.
    rewrite findIndex_app_last.
    + now rewrite removeAt_app_last.
    + apply (findPair_absent _ _ Ha).
    + unfold includes. simpl. now rewrite String.eqb_refl.
  - intros Hb. unfold startPairing. simpl.
    rewrite findIndex_app_last.
    + now rewrite removeAt_app_last.
    + apply (findPair_absent _ _ Hb).
    + unfold includes. simpl. rewrite String.eqb_refl. apply orb_true_r.
Qed.

Lemma pairing_round_trip_witness :
  let s := run threeWindows initialState in
  findPair "win-0" (windowPairs s) = None
  /\ "win-0" <> ""
  /\ "win-0" <> "win-2"
  /\ windowPairs (completePairing "win-2" (startPairing "win-0" s))
     = windowPairs s ++ [["win-0"; "win-2"]]
  /\ startPairing "win-0" (completePairing "win-2" (startPairing "win-0" s))
     = setPairingWindowId None s.
Proof.
  cbv zeta.
  assert (Ha : findPair "win-0" (windowPairs (run threeWindows initialState))
               = None) by (vm_compute; reflexivity).
  assert (Hne : "win-0" <> "") by discriminate.
  assert (Hab : "win-0" <> "win-2") by discriminate.
  destruct (pairing_round_trip (run threeWindows initialState)
              "win-0" "win-2" Ha Hne Hab)
    as (H1 & _ & _ & H2 & _).
  split; [exact Ha|]. split; [exact Hne|]. split; [exact Hab|].
  split; [exact H1|exact H2].
Defined.

Lemma topWindowId_member remaining a :
  topWindowId remaining = Some a ->
  exists t, In t remaining /\ id t = a.
Proof.
  intros H. destruct (topWindowId_last_max remaining) as [Hnil Hcons].
  destruct remaining as [|r0 rest]; [now rewrite Hnil in H|].
  destruct Hcons as (l1 & t & l2 & E & Ht & _); [discriminate|].
  exists t. split; [rewrite E; apply in_elt|congruence].
Qed.

Lemma groupOf_self i ps : In i (groupOf i ps).
Proof.
  unfold groupOf, findPair.
  destruct (find (fun p => includes p i) ps) as [p|] eqn:F; [|now left].
  apply find_some in F as [_ F]. now apply includes_true.
Qed.

Lemma closeWindow_keeps_outside (s : State) (i : string) :
  (forall w, In w (windows (closeWindow i s))
             <-> In w (windows s) /\ ~ In (id w) (groupOf i (windowPairs s)))
  /\ (forall f, fullScreenWindowId (closeWindow i s) = Some f ->
                ~ In f (groupOf i (windowPairs s))).
Proof.
  unfold closeWindow.
  set (group := groupOf i (windowPairs s)).
  split.
  - intros w.
    destruct (existsb _ group); destruct (includes group _); simpl;
      rewrite filter_In, negb_true_iff, includes_false; reflexivity.
  - intros f Hf.
    destruct (existsb (fun winId => eqNullable (fullScreenWindowId s) winId)
                      group) eqn:Hex;
      [destruct (includes group _); simpl in Hf; discriminate|].
    assert (Hfs : fullScreenWindowId s = Some f)
      by (destruct (includes group _); exact Hf).
    intros Hin. rewrite Hfs in Hex.
    assert (Htrue : existsb (fun winId => eqNullable (Some f) winId) group
                    = true).
    { apply existsb_exists. exists f. split; [exact Hin|].
      simpl. apply String.eqb_refl. }
    congruence.
Qed.

(** [closeWindow i] takes the whole group of [i] out of the state: the
    registry keeps exactly the windows whose id is outside the group,
    the pair list keeps exactly the pairs that do not contain [i], and
    afterwards neither the fullscreen id nor the active id names a closed
    window.  The id counter and the z counter are not touched. *)
Theorem closeWindow_removes_group (s : State) (i : string) :
  let s' := closeWindow i s in
  let group := groupOf i (windowPairs s) in
  In i group
  /\ (forall w, In w (windows s') <-> In w (windows s) /\ ~ In (id w) group)
  /\ (forall p, In p (windowPairs s') <-> In p (windowPairs s) /\ ~ In i p)
  /\ (forall f, fullScreenWindowId s' = Some f -> ~ In f group)
  /\ (forall a, activeWindowId s' = Some a -> ~ In a group)
  /\ nextZIndex s' = nextZIndex s
  /\ nextWindowId s' = nextWindowId s.
Proof.
  cbv zeta. split; [apply groupOf_self|].
  destruct (closeWindow_keeps_outside s i) as [Hwin Hfs].
  split; [exact Hwin|]. split; [|split; [exact Hfs|]].
  - intros p. unfold closeWindow.
    destruct (existsb _ _); destruct (includes _ _); simpl;
      rewrite filter_In, negb_true_iff, includes_false; reflexivity.
  - unfold closeWindow. set (group := groupOf i (windowPairs s)).
    split; [|split].
    + intros a Ha.
      destruct (includes group (orEmpty (activeWindowId s))) eqn:Hinc.
      * assert (Htop : topWindowId (remainingWindows group (windows s)) = Some a)
          by (destruct (existsb _ group); exact Ha).
        apply topWindowId_member in Htop as (t & Ht & <-).
        unfold remainingWindows in Ht. apply filter_In in Ht as [_ Ht].
        apply andb_true_iff in Ht as [Ht _].
        apply negb_true_iff in Ht. now apply includes_false.
      * assert (Hact : activeWindowId s = Some a)
          by (destruct (existsb _ group); exact Ha).
        rewrite Hact in Hinc. now apply includes_false.
    + now destruct (existsb _ group); destruct (includes group _).
    + now destruct (existsb _ group); destruct (includes group _).
Qed.

(** *** The shape of reachable pairs *)

Lemma pairsShaped_same s s' :
  windowPairs s' = windowPairs s ->
  (pairingWindowId s' = pairingWindowId s \/ pairingWindowId s' = None) ->
  pairsShaped s -> pairsShaped s'.
Proof.
  intros Hp Hq [D S]. unfold pairsShaped. rewrite Hp.
  split; [exact D|]. intros src Hsrc. apply S.
  destruct Hq as [Hq|Hq]; congruence.
Qed.

Lemma pairsShaped_frame snap cur r :
  frame snap cur r -> pairsShaped cur -> pairsShaped r.
Proof.
  intros (_ & _ & Hp & _ & Hq). now apply pairsShaped_same.
Qed.

Lemma step_pairsShaped s o : pairsShaped s -> pairsShaped (step s o).
Proof.
  intros I.
  destruct o as [sch iw ih app fp|i|i|sch i|i|i|i nx ny|i nw nh|i|i| | |]; cbn [step].
  - unfold openApp. destruct (existingWindowOf app (windows s)) as [e|].
    + assert (I1 : pairsShaped
                     (if isMinimized e
                      then toggleMinimizeIn sch s (id e) (setLaunchpadOpen false s)
                      else focusWindowIn s (id e) (setLaunchpadOpen false s))).
      { destruct (isMinimized e);
          (eapply pairsShaped_frame;
           [apply toggleMinimizeIn_frame || apply focusWindowIn_frame
           |apply (pairsShaped_same s); [reflexivity|now left|exact I]]). }
      destruct (truthy fp); [|exact I1].
      revert I1. apply pairsShaped_same; [reflexivity|now left].
    + revert I. apply pairsShaped_same; [reflexivity|now left].
  - unfold closeWindow. destruct I as [D S].
    assert (I1 : pairsShaped
                   (setWindowPairs
                      (filter (fun p => negb (includes p i)) (windowPairs s)) s)).
    { split; simpl.
      - intros p Hp. apply D. now apply filter_In_source in Hp.
      - intros src Hsrc. eapply findPair_none_sub; [|exact (S src Hsrc)].
        intros p. apply filter_In_source. }
    destruct (existsb _ _); destruct (includes _ _);
      (revert I1; apply pairsShaped_same; [reflexivity|now left]).
  - eapply pairsShaped_frame; [apply focusWindowIn_frame|exact I].
  - eapply pairsShaped_frame; [apply toggleMinimizeIn_frame|exact I].
  - unfold toggleMaximize.
    eapply pairsShaped_frame; [apply focusWindowIn_frame|].
    revert I. apply pairsShaped_same; [reflexivity|now left].
  - unfold toggleFullScreen.
    eapply pairsShaped_frame; [apply focusWindowIn_frame|].
    revert I. apply pairsShaped_same; [reflexivity|now left].
  - unfold updateWindowPosition.
    destruct (findWindow i (windows s)) as [mover|]; [|exact I].
    revert I. apply pairsShaped_same; [reflexivity|now left].
  - revert I. apply pairsShaped_same; [reflexivity|now left].
  - unfold startPairing. destruct I as [D S].
    destruct (findIndex _ _) as [n|] eqn:F; split; simpl.
    + intros p Hp. apply D. now apply removeAt_In in Hp.
    + intros src Hsrc. eapply findPair_none_sub; [|exact (S src Hsrc)].
      intros p. apply removeAt_In.
    + exact D.
    + intros src Hsrc. inversion Hsrc; subst.
      now apply findIndex_none_findPair.
  - unfold completePairing. destruct I as [D S].
    destruct (pairingWindowId s) as [src|] eqn:Hsrc; [|now split].
    destruct (negb (String.eqb src "") && negb (String.eqb src i)) eqn:C;
      [|now split].
    rewrite (findIndex_findPair_none _ _ (S src eq_refl)).
    split; simpl; [|discriminate].
    intros p Hp. apply in_app_or in Hp as [Hp|[<-|[]]]; [now apply D|].
    exists src, i. split; [reflexivity|].
    apply andb_true_iff in C as [_ C]. apply negb_true_iff in C.
    now apply String.eqb_neq.
  - revert I. apply pairsShaped_same; [reflexivity|now left].
  - revert I. apply pairsShaped_same; [reflexivity|now left].
  - unfold clickDesktop. destruct (truthy _); [|exact I].
    revert I. apply pairsShaped_same; [reflexivity|now right].
Qed.

Lemma reachable_pairsShaped s : reachable s -> pairsShaped s.
Proof.
  apply reachable_ind.
  - split; [intros p []|discriminate].
  - intros; now apply step_pairsShaped.
Qed.

Lemma reachable_group_NoDup s i :
  reachable s -> NoDup (groupOf i (windowPairs s)).
Proof.
  intros Hr. destruct (reachable_pairsShaped s Hr) as [D _].
  unfold groupOf, findPair.
  destruct (find (fun p => includes p i) (windowPairs s)) as [p|] eqn:F.
  - apply find_some in F as [Hp _]. destruct (D p Hp) as (a & b & -> & Hab).
    constructor; [intros [E|[]]; congruence|].
    constructor; [intros []|constructor].
  - constructor; [intros []|constructor].
Qed.

(** In every reachable state each pair is exactly two distinct ids and
    the pending source is in no pair.  So [completePairing] never takes
    its branch that appends a target to the source's existing pair:
    on a reachable state it either leaves the pair list alone or appends
    the new two-element pair. *)
Theorem reachable_pairs_are_couples (s : State) (Hreach : reachable s) :
  (forall p, In p (windowPairs s) -> exists a b, p = [a; b] /\ a <> b)
  /\ (forall source p,
        pairingWindowId s = Some source -> In p (windowPairs s) ->
        ~ In source p)
  /\ (forall targetId,
        windowPairs (completePairing targetId s) = windowPairs s
        \/ exists source,
             pairingWindowId s = Some source
             /\ source <> targetId
             /\ windowPairs (completePairing targetId s)
                = windowPairs s ++ [[source; targetId]]).
Proof.
  destruct (reachable_pairsShaped s Hreach) as [D S].
  split; [exact D|]. split.
  - intros src p Hsrc Hp. apply includes_false.
    exact (findPair_absent _ _ (S src Hsrc) p Hp).
  - intros t. unfold completePairing.
    destruct (pairingWindowId s) as [src|] eqn:Hsrc; [|now left].
    destruct (negb (String.eqb src "") && negb (String.eqb src t)) eqn:C;
      [|now left].
    rewrite (findIndex_findPair_none _ _ (S src eq_refl)). right.
    exists src. split; [reflexivity|]. split; [|reflexivity].
    apply andb_true_iff in C as [_ C]. apply negb_true_iff in C.
    now apply String.eqb_neq.
Qed.

Lemma reachable_pairs_are_couples_witness :
  let s := run (threeWindows ++ overlappingPairs) initialState in
  reachable s
  /\ windowPairs s = [["win-0"; "win-2"]; ["win-1"; "win-0"]]
  /\ forall p, In p (windowPairs s) -> exists a b, p = [a; b] /\ a <> b.
Proof.
  cbv zeta.
  assert (Hr : reachable (run (threeWindows ++ overlappingPairs) initialState))
    by now eexists.
  split; [exact Hr|]. split; [vm_compute; reflexivity|].
  apply (reachable_pairs_are_couples _ Hr).
Defined.

(** ** Ids and stacking order over a session *)

(** Window ids are unique in every reachable state, each is
    [win-<n>] for a counter value [n] already used up, distinct counter
    values give distinct ids, and looking a registered window up by its
    id finds that very window. *)
Theorem window_ids_unique (s : State) (Hreach : reachable s) :
  NoDup (map id (windows s))
  /\ (forall w, In w (windows s) ->
        exists n, (n < nextWindowId s)%nat /\ id w = windowIdOf n)
  /\ (forall w, In w (windows s) -> findWindow (id w) (windows s) = Some w)
  /\ (forall n m, windowIdOf n = windowIdOf m -> n = m).
Proof.
  destruct (reachable_idsIssued s Hreach) as [N B].
  split; [exact N|]. split; [exact B|]. split.
  - intros w Hw. now apply findWindow_unique.
  - apply windowIdOf_inj.
Qed.

Lemma window_ids_unique_witness :
  let s := run (threeWindows ++ [CloseWindow "win-1";
                                 OpenApp true 1024 768 terminal None])
               initialState in
  reachable s
  /\ map id (windows s) = ["win-0"; "win-2"; "win-3"]
  /\ NoDup (map id (windows s)).
Proof.
  cbv zeta.
  assert (Hr : reachable (run (threeWindows
                               ++ [CloseWindow "win-1";
                                   OpenApp true 1024 768 terminal None])
                              initialState)) by now eexists.
  split; [exact Hr|]. split; [vm_compute; reflexivity|].
  apply (window_ids_unique _ Hr).
Defined.

Lemma refocused_raisedTo zn adv w w' :
  refocused zn adv w w' -> raisedTo zn w w'.
Proof.
  intros (z & m & f & -> & [->|[-> _]] & _); split; simpl; auto.
Qed.

Lemma frame_raisedTo snap cur r ws :
  frame snap cur r ->
  Forall2 (fun a b => id b = id a /\ zIndex b = zIndex a) ws (windows cur) ->
  Forall2 (raisedTo (nextZIndex snap)) ws (windows r).
Proof.
  intros (F & _) G.
  refine (Forall2_compose _ _ _ _ _ _ _ G F).
  intros a b c [E1 E2] H. apply refocused_raisedTo in H as [E3 E4].
  split; [congruence|]. rewrite <- E2. exact E4.
Qed.

Lemma raisedTo_map zn (g : WindowInstance -> WindowInstance) ws l :
  (forall w, id (g w) = id w /\ zIndex (g w) = zIndex w) ->
  Forall2 (raisedTo zn) ws l -> Forall2 (raisedTo zn) ws (map g l).
Proof.
  intros Hg. apply Forall2_map_right. intros a b [E1 E2].
  destruct (Hg b) as [G1 G2]. split; [congruence|]. now rewrite G2.
Qed.

(** The registry after one event, with the stacking order: kept windows
    have the [zIndex] they had or the value of the counter, and the
    counter does not go back. *)
Lemma step_shape_z s o :
  nextZIndex s <= nextZIndex (step s o)
  /\ ((exists f,
         Forall2 (raisedTo (nextZIndex s)) (filter f (windows s))
                 (windows (step s o)))
      \/ (exists sch iw ih app fp,
             o = OpenApp sch iw ih app fp
             /\ existingWindowOf app (windows s) = None
             /\ windows (step s o)
                = windows s ++ [newWindowFor iw ih app fp s])).
Proof.
  assert (Hsame : Forall2 (fun a b => id b = id a /\ zIndex b = zIndex a)
                          (windows s) (windows s))
    by (apply Forall2_refl_on; now split).
  assert (Hrefl : Forall2 (raisedTo (nextZIndex s)) (windows s) (windows s))
    by (apply Forall2_refl_on; split; auto).
  assert (Hkeep : forall l,
             Forall2 (raisedTo (nextZIndex s)) (windows s) l ->
             exists f,
               Forall2 (raisedTo (nextZIndex s)) (filter f (windows s)) l)
    by (intros l F; exists (fun _ => true); now rewrite filter_all).
  destruct o as [sch iw ih app fp|i|i|sch i|i|i|i nx ny|i nw nh|i|i| | |]; cbn [step].
  - unfold openApp.
    destruct (existingWindowOf app (windows s)) as [e|] eqn:Hex.
    + assert (F1 : nextZIndex s
                   <= nextZIndex
                        (if isMinimized e
                         then toggleMinimizeIn sch s (id e) (setLaunchpadOpen false s)
                         else focusWindowIn s (id e) (setLaunchpadOpen false s))
                   /\ Forall2 (raisedTo (nextZIndex s)) (windows s)
                        (windows
                           (if isMinimized e
                            then toggleMinimizeIn sch s (id e) (setLaunchpadOpen false s)
                            else focusWindowIn s (id e) (setLaunchpadOpen false s)))).
      { destruct (isMinimized e).
        - pose proof (toggleMinimizeIn_frame sch s (id e) (setLaunchpadOpen false s)) as Fr.
          split; [apply Fr|eapply frame_raisedTo; [exact Fr|exact Hsame]].
        - pose proof (focusWindowIn_frame s (id e) (setLaunchpadOpen false s)) as Fr.
          split; [apply Fr|eapply frame_raisedTo; [exact Fr|exact Hsame]]. }
      destruct F1 as [Z1 F1]. destruct (truthy fp); simpl.
      * split; [exact Z1|]. left. apply Hkeep.
        apply raisedTo_map; [|exact F1].
        intros w. now destruct (String.eqb _ _).
      * split; [exact Z1|]. left. now apply Hkeep.
    + simpl. split; [lia|]. right. exists sch, iw, ih, app, fp. now repeat split.
  - split.
    + unfold closeWindow. destruct (existsb _ _); destruct (includes _ _);
        simpl; lia.
    + left.
      exists (fun win => negb (includes (groupOf i (windowPairs s)) (id win))).
      unfold closeWindow.
      destruct (existsb _ _); destruct (includes _ _); simpl;
        (apply Forall2_refl_on; split; auto).
  - pose proof (focusWindowIn_frame s i s) as Fr.
    split; [apply Fr|]. left. apply Hkeep.
    eapply frame_raisedTo; [exact Fr|exact Hsame].
  - pose proof (toggleMinimizeIn_frame sch s i s) as Fr.
    split; [apply Fr|]. left. apply Hkeep.
    eapply frame_raisedTo; [exact Fr|exact Hsame].
  - unfold toggleMaximize.
    pose proof (focusWindowIn_frame s i
                  (setWindows (map (maximizeMap i) (windows s)) s)) as Fr.
    split; [apply Fr|]. left. apply Hkeep.
    eapply frame_raisedTo; [exact Fr|]. simpl.
    apply Forall2_map_right with (R := fun a b => id b = id a /\ zIndex b = zIndex a);
      [|exact Hsame].
    intros a b [E1 E2]. destruct (maximizeMap_sameIdentity i b) as [E3 _].
    rewrite (maximizeMap_zIndex i b). split; congruence.
  - unfold toggleFullScreen.
    pose proof (focusWindowIn_frame s i
                  (setFullScreenWindowId
                     (fullScreenIdAfter i (windows s) (fullScreenWindowId s))
                     (setWindows (map (fullScreenMap i) (windows s)) s))) as Fr.
    split; [apply Fr|]. left. apply Hkeep.
    eapply frame_raisedTo; [exact Fr|]. simpl.
    apply Forall2_map_right with (R := fun a b => id b = id a /\ zIndex b = zIndex a);
      [|exact Hsame].
    intros a b [E1 E2]. destruct (fullScreenMap_sameIdentity i b) as [E3 _].
    rewrite (fullScreenMap_zIndex i b). split; congruence.
  - unfold updateWindowPosition.
    destruct (findWindow i (windows s)) as [mover|]; simpl.
    + split; [lia|]. left. apply Hkeep. apply raisedTo_map; [|exact Hrefl].
      intros w. now destruct (includes _ _).
    + split; [lia|]. left. now apply Hkeep.
  - unfold updateWindowSize. simpl. split; [lia|]. left. apply Hkeep.
    apply raisedTo_map; [|exact Hrefl].
    intros w. now destruct (String.eqb _ _).
  - unfold startPairing. destruct (findIndex _ _); simpl;
      (split; [lia|left; now apply Hkeep]).
  - unfold completePairing. destruct (pairingWindowId s); simpl;
      [|split; [lia|left; now apply Hkeep]].
    destruct (_ && _); simpl; [|split; [lia|left; now apply Hkeep]].
    destruct (findIndex _ _); simpl; (split; [lia|left; now apply Hkeep]).
  - simpl. split; [lia|left; now apply Hkeep].
  - simpl. split; [lia|left; now apply Hkeep].
  - unfold clickDesktop. destruct (truthy _); simpl;
      (split; [lia|left; now apply Hkeep]).
Qed.

Lemma Forall2_right_In {A} (R : A -> A -> Prop) l l' b :
  Forall2 R l l' -> In b l' -> exists a, In a l /\ R a b.
Proof.
  intros F. induction F as [|a0 b0 l l' H F IH]; intros Hb; [destruct Hb|].
  destruct Hb as [<-|Hb].
  - exists a0. split; [now left|exact H].
  - destruct (IH Hb) as (a & Ha & Hr). exists a. split; [now right|exact Hr].
Qed.

(** Stacking order over one event from a reachable state: neither
    counter goes back, every [zIndex] in the new registry is below the
    new z counter, and every window of the new registry either was
    there before with a [zIndex] no greater than it has now, or is the
    newly opened window (fresh id, [zIndex] equal to the old counter,
    above every other window). *)
Theorem zIndex_never_decreases (s : State) (o : Op) (Hreach : reachable s) :
  let s' := step s o in
  nextZIndex s <= nextZIndex s'
  /\ (nextWindowId s <= nextWindowId s')%nat
  /\ (forall w', In w' (windows s') -> zIndex w' < nextZIndex s')
  /\ (forall w', In w' (windows s') ->
        (exists w, In w (windows s) /\ id w = id w'
                   /\ zIndex w <= zIndex w')
        \/ (~ In (id w') (map id (windows s))
            /\ zIndex w' = nextZIndex s
            /\ forall w, In w (windows s) -> zIndex w < zIndex w')).
Proof.
  cbv zeta.
  pose proof (reachable_zBounded s Hreach) as B.
  pose proof (step_zBounded s o B) as B'.
  destruct (reachable_idsIssued s Hreach) as [N I].
  unfold zBounded in B, B'. rewrite Forall_forall in B, B'.
  destruct (step_shape_z s o) as [Hz Hshape].
  split; [exact Hz|]. split.
  { destruct (step_shape s o) as [(f & _ & E)|(? & ? & ? & ? & ? & _ & _ & _ & E)];
      rewrite E; lia. }
  split; [exact B'|].
  intros w' Hw'.
  destruct Hshape as [(f & F)|(sch & iw & ih & app & fp & -> & Hex & Hw)].
  - left. destruct (Forall2_right_In _ _ _ _ F Hw') as (w & Hw & [E1 E2]).
    apply filter_In_source in Hw. exists w. split; [exact Hw|].
    split; [congruence|]. specialize (B w Hw). destruct E2; lia.
  - rewrite Hw in Hw'. apply in_app_or in Hw' as [Hin|[<-|[]]].
    + left. exists w'. split; [exact Hin|]. split; [reflexivity|lia].
    + right. split; [|split; [reflexivity|]].
      * intros Hin. apply in_map_iff in Hin as (w & Ew & Hin).
        destruct (I w Hin) as (n & Hlt & En). simpl in Ew.
        rewrite En in Ew. apply windowIdOf_inj in Ew. lia.
      * intros w Hin. simpl. now apply B.
Qed.

Lemma zIndex_never_decreases_witness :
  let s := run threeWindows initialState in
  reachable s
  /\ nextZIndex s <= nextZIndex (step s (FocusWindow "win-0"))
  /\ forall w', In w' (windows (step s (FocusWindow "win-0"))) ->
                zIndex w' < nextZIndex (step s (FocusWindow "win-0")).
Proof.
  cbv zeta.
  assert (Hr : reachable (run threeWindows initialState)) by now eexists.
  destruct (zIndex_never_decreases _ (FocusWindow "win-0") Hr)
    as (H1 & _ & H2 & _).
  split; [exact Hr|]. split; [exact H1|exact H2].
Defined.

(** ** Opening a window *)

Lemma existingWindowOf_multi app ws :
  allowMultiInstance app = true -> existingWindowOf app ws = None.
Proof.
  intros H. unfold existingWindowOf. rewrite H.
  induction ws as [|w ws IH]; simpl; [reflexivity|].
  now rewrite andb_false_r.
Qed.

(** When [openApp] creates a window (the entry allows several instances,
    or no window of the application is registered), from a reachable
    state: the registry grows by exactly that window at its end, its id
    is not in use, its [zIndex] is above every other one, it is
    the active window, it is neither minimized, maximized nor
    fullscreen, it carries the [filePath] given, the launcher is closed,
    both counters advance by one, and pairs, pending source and
    fullscreen id stay as they were. *)
Theorem openApp_new_window
  (s : State) (eager : bool) (iw ih : Q) (app : AppDefinition)
  (fp : option string)
  (Hreach : reachable s)
  (Hnew : allowMultiInstance app = true
          \/ existingWindowOf app (windows s) = None) :
  let s' := openApp eager iw ih app fp s in
  let nw := newWindowFor iw ih app fp s in
  windows s' = windows s ++ [nw]
  /\ ~ In (id nw) (map id (windows s))
  /\ (forall w, In w (windows s) -> zIndex w < zIndex nw)
  /\ activeWindowId s' = Some (id nw)
  /\ (isMinimized nw = false /\ isMaximized nw = false
      /\ isFullScreen nw = false /\ preMaximizedState nw = None)
  /\ (appId nw = app_id app /\ title nw = app_name app /\ filePath nw = fp)
  /\ launchpadOpen s' = false
  /\ nextZIndex s' = nextZIndex s + 1
  /\ nextWindowId s' = S (nextWindowId s)
  /\ windowPairs s' = windowPairs s
  /\ pairingWindowId s' = pairingWindowId s
  /\ fullScreenWindowId s' = fullScreenWindowId s.
Proof.
  cbv zeta.
  assert (Hex : existingWindowOf app (windows s) = None)
    by (destruct Hnew; [now apply existingWindowOf_multi|assumption]).
  pose proof (reachable_zBounded s Hreach) as B.
  destruct (reachable_idsIssued s Hreach) as [N I].
  unfold zBounded in B. rewrite Forall_forall in B.
  unfold openApp. rewrite Hex. simpl.
  split; [reflexivity|]. split.
  { intros Hin. apply in_map_iff in Hin as (w & Ew & Hin).
    destruct (I w Hin) as (n & Hlt & En). rewrite En in Ew.
    apply windowIdOf_inj in Ew. lia. }
  split; [exact B|]. repeat split.
Qed.

Lemma openApp_new_window_witness :
  let s := run threeWindows initialState in
  let s' := openApp true 1024 768 terminal (Some "a.txt") s in
  reachable s
  /\ allowMultiInstance terminal = true
  /\ map id (windows s') = ["win-0"; "win-1"; "win-2"; "win-3"]
  /\ activeWindowId s' = Some "win-3".
Proof.
  cbv zeta.
  assert (Hr : reachable (run threeWindows initialState)) by now eexists.
  destruct (openApp_new_window _ true 1024 768 terminal (Some "a.txt") Hr
              (or_introl eq_refl))
    as (Hw & _ & _ & Ha & _).
  split; [exact Hr|]. split; [reflexivity|]. split.
  - rewrite Hw. vm_compute; reflexivity.
  - rewrite Ha. vm_compute; reflexivity.
Defined.

(** Where a new window is placed: its size is the entry's default size
    or 720 x 540; the cascade offset is 25 times the number of windows
    not minimized, modulo 10, so at most 225; [x] is the centred
    position plus the offset; [y] is the centred position less 40 plus
    the offset, but never less than 38 (menu bar height plus 10). *)
Theorem newWindow_placement
  (iw ih : Q) (app : AppDefinition) (fp : option string) (s : State) :
  let nw := newWindowFor iw ih app fp s in
  let shown := List.length (filter (fun w => negb (isMinimized w)) (windows s)) in
  let offset := 25 * (Z.of_nat shown mod 10) in
  0 <= offset <= 225
  /\ (width nw, height nw)
     = match defaultSize app with
       | Some d => (s_width d, s_height d)
       | None => (720%Q, 540%Q)
       end
  /\ x nw = (iw / 2 - width nw / 2 + inject_Z offset)%Q
  /\ (38 <= y nw)%Q
  /\ ((ih - height nw) / 2 - 40 + inject_Z offset <= y nw)%Q
  /\ (y nw == 38 \/ y nw == (ih - height nw) / 2 - 40 + inject_Z offset)%Q.
Proof.
  cbv zeta. split.
  { pose proof (Z.mod_pos_bound
                  (Z.of_nat (List.length
                               (filter (fun w => negb (isMinimized w))
                                       (windows s)))) 10 ltac:(lia)).
    lia. }
  unfold newWindowFor. cbn [x y width height].
  split; [now destruct (defaultSize app)|].
  split; [reflexivity|].
  assert (E38 : (28 + 10 == 38)%Q) by reflexivity.
  split; [|split].
  - rewrite <- E38. apply Q.le_max_l.
  - apply Q.le_max_r.
  - destruct (Q.max_spec (28 + 10)%Q
                ((ih - match defaultSize app with
                       | Some d => s_height d
                       | None => 540%Q
                       end) / 2 - 40
                 + inject_Z (25 * (Z.of_nat
                                     (List.length
                                        (filter (fun w => negb (isMinimized w))
                                                (windows s))) mod 10)))%Q)
      as [[_ E]|[_ E]].
    + right. exact E.
    + left. rewrite E. exact E38.
Qed.

(** ** Minimizing a group *)

Lemma includes_cons j r i :
  includes (j :: r) i = String.eqb i j || includes r i.
Proof. reflexivity. Qed.

Lemma flipAll_step j rest w :
  ~ In j rest ->
  flipAll rest (flipMinimized j w) = flipAll (j :: rest) w.
Proof.
  intros Hj. unfold flipAll, flipMinimized. rewrite includes_cons.
  destruct (String.eqb (id w) j) eqn:E; simpl; [|reflexivity].
  apply String.eqb_eq in E. rewrite E.
  now rewrite (proj2 (includes_false rest j) Hj).
Qed.

Lemma flipAll_skip j rest w :
  String.eqb (id w) j = false -> flipAll (j :: rest) w = flipAll rest w.
Proof.
  intros E. unfold flipAll. rewrite includes_cons. now rewrite E.
Qed.

(** The [forEach] in closed form, for a group without repetition. *)
Lemma minimizeStep_fold_flips snap ids :
  NoDup ids ->
  forall wins cur focused wins' cur' focused',
    fold_left (minimizeStep snap) ids (wins, cur, focused)
    = (wins', cur', focused') ->
    wins' = map (flipAll ids) wins
    /\ exists extra, focused' = focused ++ extra /\ incl extra ids.
Proof.
  induction 1 as [|j rest Hj N IH]; intros wins cur focused wins' cur' focused' E.
  - simpl in E. inversion E; subst. split.
    + symmetry. apply map_fixes. intros w _. reflexivity.
    + exists []. split; [now rewrite app_nil_r|intros a []].
  - cbn [fold_left] in E. unfold minimizeStep at 2 in E.
    destruct (findWindow j wins) as [w|] eqn:F.
    + assert (Hmap : map (flipAll rest) (map (flipMinimized j) wins)
                     = map (flipAll (j :: rest)) wins).
      { rewrite map_map. apply map_ext. intros u. now apply flipAll_step. }
      destruct (isMinimized w); [destruct (focusSkips snap j)|];
        destruct (IH _ _ _ _ _ _ E) as (-> & extra & -> & Hincl);
        (split; [exact Hmap|]).
      * exists extra. split; [reflexivity|]. now apply incl_tl.
      * exists (j :: extra). rewrite <- app_assoc. split; [reflexivity|].
        intros a [<-|Ha]; [now left|right; now apply Hincl].
      * exists extra. split; [reflexivity|]. now apply incl_tl.
    + destruct (IH _ _ _ _ _ _ E) as (-> & extra & -> & Hincl). split.
      * apply map_ext_in. intros u Hu. symmetry. apply flipAll_skip.
        exact (findWindow_absent _ _ F u Hu).
      * exists extra. split; [reflexivity|]. now apply incl_tl.
Qed.

(** ** What [openApp] does with the instance it reuses *)




(** ** The active window after closing or minimizing *)

(** The two orders of running the updater differ only when it restores
    a window: on a group none of whose members is minimized,
    [toggleMinimize] gives the same state in both. *)
Lemma minimizeStep_fold_none_minimized snap ids :
  NoDup ids ->
  forall wins,
    (forall j w, In j ids -> findWindow j wins = Some w ->
                 isMinimized w = false) ->
    exists wins' (b : bool),
      forall c focused,
        fold_left (minimizeStep snap) ids (wins, c, focused)
        = (wins', (if b then setFullScreenWindowId None c else c), focused).
Proof.
  induction 1 as [|j rest Hj N IH]; intros wins Hnone.
  - exists wins, false. reflexivity.
  - destruct (findWindow j wins) as [w|] eqn:F.
    + assert (Hm : isMinimized w = false)
        by (apply (Hnone j w); [now left|exact F]).
      destruct (IH (map (flipMinimized j) wins)) as (wins' & b & Hfold).
      { intros j' u Hj' Hu.
        rewrite findWindow_map in Hu by (intros v; apply flipMinimized_id).
        destruct (findWindow j' wins) as [u0|] eqn:F'; [|discriminate].
        simpl in Hu. inversion Hu; subst u.
        assert (Hm0 : isMinimized u0 = false)
          by (apply (Hnone j' u0); [now right|exact F']).
        unfold findWindow in F'. apply find_some in F' as [_ Hid].
        apply String.eqb_eq in Hid. unfold flipMinimized.
        destruct (String.eqb (id u0) j) eqn:E; [|exact Hm0].
        apply String.eqb_eq in E. elim Hj. congruence. }
      exists wins', (isFullScreen w || b). intros c focused.
      cbn [fold_left]. unfold minimizeStep at 2. rewrite F, Hm, Hfold.
      destruct (isFullScreen w), b; reflexivity.
    + destruct (IH wins) as (wins' & b & Hfold).
      { intros j' u Hj' Hu. apply (Hnone j' u); [now right|exact Hu]. }
      exists wins', b. intros c focused.
      cbn [fold_left]. unfold minimizeStep at 2. rewrite F. apply Hfold.
Qed.

Lemma toggleMinimizeIn_order_irrelevant snap i cur :
  NoDup (groupOf i (windowPairs snap)) ->
  (forall j w, In j (groupOf i (windowPairs snap)) ->
               findWindow j (windows cur) = Some w -> isMinimized w = false) ->
  toggleMinimizeIn true snap i cur = toggleMinimizeIn false snap i cur.
Proof.
  intros N Hnone. unfold toggleMinimizeIn. cbv zeta.
  destruct (minimizeStep_fold_none_minimized snap _ N _ Hnone)
    as (wins' & b & Hfold).
  rewrite !Hfold. simpl fold_left. unfold promoteRemaining. cbv zeta.
  destruct (_ && _); destruct b; reflexivity.
Qed.

Lemma lastFocused_cases l fallback :
  (l = [] /\ lastFocused l fallback = fallback)
  \/ exists j, In j l /\ lastFocused l fallback = Some j.
Proof.
  revert fallback. induction l as [|j l IH]; intros fallback;
    [left; now split|].
  right. rewrite lastFocused_cons.
  destruct (IH (Some j)) as [[-> E]|(k & Hk & E)].
  - exists j. split; [now left|exact E].
  - exists k. split; [now right|exact E].
Qed.

(** The active id after a minimizing [toggleMinimize] on a group that
    holds the active window, in the two orders. *)
Lemma toggleMinimize_active s i a w :
  activeWindowId s = Some a ->
  In a (groupOf i (windowPairs s)) ->
  findWindow i (windows s) = Some w -> isMinimized w = false ->
  let group := groupOf i (windowPairs s) in
  let top := topWindowId (remainingWindows group (windows s)) in
  activeWindowId (toggleMinimize true i s) = top
  /\ (NoDup group ->
      activeWindowId (toggleMinimize false i s)
      = lastFocused (filter (restores s (windows s)) group) top).
Proof.
  intros Hact Hin Hw Hmin. cbv zeta. apply includes_true in Hin.
  assert (Hpr : forall c,
             activeWindowId (promoteRemaining s i c)
             = topWindowId (remainingWindows (groupOf i (windowPairs s))
                                             (windows s))).
  { intros c. unfold promoteRemaining. cbv zeta.
    rewrite Hw, Hmin, Hact. simpl orEmpty. rewrite Hin. reflexivity. }
  split.
  - unfold toggleMinimize, toggleMinimizeIn. cbv zeta.
    destruct (fold_left _ _ _) as [[wins cur1] focused]. apply Hpr.
  - intros N. unfold toggleMinimize, toggleMinimizeIn. cbv zeta.
    destruct (fold_left _ _ _) as [[wins cur1] focused] eqn:E.
    destruct (minimizeStep_fold_focused s _ N _ _ _ _ _ _ E) as (_ & Ha).
    simpl activeWindowId at 1. rewrite Ha. f_equal. apply Hpr.
Qed.




Lemma focusWindows_fold_closed snap focused :
  forall l,
    fold_left (fun ws j => focusWindows snap j ws) focused l
    = map (raiseAll (nextZIndex snap) focused) l.
Proof.
  induction focused as [|j focused IH]; intros l; simpl.
  - symmetry. apply map_fixes. intros w _. reflexivity.
  - rewrite IH. unfold focusWindows. rewrite map_map. apply map_ext.
    intros w. unfold raiseAll. rewrite includes_cons.
    destruct (String.eqb (id w) j); simpl; [|reflexivity].
    now destruct (includes focused (id w)).
Qed.

(** The updater of [openApp] that writes [filePath] and the window
    updaters of [focusWindow] write different fields: the order in which
    they run does not matter. *)
Lemma focusWindows_filePath_commute snap focused i fp :
  forall ws,
    map (fun win => if String.eqb (id win) i then withFilePath fp win else win)
        (fold_left (fun l j => focusWindows snap j l) focused ws)
    = fold_left (fun l j => focusWindows snap j l) focused
        (map (fun win => if String.eqb (id win) i
                         then withFilePath fp win else win) ws).
Proof.
  induction focused as [|j focused IH]; intros ws; simpl; [reflexivity|].
  rewrite IH. f_equal. unfold focusWindows. rewrite !map_map.
  apply map_ext. intros w.
  destruct (String.eqb (id w) i) eqn:E1; destruct (String.eqb (id w) j) eqn:E2;
    simpl; rewrite ?E1, ?E2; reflexivity.
Qed.

Lemma toggleMinimizeIn_windows eager snap i cur :
  NoDup (groupOf i (windowPairs snap)) ->
  exists focused,
    incl focused (groupOf i (windowPairs snap))
    /\ windows (toggleMinimizeIn eager snap i cur)
       = map (fun w => raiseAll (nextZIndex snap) focused
                         (flipAll (groupOf i (windowPairs snap)) w))
             (windows cur).
Proof.
  intros N. unfold toggleMinimizeIn. cbv zeta. destruct eager.
  - destruct (fold_left (minimizeStep snap) (groupOf i (windowPairs snap))
                        (windows cur, cur, []))
      as [[wins cur1] focused] eqn:E.
    destruct (minimizeStep_fold_flips snap _ N _ _ _ _ _ _ E) as (-> & _).
    exists []. split; [intros a []|].
    destruct (promoteRemaining_fields snap i
                (setWindows (map (flipAll (groupOf i (windowPairs snap)))
                                 (windows cur)) cur1)) as (-> & _).
    reflexivity.
  - destruct (fold_left (minimizeStep snap) (groupOf i (windowPairs snap))
                        (windows cur, promoteRemaining snap i cur, []))
      as [[wins cur1] focused] eqn:E.
    destruct (minimizeStep_fold_flips snap _ N _ _ _ _ _ _ E)
      as (-> & extra & Hf & Hincl).
    simpl in Hf. subst extra. exists focused. split; [exact Hincl|].
    simpl. now rewrite focusWindows_fold_closed, map_map.
Qed.

(** [toggleMinimize i] from a reachable state, in either order of
    running its updater, window by window: a
    window whose id is in the group of [i] (the pair containing [i], or
    [i] alone) has its [isMinimized] negated and its [isFullScreen]
    cleared, keeps id, bounds, maximize flag and snapshot, and has the
    [zIndex] it had or the value of the z counter; a window outside the
    group is untouched. *)
Theorem toggleMinimize_flips_group
  (s : State) (eager : bool) (i : string) (k : nat) (w : WindowInstance)
  (Hreach : reachable s)
  (Hk : nth_error (windows s) k = Some w) :
  let group := groupOf i (windowPairs s) in
  exists w',
    nth_error (windows (toggleMinimize eager i s)) k = Some w'
    /\ (In (id w) group ->
        isMinimized w' = negb (isMinimized w)
        /\ isFullScreen w' = false
        /\ id w' = id w
        /\ boundsOf w' = boundsOf w
        /\ isMaximized w' = isMaximized w
        /\ preMaximizedState w' = preMaximizedState w
        /\ (zIndex w' = zIndex w \/ zIndex w' = nextZIndex s))
    /\ (~ In (id w) group -> w' = w).
Proof.
  cbv zeta.
  destruct (toggleMinimizeIn_windows eager s i s
              (reachable_group_NoDup s i Hreach))
    as (focused & Hincl & Hw).
  unfold toggleMinimize. rewrite Hw.
  eexists. split; [apply nth_error_map_some; exact Hk|].
  unfold raiseAll, flipAll. split.
  - intros Hin. apply includes_true in Hin. rewrite Hin. simpl.
    destruct (includes focused (id w)); simpl; repeat split; auto.
  - intros Hout.
    rewrite (proj2 (includes_false _ _) Hout).
    assert (Hf : includes focused (id w) = false).
    { apply includes_false. intros Hin. apply Hout. now apply Hincl. }
    now rewrite Hf.
Qed.

Lemma toggleMinimize_flips_group_witness :
  let s := run (threeWindows ++ [StartPairing "win-0"; CompletePairing "win-1"])
               initialState in
  reachable s
  /\ map (fun w => (id w, isMinimized w)) (windows s)
     = [("win-0", false); ("win-1", false); ("win-2", false)]
  /\ exists w',
       nth_error (windows (toggleMinimize false "win-0" s)) 1 = Some w'
       /\ id w' = "win-1"
       /\ isMinimized w' = true
       /\ isFullScreen w' = false.
Proof.
  cbv zeta.
  set (s := run (threeWindows ++ [StartPairing "win-0"; CompletePairing "win-1"])
                initialState).
  assert (Hr : reachable s) by now eexists.
  set (w := newWindowFor 1024 768 terminal None
              (run [OpenApp true 1024 768 notes None] initialState)).
  assert (Hk : nth_error (windows s) 1 = Some w) by (vm_compute; reflexivity).
  assert (Hin : In (id w) (groupOf "win-0" (windowPairs s)))
    by (vm_compute; right; now left).
  split; [exact Hr|]. split; [vm_compute; reflexivity|].
  destruct (toggleMinimize_flips_group s false "win-0" 1 w Hr Hk)
    as (w' & H1 & Hgroup & _).
  destruct (Hgroup Hin) as (Hm & Hf & Hi & _).
  exists w'. split; [exact H1|]. split; [rewrite Hi; reflexivity|].
  split; [rewrite Hm; reflexivity|exact Hf].
Defined.

(** ** The fullscreen id *)

Lemma NoDup_id_inj l a b :
  NoDup (map id l) -> In a l -> In b l -> id a = id b -> a = b.
Proof.
  induction l as [|c l IH]; simpl; [intros _ []|].
  intros N Ha Hb E. inversion N as [|? ? Hnot Hrest]; subst.
  destruct Ha as [->|Ha], Hb as [->|Hb].
  - reflexivity.
  - elim Hnot. rewrite E. now apply in_map.
  - elim Hnot. rewrite <- E. now apply in_map.
  - now apply IH.
Qed.

Lemma Forall2_left_In {A} (R : A -> A -> Prop) l l' a :
  Forall2 R l l' -> In a l -> exists b, In b l' /\ R a b.
Proof.
  intros F. induction F as [|a0 b0 l l' H F IH]; intros Ha; [destruct Ha|].
  destruct Ha as [<-|Ha].
  - exists b0. split; [now left|exact H].
  - destruct (IH Ha) as (b & Hb & Hr). exists b. split; [now right|exact Hr].
Qed.

Lemma fullScreenSound_keeps s s' :
  fullScreenWindowId s' = fullScreenWindowId s ->
  Forall2 keepsFlag (windows s) (windows s') ->
  fullScreenSound s -> fullScreenSound s'.
Proof.
  intros Hfs F S i Hi. rewrite Hfs in Hi.
  destruct (S i Hi) as (w & Hw & Hid & Hflag).
  destruct (Forall2_left_In _ _ _ _ F Hw) as (w' & Hw' & [E1 E2]).
  exists w'. split; [exact Hw'|]. split; congruence.
Qed.

Lemma keepsFlag_map (g : WindowInstance -> WindowInstance) ws :
  (forall w, keepsFlag w (g w)) -> Forall2 keepsFlag ws (map g ws).
Proof. intros H. induction ws; simpl; constructor; auto. Qed.

Lemma focusWindowIn_fullScreenSound snap i cur :
  fullScreenSound cur -> fullScreenSound (focusWindowIn snap i cur).
Proof.
  apply fullScreenSound_keeps.
  - unfold focusWindowIn. now destruct (focusSkips snap i).
  - destruct (focusWindowIn_windows snap i cur) as [zf ->].
    apply keepsFlag_map. intros w. now split.
Qed.

Lemma minimizeStep_fold_fullScreen snap ids :
  forall wins cur focused wins' cur' focused',
    NoDup (map id wins) ->
    fullScreenSound (setWindows wins cur) ->
    fold_left (minimizeStep snap) ids (wins, cur, focused)
    = (wins', cur', focused') ->
    fullScreenSound (setWindows wins' cur').
Proof.
  induction ids as [|j ids IH]; intros wins cur focused wins' cur' focused' N S E.
  - simpl in E. now inversion E; subst.
  - cbn [fold_left] in E. unfold minimizeStep at 2 in E.
    destruct (findWindow j wins) as [wt|] eqn:F;
      [|exact (IH _ _ _ _ _ _ N S E)].
    assert (Hwt : In wt wins /\ id wt = j).
    { apply find_some in F as [H1 H2]. split; [exact H1|].
      now apply String.eqb_eq. }
    assert (N' : NoDup (map id (map (flipMinimized j) wins))).
    { rewrite map_map. erewrite map_ext; [exact N|].
      intros u. apply flipMinimized_id. }
    assert (S' : forall c,
               fullScreenWindowId c
               = fullScreenWindowId
                   (if isFullScreen wt
                    then setFullScreenWindowId None cur else cur) ->
               fullScreenSound (setWindows (map (flipMinimized j) wins) c)).
    { intros c Hc i Hi. simpl in Hi. rewrite Hc in Hi.
      destruct (isFullScreen wt) eqn:Hflag; [discriminate|].
      destruct (S i Hi) as (w & Hw & Hid & Hfl). simpl in Hw.
      assert (Hne : String.eqb (id w) j = false).
      { apply String.eqb_neq. intros Ej.
        assert (w = wt)
          by (apply (NoDup_id_inj wins); [exact N|exact Hw|tauto|];
              destruct Hwt; congruence).
        congruence. }
      exists w. split; [|tauto]. simpl.
      apply in_map_iff. exists w. split; [|exact Hw].
      unfold flipMinimized. now rewrite Hne. }
    destruct (isMinimized wt); [destruct (focusSkips snap j)|];
      (eapply IH; [exact N'| |exact E]); apply S'; reflexivity.
Qed.

Lemma toggleMinimizeIn_fullScreenSound eager snap i cur :
  NoDup (map id (windows cur)) ->
  fullScreenSound cur ->
  fullScreenSound (toggleMinimizeIn eager snap i cur).
Proof.
  intros N S. unfold toggleMinimizeIn. cbv zeta. destruct eager.
  - destruct (fold_left (minimizeStep snap) (groupOf i (windowPairs snap))
                        (windows cur, cur, []))
      as [[wins cur1] focused] eqn:E.
    assert (S1 : fullScreenSound (setWindows wins cur1)).
    { eapply minimizeStep_fold_fullScreen; [exact N| |exact E].
      now rewrite setWindows_same. }
    destruct (promoteRemaining_fields snap i (setWindows wins cur1))
      as (Pw & _ & _ & _ & _ & Pf & _).
    revert S1. apply fullScreenSound_keeps; [exact Pf|].
    rewrite Pw. apply Forall2_refl_on. now split.
  - destruct (promoteRemaining_fields snap i cur)
      as (_ & _ & _ & _ & _ & Pf & _).
    destruct (fold_left (minimizeStep snap) (groupOf i (windowPairs snap))
                        (windows cur, promoteRemaining snap i cur, []))
      as [[wins cur1] focused] eqn:E.
    assert (S1 : fullScreenSound (setWindows wins cur1)).
    { eapply minimizeStep_fold_fullScreen; [exact N| |exact E].
      revert S. apply fullScreenSound_keeps; [exact Pf|].
      apply Forall2_refl_on. now split. }
    revert S1. apply fullScreenSound_keeps; [reflexivity|]. simpl.
    rewrite focusWindows_fold_closed. apply keepsFlag_map.
    intros w. unfold raiseAll. now destruct (includes _ _).
Qed.

Lemma fullScreenIdAfter_found j ws fs w :
  NoDup (map id ws) -> findWindow j ws = Some w ->
  fullScreenIdAfter j ws fs = if isFullScreen w then None else Some j.
Proof.
  revert fs. induction ws as [|a ws IH]; intros fs N F; [discriminate|].
  inversion N as [|? ? Hnot Hrest]; subst.
  unfold findWindow in F. simpl in F. unfold fullScreenIdAfter. simpl.
  destruct (String.eqb (id a) j) eqn:E.
  - inversion F; subst. apply String.eqb_eq in E.
    apply (fullScreenIdAfter_absent j ws).
    unfold findWindow.
    destruct (find (fun w0 => String.eqb (id w0) j) ws) as [b|] eqn:Fb;
      [|reflexivity].
    apply find_some in Fb as [Hb Eb]. apply String.eqb_eq in Eb.
    elim Hnot. rewrite E, <- Eb. now apply in_map.
  - now apply IH.
Qed.

Lemma fullScreenMap_keepsFlag_other i w :
  String.eqb (id w) i = false -> fullScreenMap i w = w.
Proof. intros E. unfold fullScreenMap. now rewrite E. Qed.

Lemma maximizeMap_keepsFlag i w : keepsFlag w (maximizeMap i w).
Proof.
  unfold maximizeMap. destruct (negb _); [now split|].
  destruct (isMaximized w); [|now split].
  now destruct (preMaximizedState w).
Qed.

Lemma step_fullScreenSound s o :
  NoDup (map id (windows s)) ->
  fullScreenSound s -> fullScreenSound (step s o).
Proof.
  intros N S.
  assert (Hsame : forall s',
             fullScreenWindowId s' = fullScreenWindowId s ->
             windows s' = windows s -> fullScreenSound s').
  { intros s' H1 H2. revert S. apply fullScreenSound_keeps; [exact H1|].
    rewrite H2. apply Forall2_refl_on. now split. }
  assert (Hmap : forall s' g,
             fullScreenWindowId s' = fullScreenWindowId s ->
             windows s' = map g (windows s) ->
             (forall w, keepsFlag w (g w)) -> fullScreenSound s').
  { intros s' g H1 H2 Hg. revert S. apply fullScreenSound_keeps; [exact H1|].
    rewrite H2. now apply keepsFlag_map. }
  destruct o as [sch iw ih app fp|i|i|sch i|i|i|i nx ny|i nw nh|i|i| | |]; cbn [step].
  - unfold openApp. destruct (existingWindowOf app (windows s)) as [e|].
    + assert (S1 : fullScreenSound
                     (if isMinimized e
                      then toggleMinimizeIn sch s (id e) (setLaunchpadOpen false s)
                      else focusWindowIn s (id e) (setLaunchpadOpen false s))).
      { destruct (isMinimized e).
        - apply toggleMinimizeIn_fullScreenSound; [exact N|].
          now apply Hsame.
        - apply focusWindowIn_fullScreenSound. now apply Hsame. }
      destruct (truthy fp); [|exact S1].
      revert S1. apply fullScreenSound_keeps; [reflexivity|]. simpl.
      apply keepsFlag_map. intros w. now destruct (String.eqb _ _).
    + intros i Hi. simpl in Hi. destruct (S i Hi) as (w & Hw & Hrest).
      exists w. split; [simpl; apply in_or_app; now left|exact Hrest].
  - (* closeWindow *)
    intros f Hf.
    destruct (closeWindow_keeps_outside s i) as (Hwin & Hfs).
    assert (Hold : fullScreenWindowId s = Some f).
    { unfold closeWindow in Hf.
      destruct (existsb _ _); destruct (includes _ _); simpl in Hf;
        congruence. }
    destruct (S f Hold) as (w & Hw & Hid & Hflag).
    exists w. split; [|tauto]. apply Hwin. split; [exact Hw|].
    rewrite Hid. now apply Hfs.
  - now apply focusWindowIn_fullScreenSound.
  - now apply toggleMinimizeIn_fullScreenSound.
  - unfold toggleMaximize. apply focusWindowIn_fullScreenSound.
    apply (Hmap _ (maximizeMap i)); [reflexivity|reflexivity|].
    apply maximizeMap_keepsFlag.
  - (* toggleFullScreen *)
    unfold toggleFullScreen. apply focusWindowIn_fullScreenSound.
    destruct (findWindow i (windows s)) as [wi|] eqn:F.
    + rewrite (fullScreenIdAfter_found i _ _ wi N F).
      intros f Hf. simpl in Hf.
      destruct (isFullScreen wi) eqn:Hflag; [discriminate|].
      inversion Hf; subst f.
      apply find_some in F as [Hin E].
      exists (fullScreenMap i wi). split; [simpl; now apply in_map|].
      unfold fullScreenMap. rewrite E, Hflag. simpl.
      split; [now apply String.eqb_eq|reflexivity].
    + rewrite (fullScreenIdAfter_absent _ _ _ F), (fullScreenMap_absent _ _ F).
      now apply Hsame.
  - unfold updateWindowPosition.
    destruct (findWindow i (windows s)) as [mover|]; [|exact S].
    eapply Hmap; [reflexivity|reflexivity|].
    intros w. cbv beta. now destruct (includes _ _).
  - eapply Hmap; [reflexivity|reflexivity|].
    intros w. cbv beta. now destruct (String.eqb _ _).
  - unfold startPairing. destruct (findIndex _ _); now apply Hsame.
  - unfold completePairing. destruct (pairingWindowId s); [|now apply Hsame].
    destruct (_ && _); [|now apply Hsame].
    destruct (findIndex _ _); now apply Hsame.
  - now apply Hsame.
  - now apply Hsame.
  - unfold clickDesktop. destruct (truthy _); now apply Hsame.
Qed.

Lemma reachable_fullScreenSound s : reachable s -> fullScreenSound s.
Proof.
  intros Hr. pattern s. revert s Hr. apply reachable_ind.
  - intros i Hi. discriminate.
  - intros s o Hr S. apply step_fullScreenSound; [|exact S].
    apply (reachable_idsIssued s Hr).
Qed.

Lemma fullScreenInstance_found s i w :
  NoDup (map id (windows s)) ->
  fullScreenWindowId s = Some i -> In w (windows s) -> id w = i ->
  fullScreenInstance s = Some w.
Proof.
  intros N Hfs Hw Hid. unfold fullScreenInstance. rewrite Hfs.
  destruct (find (fun w0 => eqNullable (Some i) (id w0)) (windows s))
    as [w0|] eqn:F.
  - apply find_some in F as [H0 E0]. simpl in E0. apply String.eqb_eq in E0.
    f_equal. apply (NoDup_id_inj (windows s)); [exact N|exact H0|exact Hw|].
    congruence.
  - pose proof (find_none _ _ F w Hw) as E. simpl in E.
    rewrite Hid, String.eqb_refl in E. discriminate.
Qed.

(** Whenever the fullscreen id is set in a reachable state, it names a
    registered window whose [isFullScreen] flag is set, and the lookup
    the render makes for the fullscreen layout finds that window (so the
    shell never falls back to the desktop layout with a fullscreen id
    pending). *)
Theorem fullScreen_id_names_window
  (s : State) (i : string)
  (Hreach : reachable s)
  (Hfs : fullScreenWindowId s = Some i) :
  exists w,
    fullScreenInstance s = Some w
    /\ In w (windows s) /\ id w = i /\ isFullScreen w = true.
Proof.
  destruct (reachable_fullScreenSound s Hreach i Hfs) as (w & Hw & Hid & Hflag).
  destruct (reachable_idsIssued s Hreach) as [N _].
  exists w. split; [|tauto].
  now apply (fullScreenInstance_found s i w).
Qed.

Lemma fullScreen_id_names_window_witness :
  let s := run (threeWindows ++ [ToggleFullScreen "win-1"]) initialState in
  reachable s
  /\ fullScreenWindowId s = Some "win-1"
  /\ exists w,
       fullScreenInstance s = Some w
       /\ id w = "win-1" /\ isFullScreen w = true.
Proof.
  cbv zeta.
  set (s := run (threeWindows ++ [ToggleFullScreen "win-1"]) initialState).
  assert (Hr : reachable s) by now eexists.
  assert (Hfs : fullScreenWindowId s = Some "win-1")
    by (vm_compute; reflexivity).
  split; [exact Hr|]. split; [exact Hfs|].
  destruct (fullScreen_id_names_window s "win-1" Hr Hfs)
    as (w & H1 & _ & H2 & H3).
  exists w. now repeat split.
Defined.

(** ** The catalog, the menu bar and the action dispatcher *)

Lemma step_fromCatalog APPS s o :
  fromCatalog APPS o ->
  (forall w, In w (windows s) ->
             exists app, In app APPS /\ app_id app = appId w) ->
  forall w, In w (windows (step s o)) ->
            exists app, In app APPS /\ app_id app = appId w.
Proof.
  intros Hc H w' Hw'.
  destruct (step_shape s o)
    as [(f & F & _)|(sch & iw & ih & app & fp & -> & _ & Hw & _)].
  - destruct (Forall2_right_In _ _ _ _ F Hw') as (w & Hw & [_ E]).
    apply filter_In_source in Hw. destruct (H w Hw) as (app & Ha & Eapp).
    exists app. split; [exact Ha|congruence].
  - rewrite Hw in Hw'. apply in_app_or in Hw' as [Hin|[<-|[]]].
    + now apply H.
    + exists app. split; [exact Hc|reflexivity].
Qed.

Lemma run_fromCatalog APPS ops :
  forall s,
    Forall (fromCatalog APPS) ops ->
    (forall w, In w (windows s) ->
               exists app, In app APPS /\ app_id app = appId w) ->
    forall w, In w (windows (run ops s)) ->
              exists app, In app APPS /\ app_id app = appId w.
Proof.
  induction ops as [|o ops IH]; intros s Hc H; [exact H|].
  inversion Hc; subst. simpl. apply IH; [assumption|].
  now apply step_fromCatalog.
Qed.

Lemma catalog_lookup APPS a :
  (exists app, In app APPS /\ app_id app = a) ->
  exists app,
    find (fun app => String.eqb (app_id app) a) APPS = Some app
    /\ In app APPS /\ app_id app = a.
Proof.
  intros (app0 & H0 & E0).
  destruct (find (fun app => String.eqb (app_id app) a) APPS) as [app|] eqn:F.
  - exists app. split; [reflexivity|].
    apply find_some in F as [H1 H2]. split; [exact H1|].
    now apply String.eqb_eq.
  - pose proof (find_none _ _ F app0 H0) as E. simpl in E.
    rewrite E0, String.eqb_refl in E. discriminate.
Qed.

(** In a session that opens applications from the catalog only, the
    [activeApp] memo resolves whenever the id it looks at (the fullscreen
    id if set, else the active id) names a registered window: it is a
    catalog entry with that window's application id, so the menu bar
    shows the application's name and not the fallback. *)
Theorem activeApp_resolves
  (APPS : list AppDefinition) (ops : list Op) (w : WindowInstance)
  (Hcat : Forall (fromCatalog APPS) ops)
  (Hset : truthy (orElse (fullScreenWindowId (run ops initialState))
                         (activeWindowId (run ops initialState))) = true)
  (Hwin : findWindow
            (orEmpty (orElse (fullScreenWindowId (run ops initialState))
                             (activeWindowId (run ops initialState))))
            (windows (run ops initialState)) = Some w) :
  exists app,
    activeApp APPS (run ops initialState) = Some app
    /\ In app APPS
    /\ app_id app = appId w.
Proof.
  unfold activeApp. rewrite Hset, Hwin.
  apply catalog_lookup.
  apply (run_fromCatalog APPS ops initialState Hcat); [intros u []|].
  apply find_some in Hwin. tauto.
Qed.

Lemma activeApp_resolves_witness :
  let ops := threeWindows ++ [ToggleFullScreen "win-1"; FocusWindow "win-0"] in
  Forall (fromCatalog [notes; terminal]) ops
  /\ activeWindowId (run ops initialState) = Some "win-0"
  /\ fullScreenWindowId (run ops initialState) = Some "win-1"
  /\ exists app,
       activeApp [notes; terminal] (run ops initialState) = Some app
       /\ app_id app = "terminal".
Proof.
  cbv zeta.
  set (ops := threeWindows ++ [ToggleFullScreen "win-1"; FocusWindow "win-0"]).
  assert (Hcat : Forall (fromCatalog [notes; terminal]) ops)
    by (repeat constructor; simpl; tauto).
  set (w := withZIndex 13
              (fullScreenMap "win-1"
                 (newWindowFor 1024 768 terminal None
                    (run [OpenApp true 1024 768 notes None] initialState)))).
  assert (Hset : truthy (orElse (fullScreenWindowId (run ops initialState))
                                (activeWindowId (run ops initialState))) = true)
    by (vm_compute; reflexivity).
  assert (Hwin : findWindow
                   (orEmpty (orElse (fullScreenWindowId (run ops initialState))
                                    (activeWindowId (run ops initialState))))
                   (windows (run ops initialState)) = Some w)
    by (vm_compute; reflexivity).
  destruct (activeApp_resolves [notes; terminal] ops w Hcat Hset Hwin)
    as (app & H1 & _ & H2).
  split; [exact Hcat|]. split; [vm_compute; reflexivity|].
  split; [vm_compute; reflexivity|].
  exists app. split; [exact H1|]. rewrite H2. vm_compute; reflexivity.
Defined.

Lemma windowIdOf_truthy n : String.eqb (windowIdOf n) "" = false.
Proof. reflexivity. Qed.

(** While a window is fullscreen (in a session that opens catalog
    applications only) the memo always resolves, to the application of
    the fullscreen window, whatever the active id is. *)
Theorem activeApp_in_fullscreen
  (APPS : list AppDefinition) (ops : list Op) (i : string)
  (Hcat : Forall (fromCatalog APPS) ops)
  (Hfs : fullScreenWindowId (run ops initialState) = Some i) :
  exists w app,
    fullScreenInstance (run ops initialState) = Some w
    /\ id w = i
    /\ activeApp APPS (run ops initialState) = Some app
    /\ In app APPS
    /\ app_id app = appId w.
Proof.
  set (s := run ops initialState) in *.
  assert (Hr : reachable s) by now exists ops.
  destruct (reachable_fullScreenSound s Hr i Hfs) as (w & Hw & Hid & Hflag).
  destruct (reachable_idsIssued s Hr) as [N I].
  assert (Hfind : findWindow i (windows s) = Some w)
    by (rewrite <- Hid; now apply findWindow_unique).
  assert (Hne : String.eqb i "" = false).
  { destruct (I w Hw) as (n & _ & En). rewrite <- Hid, En.
    apply windowIdOf_truthy. }
  exists w.
  assert (Hcatw : exists app, In app APPS /\ app_id app = appId w)
    by (apply (run_fromCatalog APPS ops initialState Hcat);
        [intros u []|exact Hw]).
  destruct (catalog_lookup APPS (appId w) Hcatw) as (app & F & Hin & E).
  exists app. split; [|split; [exact Hid|]].
  - now apply (fullScreenInstance_found s i w).
  - unfold activeApp, orElse. rewrite Hfs. simpl. rewrite Hne. simpl.
    rewrite Hne. simpl. rewrite Hfind. now repeat split.
Qed.

Lemma activeApp_in_fullscreen_witness :
  let ops := threeWindows ++ [ToggleFullScreen "win-0"] in
  Forall (fromCatalog [notes; terminal]) ops
  /\ fullScreenWindowId (run ops initialState) = Some "win-0"
  /\ exists app,
       activeApp [notes; terminal] (run ops initialState) = Some app
       /\ In app [notes; terminal].
Proof.
  cbv zeta.
  set (ops := threeWindows ++ [ToggleFullScreen "win-0"]).
  assert (Hcat : Forall (fromCatalog [notes; terminal]) ops)
    by (repeat constructor; simpl; tauto).
  assert (Hfs : fullScreenWindowId (run ops initialState) = Some "win-0")
    by (vm_compute; reflexivity).
  destruct (activeApp_in_fullscreen [notes; terminal] ops "win-0" Hcat Hfs)
    as (w & app & _ & _ & H1 & H2 & _).
  split; [exact Hcat|]. split; [exact Hfs|].
  exists app. split; [exact H1|exact H2].
Defined.

(** The generic dispatcher changes the state only by opening a catalog
    application: a null action, an empty or unknown action kind, an
    [open_app] without an application id, and an [open_app] whose id is
    not in the catalog all leave the state exactly as it is; otherwise
    the result is [openApp] on the first catalog entry with that id and
    the payload's file path.  Either way no window of an application
    outside the catalog appears. *)
Theorem handleExecuteAction_effects
  (APPS : list AppDefinition) (eager : bool) (iw ih : Q)
  (a : option OSAction) (s : State) :
  let s' := handleExecuteAction APPS eager iw ih a s in
  (a = None -> s' = s)
  /\ (forall act, a = Some act -> action act <> "open_app" -> s' = s)
  /\ (forall act, a = Some act -> truthy (payload_appId act) = false -> s' = s)
  /\ (forall act, a = Some act ->
        (forall app, In app APPS -> Some (app_id app) <> payload_appId act) ->
        s' = s)
  /\ (s' = s
      \/ exists act app,
           a = Some act /\ action act = "open_app"
           /\ In app APPS /\ payload_appId act = Some (app_id app)
           /\ s' = step s (OpenApp eager iw ih app (payload_filePath act))
           /\ fromCatalog APPS
                (OpenApp eager iw ih app (payload_filePath act))).
Proof.
  cbv zeta. unfold handleExecuteAction.
  split; [now intros ->|]. split; [|split; [|split]].
  - intros act -> Hk. destruct (String.eqb (action act) ""); [reflexivity|].
    destruct (String.eqb (action act) "open_app") eqn:E; [|reflexivity].
    apply String.eqb_eq in E. contradiction.
  - intros act -> Ht. rewrite Ht.
    destruct (String.eqb (action act) ""); [reflexivity|].
    now destruct (String.eqb (action act) "open_app").
  - intros act -> Hno.
    destruct (String.eqb (action act) ""); [reflexivity|].
    destruct (String.eqb (action act) "open_app"); [|reflexivity].
    destruct (truthy (payload_appId act)) eqn:Ht; [|reflexivity].
    destruct (find _ APPS) as [app|] eqn:F; [|reflexivity].
    apply find_some in F as [Hin E]. apply String.eqb_eq in E.
    destruct (payload_appId act) as [j|]; [|discriminate].
    simpl in E. elim (Hno app Hin). now rewrite E.
  - destruct a as [act|]; [|now left].
    destruct (String.eqb (action act) ""); [now left|].
    destruct (String.eqb (action act) "open_app") eqn:Ek; [|now left].
    destruct (truthy (payload_appId act)) eqn:Ht; [|now left].
    destruct (find _ APPS) as [app|] eqn:F; [|now left].
    right. exists act, app. apply find_some in F as [Hin E].
    apply String.eqb_eq in E, Ek.
    destruct (payload_appId act) as [j|]; [|discriminate].
    simpl in E. subst j. now repeat split.
Qed.

(** ** The shelf *)

(** Pinning an item under a fresh id and removing that id gives back the
    shelf as it was; removing any other id commutes with the pinning;
    after a removal no item carries the removed id; and fresh ids keep
    the ids of the shelf distinct. *)
Theorem shelf_add_remove
  (Item : Type) (uuid : string) (item : Item) (prev : list (ShelfItem Item))
  (Hfresh : forall it, In it prev -> shelf_id it <> uuid) :
  removeFromShelf uuid (addToShelf uuid item prev) = prev
  /\ (forall i, i <> uuid ->
        removeFromShelf i (addToShelf uuid item prev)
        = addToShelf uuid item (removeFromShelf i prev))
  /\ (forall i it, In it (removeFromShelf i (addToShelf uuid item prev)) ->
        shelf_id it <> i)
  /\ (NoDup (map shelf_id prev) ->
      NoDup (map shelf_id (addToShelf uuid item prev))).
Proof.
  unfold removeFromShelf, addToShelf. split; [|split; [|split]].
  - rewrite filter_app. simpl. rewrite String.eqb_refl. simpl.
    rewrite app_nil_r. apply filter_keeps. intros it Hit.
    apply negb_true_iff. apply String.eqb_neq. now apply Hfresh.
  - intros i Hi. rewrite filter_app. simpl.
    assert (E : String.eqb uuid i = false)
      by (apply String.eqb_neq; congruence).
    now rewrite E.
  - intros i it Hit. apply filter_In in Hit as [_ Hit].
    apply negb_true_iff in Hit. now apply String.eqb_neq.
  - intros N. rewrite map_app. apply NoDup_app; [exact N| |].
    + simpl. constructor; [intros []|constructor].
    + intros j Hj [<-|[]]. apply in_map_iff in Hj as (it & E & Hit).
      now apply (Hfresh it Hit).
Qed.

Lemma shelf_add_remove_witness :
  let prev := [mkShelfItem "u1" "notes.txt"; mkShelfItem "u2" "photo.png"] in
  (forall it, In it prev -> shelf_id it <> "u3")
  /\ removeFromShelf "u3" (addToShelf "u3" "todo.md" prev) = prev
  /\ removeFromShelf "u1" (addToShelf "u3" "todo.md" prev)
     = [mkShelfItem "u2" "photo.png"; mkShelfItem "u3" "todo.md"].
Proof.
  cbv zeta.
  assert (Hfresh : forall it,
             In it [mkShelfItem "u1" "notes.txt"; mkShelfItem "u2" "photo.png"] ->
             shelf_id it <> "u3")
    by (intros it [<-|[<-|[]]]; discriminate).
  destruct (shelf_add_remove string "u3" "todo.md" _ Hfresh)
    as (H1 & H2 & _).
  split; [exact Hfresh|]. split; [exact H1|].
  rewrite H2 by discriminate. reflexivity.
Defined.

(** * Further properties of the AI request proxy *)

Section KeyStickiness.
Variables T E : Type.
Variable API_KEYS : list string.

Lemma last_rotation_prefix (i k d : nat) :
  (1 <= k)%nat ->
  last (map (fun j => ((i + j) mod List.length API_KEYS)%nat) (seq 0 k)) d
  = ((i + (k - 1)) mod List.length API_KEYS)%nat.
Proof.
  intros Hk. destruct k as [|k]; [lia|].
  rewrite seq_S, map_app. simpl. rewrite last_last.
  now replace (k - 0)%nat with k by lia.
Qed.

(** The key that worked is kept, as long as calls do not overlap.  After
    an online call from a valid index that runs while no other call
    does: if it resolved, the index left behind is the one of the last
    key tried (the one that resolved); if it threw, the index is the one
    it started from.  In both cases the index is valid, the next such
    call sends its first request with exactly that key, and [createChat]
    builds its client on that key (a key of the list, never
    [undefined]). *)
Theorem performRequest_sticky_key
  (request1 request2 : nat -> AI.Client -> E + T) (w : @AI.World T E)
  (Hi : (AI.currentKeyIndex w < List.length API_KEYS)%nat) :
  exists (w1 w2 : @AI.World T E) st1 sent1 st2 sent2,
    AI.performRequestAlone API_KEYS request1 true w = Some w1
    /\ AI.calls w1 = AI.calls w ++ [AI.mkCall st1 sent1]
    /\ (AI.currentKeyIndex w1 < List.length API_KEYS)%nat
    /\ (forall v, st1 = AI.Resolved v ->
          AI.currentKeyIndex w1 = last sent1 (AI.currentKeyIndex w))
    /\ (forall f, st1 = AI.Thrown f ->
          AI.currentKeyIndex w1 = AI.currentKeyIndex w)
    /\ AI.performRequestAlone API_KEYS request2 true w1 = Some w2
    /\ AI.calls w2 = AI.calls w1 ++ [AI.mkCall st2 sent2]
    /\ hd_error sent2 = Some (AI.currentKeyIndex w1)
    /\ exists key,
         nth_error API_KEYS (AI.currentKeyIndex w1) = Some key
         /\ AI.createChat API_KEYS (AI.currentKeyIndex w1) = Some (Some key).
Proof.
  destruct (performRequestAlone_online T E API_KEYS request1 w Hi)
    as (w1 & k1 & st1 & Hrun1 & Hk1 & Hcalls1 & _ & Hend1).
  assert (Hvalid : (AI.currentKeyIndex w1 < List.length API_KEYS)%nat).
  { destruct Hend1 as [(v & _ & _ & ->)|(e & _ & _ & _ & ->)]; [|exact Hi].
    apply Nat.mod_upper_bound. lia. }
  destruct (performRequestAlone_online T E API_KEYS request2 w1 Hvalid)
    as (w2 & k2 & st2 & Hrun2 & Hk2 & Hcalls2 & _).
  eexists w1, w2, st1, _, st2, _.
  split; [exact Hrun1|]. split; [exact Hcalls1|]. split; [exact Hvalid|].
  split; [|split; [|split; [exact Hrun2|split; [exact Hcalls2|split]]]].
  - intros v Hv. rewrite last_rotation_prefix by lia.
    destruct Hend1 as [(v' & _ & _ & Hidx)|(e & Hst & _)];
      [exact Hidx|congruence].
  - intros f Hf.
    destruct Hend1 as [(v' & Hst & _)|(e & _ & _ & _ & Hidx)];
      [congruence|exact Hidx].
  - destruct k2 as [|k2]; [lia|]. simpl.
    rewrite Nat.add_0_r. f_equal. now apply Nat.mod_small.
  - destruct (nth_error API_KEYS (AI.currentKeyIndex w1)) as [key|] eqn:Hkey.
    + exists key. split; [reflexivity|].
      unfold AI.createChat, AI.getClient.
      replace (List.length API_KEYS =? 0)%nat with false
        by (symmetry; apply Nat.eqb_neq; lia).
      now rewrite Hkey.
    + apply nth_error_None in Hkey. lia.
Qed.
End KeyStickiness.

Lemma performRequest_sticky_key_witness :
  let keys := ["k0"; "k1"; "k2"] in
  let request1 := fun (k : nat) (c : AI.Client) =>
                    if (k <? 2)%nat then inl "quota" else inr "ok" in
  let request2 := fun (k : nat) (c : AI.Client) => @inr string string "ok" in
  let w := AI.mkWorld (T := string) (E := string) 1 [] in
  (AI.currentKeyIndex w < List.length keys)%nat
  /\ exists w1 w2 sent2,
       AI.performRequestAlone keys request1 true w = Some w1
       /\ AI.currentKeyIndex w1 = 0%nat
       /\ AI.performRequestAlone keys request2 true w1 = Some w2
       /\ AI.calls w2
          = AI.calls w1 ++ [AI.mkCall (AI.Resolved "ok") sent2]
       /\ hd_error sent2 = Some 0%nat.
Proof.
  cbv zeta.
  assert (Hi : (AI.currentKeyIndex (AI.mkWorld (T := string) (E := string) 1 [])
                < List.length ["k0"; "k1"; "k2"])%nat) by (simpl; lia).
  destruct (performRequest_sticky_key string string ["k0"; "k1"; "k2"]
              (fun (k : nat) (c : AI.Client) =>
                 if (k <? 2)%nat then inl "quota" else inr "ok")
              (fun (k : nat) (c : AI.Client) => @inr string string "ok")
              (AI.mkWorld 1 []) Hi)
    as (w1 & w2 & st1 & sent1 & st2 & sent2
        & H1 & _ & _ & _ & _ & H2 & Hc2 & Hhd & _).
  split; [exact Hi|].
  assert (E1 : w1 = AI.mkWorld 0 [AI.mkCall (AI.Resolved "ok") [1; 2; 0]%nat]).
  { assert (R : AI.performRequestAlone ["k0"; "k1"; "k2"]
                  (fun (k : nat) (c : AI.Client) =>
                     if (k <? 2)%nat then inl "quota" else inr "ok")
                  true (AI.mkWorld (T := string) (E := string) 1 [])
                = Some (AI.mkWorld 0
                          [AI.mkCall (AI.Resolved "ok") [1; 2; 0]%nat]))
      by (vm_compute; reflexivity).
    rewrite R in H1. now inversion H1. }
  assert (E2 : st2 = AI.Resolved "ok").
  { subst w1.
    assert (R : AI.performRequestAlone (E := string) ["k0"; "k1"; "k2"]
                  (fun (k : nat) (c : AI.Client) => @inr string string "ok")
                  true
                  (AI.mkWorld 0 [AI.mkCall (AI.Resolved "ok") [1; 2; 0]%nat])
                = Some (AI.mkWorld 0
                          [AI.mkCall (AI.Resolved "ok") [1; 2; 0]%nat;
                           AI.mkCall (AI.Resolved "ok") [0]%nat]))
      by (vm_compute; reflexivity).
    rewrite R in H2. inversion H2; subst w2. simpl in Hc2.
    now inversion Hc2. }
  subst st2. exists w1, w2, sent2.
  split; [exact H1|]. split; [now subst w1|]. split; [exact H2|].
  split; [exact Hc2|]. rewrite Hhd. now subst w1.
Defined.

(** * Further properties: promotion and the fullscreen toggle *)

(** The window left active when the active one goes away is on screen.
    From a reachable state whose active window is in the group of [i]:
    after [closeWindow i] the active id is null or names a window of the
    new registry that is not minimized and is outside the group.  After a
    minimizing [toggleMinimize i], in either order of running its
    updater, the active id is null or names a window of the new registry
    that is not minimized: a window outside the group or, only when the
    updater runs at render time, a member of the group that was minimized
    and has been restored. *)
Theorem promoted_window_is_visible
  (s : State) (i a0 : string)
  (Hreach : reachable s)
  (Hact : activeWindowId s = Some a0)
  (Hin : In a0 (groupOf i (windowPairs s))) :
  let group := groupOf i (windowPairs s) in
  (forall a, activeWindowId (closeWindow i s) = Some a ->
     exists w, In w (windows (closeWindow i s))
               /\ id w = a /\ isMinimized w = false /\ ~ In a group)
  /\ (forall eager w0,
        findWindow i (windows s) = Some w0 -> isMinimized w0 = false ->
        forall a, activeWindowId (toggleMinimize eager i s) = Some a ->
          exists w, In w (windows (toggleMinimize eager i s))
                    /\ id w = a /\ isMinimized w = false
                    /\ (~ In a group
                        \/ (eager = false /\ In a group
                            /\ exists u, findWindow a (windows s) = Some u
                                         /\ isMinimized u = true))).
Proof.
  cbv zeta. pose proof Hin as Hinc. apply includes_true in Hinc.
  pose proof (reachable_group_NoDup s i Hreach) as N.
  assert (Hrem : forall a,
             topWindowId (remainingWindows (groupOf i (windowPairs s))
                                           (windows s)) = Some a ->
             exists t, In t (windows s) /\ id t = a
                       /\ isMinimized t = false
                       /\ ~ In a (groupOf i (windowPairs s))).
  { intros a Ha. apply topWindowId_member in Ha as (t & Ht & <-).
    unfold remainingWindows in Ht. apply filter_In in Ht as [Hw Ht].
    apply andb_true_iff in Ht as [Hg Hm].
    apply negb_true_iff in Hg, Hm. apply includes_false in Hg.
    exists t. now repeat split. }
  assert (Hout : forall eager a t,
             In t (windows s) -> id t = a -> isMinimized t = false ->
             ~ In a (groupOf i (windowPairs s)) ->
             exists w, In w (windows (toggleMinimize eager i s))
                       /\ id w = a /\ isMinimized w = false).
  { intros eager a t Hw Hid Hm Hnot.
    destruct (toggleMinimizeIn_windows eager s i s N)
      as (focused & Hincl & Hws).
    exists t. split; [|now split].
    unfold toggleMinimize. rewrite Hws. apply in_map_iff. exists t.
    split; [|exact Hw].
    unfold raiseAll, flipAll. rewrite Hid.
    rewrite (proj2 (includes_false _ _) Hnot). rewrite Hid.
    assert (Hf : includes focused a = false).
    { apply includes_false. intros Hfa. apply Hnot. now apply Hincl. }
    now rewrite Hf. }
  split.
  - intros a Ha.
    assert (Htop : topWindowId (remainingWindows (groupOf i (windowPairs s))
                                                 (windows s)) = Some a).
    { unfold closeWindow in Ha. rewrite Hact in Ha. simpl orEmpty in Ha.
      rewrite Hinc in Ha. now destruct (existsb _ _). }
    destruct (Hrem a Htop) as (t & Hw & Hid & Hm & Hnot).
    exists t. split; [|now repeat split].
    apply (closeWindow_keeps_outside s i). split; [exact Hw|]. now rewrite Hid.
  - intros eager w0 Hw0 Hm0 a Ha.
    destruct (toggleMinimize_active s i a0 w0 Hact Hin Hw0 Hm0)
      as (Heager & Hrender).
    destruct eager.
    + rewrite Heager in Ha.
      destruct (Hrem a Ha) as (t & Hw & Hid & Hm & Hnot).
      destruct (Hout true a t Hw Hid Hm Hnot) as (w & H1 & H2 & H3).
      exists w. split; [exact H1|]. split; [exact H2|]. split; [exact H3|].
      now left.
    + rewrite (Hrender N) in Ha.
      destruct (lastFocused_cases
                  (filter (restores s (windows s)) (groupOf i (windowPairs s)))
                  (topWindowId (remainingWindows (groupOf i (windowPairs s))
                                                 (windows s))))
        as [[_ E]|(j & Hj & E)]; rewrite E in Ha.
      * destruct (Hrem a Ha) as (t & Hw & Hid & Hm & Hnot).
        destruct (Hout false a t Hw Hid Hm Hnot) as (w & H1 & H2 & H3).
        exists w. split; [exact H1|]. split; [exact H2|]. split; [exact H3|].
        now left.
      * inversion Ha; subst j. apply filter_In in Hj as [Hg Hr].
        unfold restores in Hr.
        destruct (findWindow a (windows s)) as [u|] eqn:F; [|discriminate].
        apply andb_true_iff in Hr as [Hu _].
        pose proof F as F'. unfold findWindow in F'.
        apply find_some in F' as [Hin_u Hid_u]. apply String.eqb_eq in Hid_u.
        destruct (toggleMinimizeIn_windows false s i s N)
          as (focused & Hincl & Hws).
        exists (raiseAll (nextZIndex s) focused
                  (flipAll (groupOf i (windowPairs s)) u)).
        split; [|split; [|split]].
        -- unfold toggleMinimize. rewrite Hws.
           apply in_map_iff. exists u. now split.
        -- unfold raiseAll, flipAll.
           destruct (includes focused _); destruct (includes _ (id u));
             exact Hid_u.
        -- unfold raiseAll, flipAll. rewrite Hid_u.
           rewrite (proj2 (includes_true _ _) Hg).
           destruct (includes focused _); simpl; now rewrite Hu.
        -- right. split; [reflexivity|]. split; [exact Hg|].
           exists u. now split.
Qed.

Lemma promoted_window_is_visible_witness :
  let s := run threeWindows initialState in
  let t := run (threeWindows ++ pairWithMinimizedPartner true) initialState in
  (reachable s
   /\ activeWindowId s = Some "win-2"
   /\ In "win-2" (groupOf "win-2" (windowPairs s))
   /\ activeWindowId (closeWindow "win-2" s) = Some "win-1"
   /\ exists w, In w (windows (closeWindow "win-2" s))
                /\ id w = "win-1" /\ isMinimized w = false)
  /\ (reachable t
      /\ activeWindowId t = Some "win-0"
      /\ In "win-0" (groupOf "win-0" (windowPairs t))
      /\ activeWindowId (toggleMinimize true "win-0" t) = Some "win-2"
      /\ (exists w, In w (windows (toggleMinimize true "win-0" t))
                    /\ id w = "win-2" /\ isMinimized w = false)
      /\ activeWindowId (toggleMinimize false "win-0" t) = Some "win-1"
      /\ (exists w, In w (windows (toggleMinimize false "win-0" t))
                    /\ id w = "win-1" /\ isMinimized w = false)).
Proof.
  cbv zeta. split.
  - set (s := run threeWindows initialState).
    assert (Hr : reachable s) by now eexists.
    assert (Hact : activeWindowId s = Some "win-2")
      by (vm_compute; reflexivity).
    assert (Hin : In "win-2" (groupOf "win-2" (windowPairs s)))
      by (vm_compute; now left).
    assert (Ha : activeWindowId (closeWindow "win-2" s) = Some "win-1")
      by (vm_compute; reflexivity).
    destruct (promoted_window_is_visible s "win-2" "win-2" Hr Hact Hin)
      as (Hclose & _).
    destruct (Hclose "win-1" Ha) as (w & H1 & H2 & H3 & _).
    split; [exact Hr|]. split; [exact Hact|]. split; [exact Hin|].
    split; [exact Ha|]. exists w. now repeat split.
  - set (t := run (threeWindows ++ pairWithMinimizedPartner true) initialState).
    assert (Hr : reachable t) by now eexists.
    assert (Hact : activeWindowId t = Some "win-0")
      by (vm_compute; reflexivity).
    assert (Hin : In "win-0" (groupOf "win-0" (windowPairs t)))
      by (vm_compute; now left).
    assert (Hw : exists w0, findWindow "win-0" (windows t) = Some w0
                            /\ isMinimized w0 = false)
      by (eexists; split; vm_compute; reflexivity).
    destruct Hw as (w0 & Hw0 & Hm0).
    assert (Ha1 : activeWindowId (toggleMinimize true "win-0" t)
                  = Some "win-2") by (vm_compute; reflexivity).
    assert (Ha2 : activeWindowId (toggleMinimize false "win-0" t)
                  = Some "win-1") by (vm_compute; reflexivity).
    destruct (promoted_window_is_visible t "win-0" "win-0" Hr Hact Hin)
      as (_ & Htoggle).
    destruct (Htoggle true w0 Hw0 Hm0 "win-2" Ha1) as (w1 & A1 & A2 & A3 & _).
    destruct (Htoggle false w0 Hw0 Hm0 "win-1" Ha2) as (w2 & B1 & B2 & B3 & _).
    split; [exact Hr|]. split; [exact Hact|]. split; [exact Hin|].
    split; [exact Ha1|]. split; [exists w1; now repeat split|].
    split; [exact Ha2|]. exists w2. now repeat split.
Defined.

(** [toggleFullScreen i] on a registered window of a reachable state
    sets the fullscreen id to [i] when the window was not fullscreen and
    clears it when it was, flips the window's flag accordingly, and in
    both cases leaves [i] as the active window. *)
Theorem toggleFullScreen_sets_id
  (s : State) (i : string) (w : WindowInstance)
  (Hreach : reachable s)
  (Hw : findWindow i (windows s) = Some w) :
  fullScreenWindowId (toggleFullScreen i s)
  = (if isFullScreen w then None else Some i)
  /\ activeWindowId (toggleFullScreen i s) = Some i
  /\ exists w',
       findWindow i (windows (toggleFullScreen i s)) = Some w'
       /\ isFullScreen w' = negb (isFullScreen w).
Proof.
  destruct (reachable_idsIssued s Hreach) as [N _].
  unfold toggleFullScreen.
  rewrite (fullScreenIdAfter_found i _ _ w N Hw).
  assert (E : String.eqb (id w) i = true)
    by (apply find_some in Hw; tauto).
  assert (Hmap : findWindow i (map (fullScreenMap i) (windows s))
                 = Some (fullScreenMap i w)).
  { rewrite findWindow_map, Hw; [reflexivity|].
    intros u. apply (fullScreenMap_sameIdentity i u). }
  assert (Hflag : isFullScreen (fullScreenMap i w) = negb (isFullScreen w)).
  { unfold fullScreenMap, spreadSnapshot. rewrite E. simpl.
    destruct (isFullScreen w); simpl; [|reflexivity].
    now destruct (preMaximizedState w). }
  unfold focusWindowIn. destruct (focusSkips s i) eqn:Hs; simpl.
  - split; [reflexivity|]. split; [now apply focusSkips_active|].
    exists (fullScreenMap i w). now split.
  - split; [reflexivity|]. split; [reflexivity|].
    exists (withZIndex (nextZIndex s) (fullScreenMap i w)). split; [|exact Hflag].
    unfold focusWindows. rewrite findWindow_map, Hmap.
    + cbn [option_map]. destruct (fullScreenMap_sameIdentity i w) as [Eid _].
      now rewrite Eid, E.
    + intros u. cbv beta. now destruct (String.eqb (id u) i).
Qed.

Lemma toggleFullScreen_sets_id_witness :
  let s := run threeWindows initialState in
  reachable s
  /\ (exists w, findWindow "win-1" (windows s) = Some w
                /\ isFullScreen w = false)
  /\ fullScreenWindowId (toggleFullScreen "win-1" s) = Some "win-1"
  /\ activeWindowId (toggleFullScreen "win-1" s) = Some "win-1".
Proof.
  cbv zeta.
  set (s := run threeWindows initialState).
  assert (Hr : reachable s) by now eexists.
  set (w := newWindowFor 1024 768 terminal None
              (run [OpenApp true 1024 768 notes None] initialState)).
  assert (Hw : findWindow "win-1" (windows s) = Some w)
    by (vm_compute; reflexivity).
  destruct (toggleFullScreen_sets_id s "win-1" w Hr Hw) as (H1 & H2 & _).
  split; [exact Hr|]. split; [exists w; split; [exact Hw|reflexivity]|].
  split; [exact H1|exact H2].
Defined.
